(** * deflect-geoip: country database builder

    A shallow embedding of [internal/rir/parse.go], [internal/rir/sources.go]
    and [cmd/build-countrydb/main.go], and the properties of the range
    aggregator, the stats parser, the fetcher, the merge step and the
    artifact writer.

    Conventions.
    - A Go [string] is a sequence of bytes: Rocq's [string] (a list of 8-bit
      [ascii]).
    - A [uint32] is a [Z] in [0, 2^32); every operation that can leave the
      range is followed by [wrap32].
    - A Go [int] is 64 bits wide ([intSize]).
    - A loop that may run forever takes a [fuel : nat] and returns [None]
      when the fuel runs out before the loop's guard fails.
    - [panic] is the [Panic] constructor of [outcome]; output on the
      terminal, the requests sent and the time slept are events of a trace. *)

From Stdlib Require Import ZArith String Ascii List Bool Lia DecimalString.
From Stdlib Require Import Sorting.Permutation.
From stdpp Require Import base list gmap strings.

Import ListNotations.
Local Open Scope string_scope.
Local Open Scope list_scope.
Local Open Scope Z_scope.

(** ** The fragment of the Go standard library the program calls *)

Module Go.

Definition byteVal (c : ascii) : Z := Z.of_N (N_of_ascii c).

Definition wrap32 (x : Z) : Z := x mod 2 ^ 32.

(** [int] on the 64-bit platforms the tool is built for. *)
Definition intSize : Z := 64.
Definition maxInt : Z := 2 ^ (intSize - 1) - 1.
Definition minInt : Z := - 2 ^ (intSize - 1).

(** [uint32(n)] for an [int] n: the low 32 bits. *)
Definition uint32 (n : Z) : Z := wrap32 n.

(** [byte(v)] for a [uint32] v: the low 8 bits. *)
Definition byte (v : Z) : Z := v mod 256.

(** A value that is either returned or replaced by a [panic]. *)
Inductive outcome (A : Type) : Type :=
| Ok (a : A)
| Panic (msg : string).
Arguments Ok {A} a.
Arguments Panic {A} msg.

(** *** fmt *)

(** The verb [%d]: the decimal digits of an integer, after a minus sign
    when it is negative. *)
Definition itoa (n : Z) : string :=
  if n <? 0 then "-" +:+ NilZero.string_of_uint (N.to_uint (Z.to_N (- n)))
  else NilZero.string_of_uint (N.to_uint (Z.to_N n)).

(** *** strings *)

Definition isDigit (c : ascii) : bool := (48 <=? byteVal c) && (byteVal c <=? 57).
Definition isLower (c : ascii) : bool := (97 <=? byteVal c) && (byteVal c <=? 122).
Definition isUpper (c : ascii) : bool := (65 <=? byteVal c) && (byteVal c <=? 90).

Definition upperByte (c : ascii) : ascii :=
  if isLower c then ascii_of_N (N_of_ascii c - 32) else c.

Fixpoint isASCII (s : string) : bool :=
  match s with
  | EmptyString => true
  | String c s' => (byteVal c <? 128) && isASCII s'
  end.

Fixpoint mapBytes (f : ascii -> ascii) (s : string) : string :=
  match s with
  | EmptyString => EmptyString
  | String c s' => String (f c) (mapBytes f s')
  end.

Section ToUpper.
(** [strings.Map(unicode.ToUpper, s)], which [strings.ToUpper] falls back
    to when [s] has a byte above 0x7f. The Unicode tables are not part of
    this development: the mapping is a parameter. *)
Variable unicodeUpper : string -> string.

(** [strings.ToUpper]: an ASCII-only string has its bytes [a]-[z]
    replaced by [A]-[Z]. *)
Definition ToUpper (s : string) : string :=
  if isASCII s then mapBytes upperByte s else unicodeUpper s.
End ToUpper.

(** The mapping used to run the model on ASCII input, where it is never
    consulted. *)
Definition noUnicode (s : string) : string := s.

(** [strings.HasPrefix]. *)
Definition HasPrefix (s p : string) : bool := String.prefix p s.

(** [strings.Split(s, sep)] for a separator of one byte: the fields between
    the occurrences of [sep], one more than there are separators. *)
Fixpoint splitByte (sep : ascii) (s : string) (cur : string) : list string :=
  match s with
  | EmptyString => [String.rev cur]
  | String c s' =>
      if Ascii.eqb c sep then String.rev cur :: splitByte sep s' EmptyString
      else splitByte sep s' (String c cur)
  end.

Definition Split (s : string) (sep : ascii) : list string :=
  splitByte sep s EmptyString.

(** *** strconv *)

Fixpoint digitsVal (ds : list ascii) (acc : Z) : option Z :=
  match ds with
  | [] => Some acc
  | c :: ds' =>
      if isDigit c then digitsVal ds' (acc * 10 + (byteVal c - 48)) else None
  end.

(** [strconv.Atoi]: an optional sign and one or more decimal digits; a
    value outside [int] is an error ([None] stands for [err != nil]). *)
Definition Atoi (s : string) : option Z :=
  let cs := list_ascii_of_string s in
  let '(neg, ds) :=
    match cs with
    | c :: r =>
        if Ascii.eqb c "+" then (false, r)
        else if Ascii.eqb c "-" then (true, r)
        else (false, cs)
    | [] => (false, cs)
    end in
  match ds with
  | [] => None
  | _ =>
      match digitsVal ds 0 with
      | None => None
      | Some n =>
          let v := if neg : bool then - n else n in
          if (minInt <=? v) && (v <=? maxInt) then Some v else None
      end
  end.

(** *** net *)

(** [netip.parseIPv4]: four decimal fields of at most 255 with no leading
    zero, separated by single dots. [first] says the byte read is the first
    of the string, [prevDot] that the byte before it was a dot. *)
Fixpoint parseIPv4Loop (s : list ascii) (first prevDot : bool)
         (fields : list Z) (val digLen : Z) : option (list Z) :=
  match s with
  | [] => if (Z.of_nat (length fields) <? 3) then None else Some (fields ++ [val])
  | c :: rest =>
      if isDigit c then
        if (digLen =? 1) && (val =? 0) then None
        else
          let val' := val * 10 + (byteVal c - 48) in
          if val' >? 255 then None
          else parseIPv4Loop rest false false fields val' (digLen + 1)
      else if Ascii.eqb c "." then
        if first || (match rest with [] => true | _ => false end) || prevDot
        then None
        else if Z.of_nat (length fields) =? 3 then None
        else parseIPv4Loop rest false true (fields ++ [val]) 0 0
      else None
  end.

Definition parseIPv4 (s : list ascii) : option (list Z) :=
  parseIPv4Loop s true false [] 0 0.

Definition hexVal (c : ascii) : option Z :=
  let v := byteVal c in
  if isDigit c then Some (v - 48)
  else if (97 <=? v) && (v <=? 102) then Some (v - 97 + 10)
  else if (65 <=? v) && (v <=? 70) then Some (v - 65 + 10)
  else None.

(** The hexadecimal digits at the head of [s]: their number, their value
    and the rest of [s]; [None] at a fifth digit. *)
Fixpoint scanHex (s : list ascii) (off acc : Z) : option (Z * Z * list ascii) :=
  match s with
  | [] => Some (off, acc, [])
  | c :: rest =>
      match hexVal c with
      | Some d =>
          let acc' := wrap32 (Z.shiftl acc 4 + d) in
          if off >? 3 then None
          else if acc' >? 65535 then None
          else scanHex rest (off + 1) acc'
      | None => Some (off, acc, s)
      end
  end.

(** The loop of [netip.parseIPv6] over the colon-separated groups. [ip]
    holds the [i] bytes written so far, [ellipsis] the position of [::].
    The result is the bytes written and the position of the ellipsis, the
    whole string having been used. *)
Fixpoint parseIPv6Loop (n : nat) (s : list ascii) (ip : list Z)
         (ellipsis : option Z) : option (list Z * option Z) :=
  let i := Z.of_nat (length ip) in
  match n with
  | O => match s with [] => Some (ip, ellipsis) | _ => None end
  | S n' =>
      if negb (i <? 16) then
        match s with [] => Some (ip, ellipsis) | _ => None end
      else
        match scanHex s 0 0 with
        | None => None
        | Some (off, acc, rest) =>
            if off =? 0 then None
            else
              match rest with
              | c :: _ =>
                  if Ascii.eqb c "." then
                    if (match ellipsis with None => true | Some _ => false end)
                         && negb (i =? 12) then None
                    else if i + 4 >? 16 then None
                    else
                      match parseIPv4 s with
                      | None => None
                      | Some ip4 => Some (ip ++ ip4, ellipsis)
                      end
                  else
                    let ip' := ip ++ [byte (Z.shiftr acc 8); byte acc] in
                    if negb (Ascii.eqb c ":") then None
                    else
                      match rest with
                      | [_] => None
                      | _ :: c2 :: rest2 =>
                          if Ascii.eqb c2 ":" then
                            match ellipsis with
                            | Some _ => None
                            | None =>
                                match rest2 with
                                | [] => Some (ip', Some (i + 2))
                                | _ => parseIPv6Loop n' rest2 ip' (Some (i + 2))
                                end
                            end
                          else parseIPv6Loop n' (c2 :: rest2) ip' ellipsis
                      | [] => None
                      end
              | [] => Some (ip ++ [byte (Z.shiftr acc 8); byte acc], ellipsis)
              end
        end
  end.

Definition zeros (n : Z) : list Z := repeat 0 (Z.to_nat n).

(** [netip.parseIPv6] as [net.ParseIP] uses it: an address with a zone is
    refused. *)
Definition parseIPv6 (s : list ascii) : option (list Z) :=
  if existsb (Ascii.eqb "%") s then None
  else
    let '(s1, ellipsis) :=
      match s with
      | c1 :: c2 :: r =>
          if Ascii.eqb c1 ":" && Ascii.eqb c2 ":" then (r, Some 0) else (s, None)
      | _ => (s, None)
      end in
    match ellipsis, s1 with
    | Some _, [] => Some (zeros 16)
    | _, _ =>
        match parseIPv6Loop 9 s1 [] ellipsis with
        | None => None
        | Some (ip, ell) =>
            let i := Z.of_nat (length ip) in
            if i <? 16 then
              match ell with
              | None => None
              | Some e =>
                  Some (firstn (Z.to_nat e) ip ++ zeros (16 - i)
                          ++ skipn (Z.to_nat e) ip)
              end
            else
              match ell with
              | Some _ => None
              | None => Some ip
              end
        end
    end.

(** The first of [.], [:] and [%] in the string decides the parser
    ([netip.ParseAddr]). *)
Fixpoint addrKind (s : list ascii) : option ascii :=
  match s with
  | [] => None
  | c :: rest =>
      if Ascii.eqb c "." || Ascii.eqb c ":" || Ascii.eqb c "%" then Some c
      else addrKind rest
  end.

(** [net.ParseIP]: the 16-byte form of the address, an IPv4 address as
    [::ffff:a.b.c.d]; [None] stands for [nil]. *)
Definition ParseIP (s : string) : option (list Z) :=
  let cs := list_ascii_of_string s in
  match addrKind cs with
  | Some c =>
      if Ascii.eqb c "." then
        match parseIPv4 cs with
        | Some ip4 => Some (zeros 10 ++ [255; 255] ++ ip4)
        | None => None
        end
      else if Ascii.eqb c ":" then parseIPv6 cs
      else None
  | None => None
  end.

(** [IP.To4] on a 16-byte address: the last four bytes of an IPv4-mapped
    address. *)
Definition To4 (ip : list Z) : option (list Z) :=
  if forallb (Z.eqb 0) (firstn 10 ip)
     && (nth 10 ip 0 =? 255) && (nth 11 ip 0 =? 255)
  then Some (skipn 12 ip) else None.

(** *** bufio *)

(** [dropCR]: a line loses one trailing carriage return. [rev] is the line
    read so far, last byte first. *)
Definition dropCR (rev : string) : string :=
  match rev with
  | String c r => if Ascii.eqb c "013" then String.rev r else String.rev rev
  | EmptyString => EmptyString
  end.

(** [bufio.Scanner] with [ScanLines] over a reader that cannot fail, and a
    buffer of at most [maxTokenSize] bytes: the lines of the input in
    order, and [ErrTooLong] at the first line that fills the buffer before
    its end is seen (the lines before it have been delivered). [rev] is
    the current line so far, last byte first, [len] its length. *)
Definition ErrTooLong : string := "bufio.Scanner: token too long".

Fixpoint scanLinesFrom (maxTokenSize : Z) (s : string) (rev : string) (len : Z)
  : list string * option string :=
  match s with
  | EmptyString =>
      if len =? 0 then ([], None)
      else if maxTokenSize <=? len then ([], Some ErrTooLong)
      else ([dropCR rev], None)
  | String c s' =>
      if Ascii.eqb c "010" then
        if maxTokenSize <=? len then ([], Some ErrTooLong)
        else
          let '(ls, e) := scanLinesFrom maxTokenSize s' EmptyString 0 in
          (dropCR rev :: ls, e)
      else scanLinesFrom maxTokenSize s' (String c rev) (len + 1)
  end.

Definition scanLines (maxTokenSize : Z) (s : string) : list string * option string :=
  scanLinesFrom maxTokenSize s EmptyString 0.

(** *** sort *)

Section Sort.
Context {A : Type} (less : A -> A -> bool).

(** What [sort.Slice(x, less)] promises of the slice it leaves: the same
    elements, none placed after one it is less than. The sort is not
    stable, so elements that compare equal may come in any order. *)
Definition Sorted_by (out : list A) : Prop :=
  forall (i j : nat) (x y : A),
    (i < j)%nat -> out !! i = Some x -> out !! j = Some y -> less y x = false.

Definition sorts (l out : list A) : Prop :=
  Permutation l out /\ Sorted_by out.

(** An executable sort that keeps that promise. *)
Fixpoint insertSorted (x : A) (l : list A) : list A :=
  match l with
  | [] => [x]
  | y :: l' => if less y x then y :: insertSorted x l' else x :: l
  end.

Definition Slice (l : list A) : list A := foldr insertSorted [] l.
End Sort.

(** [sort.Strings]. *)
Definition Strings (l : list string) : list string := Slice String.ltb l.

End Go.

(** ** internal/rir *)

Module rir.
Import Go.

(** *** sources.go *)

Definition Sources : gmap string string :=
  list_to_map
    [ ("arin", "https://ftp.arin.net/pub/stats/arin/delegated-arin-extended-latest");
      ("ripe", "https://ftp.ripe.net/pub/stats/ripencc/delegated-ripencc-extended-latest");
      ("apnic", "https://ftp.apnic.net/stats/apnic/delegated-apnic-extended-latest");
      ("lacnic", "https://ftp.lacnic.net/pub/stats/lacnic/delegated-lacnic-extended-latest");
      ("afrinic", "https://ftp.afrinic.net/pub/stats/afrinic/delegated-afrinic-extended-latest") ].

(** *** parse.go *)

Record record : Type := Record_ { Prefix : string; Country : string }.

(** [range] walks the runes of [cc]; in a string of two bytes a rune in
    [A]-[Z] is a byte in [A]-[Z], and any other byte makes the test fail. *)
Definition isCountryCode (cc : string) : bool :=
  if negb (Z.of_nat (String.length cc) =? 2) then false
  else forallb isUpper (list_ascii_of_string cc).

Definition ipToUint32 (ip : list Z) : Z :=
  Z.lor (Z.lor (Z.lor (wrap32 (Z.shiftl (nth 0 ip 0) 24))
                      (wrap32 (Z.shiftl (nth 1 ip 0) 16)))
               (wrap32 (Z.shiftl (nth 2 ip 0) 8)))
        (nth 3 ip 0).

Definition uint32ToIP (v : Z) : string :=
  itoa (byte (Z.shiftr v 24)) +:+ "." +:+ itoa (byte (Z.shiftr v 16)) +:+ "."
    +:+ itoa (byte (Z.shiftr v 8)) +:+ "." +:+ itoa (byte v).

(** The inner loop [for prefix > 0 { ... }]: from [prefix] downwards, the
    first prefix length whose block is aligned at [cur] and ends at or
    before [endU]; 0 when there is none. *)
Fixpoint searchPrefix (cur endU : Z) (prefix : nat) : Z :=
  match prefix with
  | O => 0
  | S prefix' =>
      let block := wrap32 (Z.shiftl 1 (32 - Z.of_nat prefix)) in
      if negb (cur mod block =? 0) || (wrap32 (cur + block - 1) >? endU)
      then searchPrefix cur endU prefix'
      else Z.of_nat prefix
  end.

Definition cidr (cur prefix : Z) (cc : string) : record :=
  {| Prefix := uint32ToIP cur +:+ "/" +:+ itoa prefix; Country := cc |}.

(** The outer loop [for cur <= endU { ... }]. *)
Fixpoint emitLoop (fuel : nat) (cc : string) (endU cur : Z) (out : list record)
  : option (list record) :=
  match fuel with
  | O => None
  | S fuel' =>
      if cur <=? endU then
        let prefix := searchPrefix cur endU 32 in
        emitLoop fuel' cc endU
                 (wrap32 (cur + wrap32 (Z.shiftl 1 (32 - prefix))))
                 (out ++ [cidr cur prefix cc])
      else Some out
  end.

Definition ipv4RangeToCIDRs (fuel : nat) (start value cc : string)
  : option (list record) :=
  match ParseIP start with
  | None => Some []
  | Some ip =>
      match To4 ip with
      | None => Some []
      | Some ip4 =>
          match Atoi value with
          | None => Some []
          | Some count =>
              if count <=? 0 then Some []
              else
                let startU := ipToUint32 ip4 in
                let endU := wrap32 (wrap32 (startU + uint32 count) - 1) in
                emitLoop fuel cc endU startU []
          end
      end
  end.

Definition ipv6ToCIDR (start value cc : string) : option record :=
  match ParseIP start with
  | None => None
  | Some ip =>
      match To4 ip with
      | Some _ => None
      | None =>
          match Atoi value with
          | None => None
          | Some pfx =>
              if (pfx <? 0) || (pfx >? 128) then None
              else Some {| Prefix := start +:+ "/" +:+ itoa pfx; Country := cc |}
          end
      end
  end.

Definition maxTokenSize : Z := 4 * 1024 * 1024.

Section Parse.
Variable unicodeUpper : string -> string.
Variable fuel : nat.

(** One turn of the loop over the scanner's lines: the records the line
    adds to [out]. *)
Definition parseLine (line : string) : option (list record) :=
  if String.eqb line "" || HasPrefix line "#" then Some []
  else
    let parts := Split line "|" in
    if Z.of_nat (length parts) <? 7 then Some []
    else
      let cc := ToUpper unicodeUpper (nth 1 parts "") in
      let typ := nth 2 parts "" in
      let start := nth 3 parts "" in
      let value := nth 4 parts "" in
      let status := nth 6 parts "" in
      if negb (String.eqb status "allocated") && negb (String.eqb status "assigned")
      then Some []
      else if negb (isCountryCode cc) || String.eqb cc "ZZ" then Some []
      else if String.eqb typ "ipv4" then ipv4RangeToCIDRs fuel start value cc
      else if String.eqb typ "ipv6" then
        match ipv6ToCIDR start value cc with
        | Some rec => Some [rec]
        | None => Some []
        end
      else Some [].

Fixpoint parseLines (lines : list string) (out : list record)
  : option (list record) :=
  match lines with
  | [] => Some out
  | line :: lines' =>
      match parseLine line with
      | None => None
      | Some recs => parseLines lines' (out ++ recs)
      end
  end.

(** The records and [sc.Err()]. *)
Definition ParseDelegatedExtended (r : string)
  : option (list record * option string) :=
  let '(lines, err) := scanLines maxTokenSize r in
  match parseLines lines [] with
  | None => None
  | Some out => Some (out, err)
  end.
End Parse.

End rir.

(** ** cmd/build-countrydb *)

Module main.
Import Go.
Import rir.

Definition nl : string := String "010" EmptyString.

(** What one attempt to download a source meets. *)
Inductive Attempt : Type :=
| BadRequest (err : string)      (* http.NewRequest returned an error *)
| ConnectFailed (err : string)   (* client.Do returned an error *)
| ReadFailed (err : string)      (* io.ReadAll returned an error *)
| Downloaded (body : string).    (* the whole body was read *)

(** The network: what the n-th attempt on a URL meets. *)
Definition Network : Type := string -> Z -> Attempt.

Inductive Event : Type :=
| Request (url : string)         (* client.Do(req) *)
| Sleep (seconds : Z)            (* time.Sleep *)
| Print (text : string).         (* fmt.Printf *)

Definition maxRetries : Z := 5.

(** The verb [%v] on [lastErr]. *)
Definition errText (e : option string) : string :=
  match e with
  | Some msg => msg
  | None => "<nil>"
  end.

Section Build.
Variable unicodeUpper : string -> string.
Variable fuel : nat.
Variable net : Network.

(** The loop [for attempt := 1; attempt <= maxRetries; attempt++] with
    [left] turns to go, and the [panic] after it. *)
Fixpoint fetchLoop (name url : string) (left : nat) (attempt : Z)
         (lastErr : option string) (tr : list Event)
  : option (list Event * outcome (list record)) :=
  match left with
  | O =>
      Some (tr, Panic ("failed to fetch " +:+ name +:+ " after "
                         +:+ itoa maxRetries +:+ " attempts: "
                         +:+ errText lastErr))
  | S left' =>
      match net url attempt with
      | BadRequest err => Some (tr, Panic err)
      | ConnectFailed err =>
          fetchLoop name url left' (attempt + 1) (Some err)
            (tr ++ [Request url;
                    Print ("  Attempt " +:+ itoa attempt +:+ " connect failed: "
                             +:+ err +:+ nl);
                    Sleep (attempt * 10)])
      | ReadFailed err =>
          fetchLoop name url left' (attempt + 1) (Some err)
            (tr ++ [Request url;
                    Print ("  Attempt " +:+ itoa attempt +:+ " download failed: "
                             +:+ err +:+ nl);
                    Sleep (attempt * 10)])
      | Downloaded body =>
          let tr1 :=
            tr ++ [Request url;
                   Print ("  Downloaded " +:+ itoa (Z.of_nat (String.length body))
                            +:+ " bytes" +:+ nl)] in
          match ParseDelegatedExtended unicodeUpper fuel body with
          | None => None
          | Some (recs, Some err) =>
              fetchLoop name url left' (attempt + 1) (Some err)
                (tr1 ++ [Print ("  Attempt " +:+ itoa attempt +:+ " parse failed: "
                                  +:+ err +:+ nl)])
          | Some (recs, None) =>
              Some (tr1 ++ [Print ("  Got " +:+ itoa (Z.of_nat (length recs))
                                     +:+ " records" +:+ nl)],
                    Ok recs)
          end
      end
  end.

Definition fetchWithRetry (name url : string)
  : option (list Event * outcome (list record)) :=
  fetchLoop name url (Z.to_nat maxRetries) 1 None [].

(** The first loop of [build], over the sources in the order [range]
    yields them. *)
Fixpoint fetchAll (sources : list (string * string)) (all : list record)
         (src : list string) (tr : list Event)
  : option (list Event * outcome (list record * list string)) :=
  match sources with
  | [] => Some (tr, Ok (all, src))
  | (name, url) :: sources' =>
      match fetchWithRetry name url with
      | None => None
      | Some (tr', Panic msg) =>
          Some (tr ++ [Print ("Fetching " +:+ name +:+ "..." +:+ nl)] ++ tr', Panic msg)
      | Some (tr', Ok recs) =>
          fetchAll sources' (all ++ recs) (src ++ [name +:+ "-delegated"])
                   (tr ++ [Print ("Fetching " +:+ name +:+ "..." +:+ nl)] ++ tr')
      end
  end.

(** The second loop of [build]: the merge. *)
Fixpoint mergeLoop (all : list record) (seen : gmap string string)
         (out : list record) : outcome (list record) :=
  match all with
  | [] => Ok out
  | r :: all' =>
      if match seen !! Prefix r with
         | Some prev => negb (String.eqb prev (Country r))
         | None => false
         end
      then Panic ("country conflict for prefix " +:+ Prefix r)
      else
        match seen !! Prefix r with
        | None => mergeLoop all' (<[Prefix r := Country r]> seen) (out ++ [r])
        | Some _ => mergeLoop all' seen out
        end
  end.

Definition merge (all : list record) : outcome (list record) :=
  mergeLoop all ∅ [].

(** [build], with the sources in the order [range rir.Sources] yields
    them: a permutation of [map_to_list rir.Sources]. *)
Definition build (order : list (string * string))
  : option (list Event * outcome (list record * list string)) :=
  match fetchAll order [] [] [] with
  | None => None
  | Some (tr, Panic msg) => Some (tr, Panic msg)
  | Some (tr, Ok (all, src)) =>
      match merge all with
      | Panic msg => Some (tr, Panic msg)
      | Ok out => Some (tr, Ok (out, Strings src))
      end
  end.

(** The closure [func(i, j int) bool { return recs[i].Prefix < recs[j].Prefix }]. *)
Definition lessPrefix (a b : record) : bool := String.ltb (Prefix a) (Prefix b).

(** [compress/gzip] and [crypto/sha256] with [encoding/hex]: the bytes
    that [gzip.Writer] puts out for a sequence of [Write]s closed by
    [Close], and the hexadecimal digest of a sequence of bytes. *)
Variable gzip : list string -> string.
Variable sha256hex : string -> string.

Definition csvWrites (records : list record) : list string :=
  ("prefix,country" +:+ nl)
    :: map (fun r => Prefix r +:+ "," +:+ Country r +:+ nl) records.

(** [writeCSVGZ] on a file system that does not fail: the bytes of the
    file, and the size and digest it returns. *)
Definition writeCSVGZ (records : list record) : string * (Z * string) :=
  let file := gzip (csvWrites records) in
  (file, (Z.of_nat (String.length file), sha256hex file)).

Record Release : Type := {
  countrydb_csv_gz : string;
  countrydb_csv_gz_sha256 : string;
  sha : string;
  bytes : Z;
  sources : list string
}.

(** [main] up to the manifest (whose [generated_at] is the time of the
    run): what it writes under [releases/<version>/]. *)
Definition main (order : list (string * string))
  : option (list Event * outcome Release) :=
  match build order with
  | None => None
  | Some (tr, Panic msg) => Some (tr, Panic msg)
  | Some (tr, Ok (recs, srcs)) =>
      let sorted := Slice lessPrefix recs in
      let '(file, (size, digest)) := writeCSVGZ sorted in
      Some (tr, Ok {| countrydb_csv_gz := file;
                      countrydb_csv_gz_sha256 := digest +:+ "  countrydb.csv.gz" +:+ nl;
                      sha := digest;
                      bytes := size;
                      sources := srcs |})
  end.
End Build.

End main.

(** ** Vocabulary of the properties *)

Import Go.

(** *** Addresses and blocks *)

(** The value of a Go [byte]. *)
Definition isByte (b : Z) : Prop := 0 <= b < 256.

(** A CIDR block as the aggregator emits it: its first address and its
    prefix length. *)
Definition block : Type := (Z * Z)%type.

(** The number of addresses of a block. *)
Definition blockSize (b : block) : Z := 2 ^ (32 - snd b).

(** The address [a] lies in the block [b]. *)
Definition inBlock (a : Z) (b : block) : Prop := fst b <= a < fst b + blockSize b.

(** The record the aggregator makes of a block. *)
Definition recordOfBlock (cc : string) (b : block) : rir.record :=
  rir.cidr (fst b) (snd b) cc.

(** The single addresses [cur], [cur + 1], ... ([n] of them) as /32 blocks. *)
Definition hostBlocks (cur : Z) (n : nat) : list block :=
  map (fun a => (a, 32)) (seqZ cur (Z.of_nat n)).

(** *** Merging *)

(** No two records give one prefix two countries. *)
Definition conflictFree (all : list rir.record) : Prop :=
  forall r1 r2, r1 ∈ all -> r2 ∈ all ->
                rir.Prefix r1 = rir.Prefix r2 -> rir.Country r1 = rir.Country r2.

(** The records whose prefix is not in [seen] and has not occurred earlier
    in the list, in the order of the list. *)
Fixpoint firstOccurrences (seen : list string) (all : list rir.record)
  : list rir.record :=
  match all with
  | [] => []
  | r :: rest =>
      if bool_decide (rir.Prefix r ∈ seen) then firstOccurrences seen rest
      else r :: firstOccurrences (rir.Prefix r :: seen) rest
  end.

(** [strings.Contains]. *)
Fixpoint Contains (s sub : string) : bool :=
  String.prefix sub s
  || match s with
     | EmptyString => false
     | String _ s' => Contains s' sub
     end.

(** The map agrees with the records still to come. *)
Definition agrees (seen : gmap string string) (all : list rir.record) : Prop :=
  forall r c, r ∈ all -> seen !! rir.Prefix r = Some c -> c = rir.Country r.

(** *** Runs of the build *)

(** The records a source yields when its fetch ends well. *)
Definition fetched (unicodeUpper : string -> string) (fuel : nat) (net : main.Network)
           (source : string * string) : list rir.record :=
  match main.fetchWithRetry unicodeUpper fuel net (fst source) (snd source) with
  | Some (_, Ok recs) => recs
  | _ => []
  end.

(** The fetch of a source ends with records. *)
Definition fetchOk (unicodeUpper : string -> string) (fuel : nat) (net : main.Network)
           (source : string * string) : Prop :=
  exists tr recs,
    main.fetchWithRetry unicodeUpper fuel net (fst source) (snd source)
    = Some (tr, Ok recs).

(** The name of a source in the manifest. *)
Definition tagOf (source : string * string) : string := fst source +:+ "-delegated".

(** A network on which every source is downloaded at the first attempt,
    and stand-ins for the compressor and the digest, to run [main] on. *)
Definition exampleNet : main.Network :=
  fun url _ =>
    if String.eqb url "https://ftp.arin.net/pub/stats/arin/delegated-arin-extended-latest"
    then main.Downloaded "arin|US|ipv4|3.0.0.0|2|19880101|assigned|x"
    else if String.eqb url "https://ftp.apnic.net/stats/apnic/delegated-apnic-extended-latest"
    then main.Downloaded "apnic|AU|ipv4|1.0.0.0|2|20110811|allocated|y"
    else main.Downloaded "".

Definition exampleGzip (writes : list string) : string := String.concat "" writes.

Definition exampleDigest (file : string) : string := itoa (Z.of_nat (String.length file)).

(** One order in which [range] may yield the sources, and the run of
    [main] in that order. *)
Definition exampleOrder : list (string * string) := map_to_list rir.Sources.

Definition exampleRun : option (list main.Event * outcome main.Release) :=
  Eval vm_compute in
    main.main noUnicode 10 exampleNet exampleGzip exampleDigest exampleOrder.

Definition exampleTrace : list main.Event :=
  Eval vm_compute in match exampleRun with Some (tr, _) => tr | None => [] end.

Definition exampleRelease : main.Release :=
  Eval vm_compute in
    match exampleRun with
    | Some (_, Ok rel) => rel
    | _ => {| main.countrydb_csv_gz := ""; main.countrydb_csv_gz_sha256 := "";
              main.sha := ""; main.bytes := 0; main.sources := [] |}
    end.

(** *** Traces of the fetcher *)

Definition isPrint (e : main.Event) : bool :=
  match e with main.Print _ => true | _ => false end.

Definition isRequest (e : main.Event) : bool :=
  match e with main.Request _ => true | _ => false end.

(** The requests and the waits of a trace, in order. *)
Definition actions (tr : list main.Event) : list main.Event :=
  List.filter (fun e => negb (isPrint e)) tr.

(** The number of requests of a trace. *)
Definition requests (tr : list main.Event) : nat :=
  length (List.filter isRequest tr).

(** The error of an attempt that failed in transport. *)
Definition transportError (a : main.Attempt) : option string :=
  match a with
  | main.ConnectFailed err | main.ReadFailed err => Some err
  | _ => None
  end.

(** An attempt that fails, with its error and with what follows its
    request: the wait after a failure of transport, nothing after a body
    that the parser refuses. *)
Definition failedAttempt (unicodeUpper : string -> string) (fuel : nat)
           (net : main.Network) (url : string)
           (attempt : Z) (err : string) (after : list main.Event) : Prop :=
  match net url attempt with
  | main.ConnectFailed e | main.ReadFailed e =>
      err = e /\ after = [main.Sleep (attempt * 10)]
  | main.Downloaded body =>
      (exists recs,
          rir.ParseDelegatedExtended unicodeUpper fuel body = Some (recs, Some err))
      /\ after = []
  | main.BadRequest _ => False
  end.

(** A network that fails twice in transport before it answers, and one
    that refuses every connection. *)
Definition flakyNet : main.Network :=
  fun _ n =>
    if n =? 1 then main.ConnectFailed "connection reset"
    else if n =? 2 then main.ReadFailed "unexpected EOF"
    else main.Downloaded "apnic|AU|ipv4|1.0.0.0|1|20110811|allocated|y".

Definition downNet : main.Network := fun _ _ => main.ConnectFailed "connection refused".

(** *** Texts and lines *)

Fixpoint noNewline (s : string) : bool :=
  match s with
  | EmptyString => true
  | String c s' => negb (Ascii.eqb c "010") && noNewline s'
  end.

(** [s] doubled [n] times: [2^n] copies of [s]. *)
Fixpoint doubled (n : nat) (s : string) : string :=
  match n with
  | O => s
  | S n' => doubled n' (s +:+ s)
  end.

(** An attempt that does not deliver records: a failure of transport, or a
    body that the parser refuses. *)
Definition attemptFailed (unicodeUpper : string -> string) (fuel : nat)
           (a : main.Attempt) : Prop :=
  transportError a <> None
  \/ exists body recs err,
      a = main.Downloaded body
      /\ rir.ParseDelegatedExtended unicodeUpper fuel body = Some (recs, Some err).

(** The wait that follows attempt [n]: none unless it failed in transport. *)
Definition waitAfter (a : main.Attempt) (n : Z) : list main.Event :=
  match a with
  | main.ConnectFailed _ | main.ReadFailed _ => [main.Sleep (n * 10)]
  | _ => []
  end.

(** The error that a failed attempt leaves in [lastErr]. *)
Definition errorOf (unicodeUpper : string -> string) (fuel : nat)
           (a : main.Attempt) : string :=
  match a with
  | main.ConnectFailed err | main.ReadFailed err => err
  | main.Downloaded body =>
      match rir.ParseDelegatedExtended unicodeUpper fuel body with
      | Some (_, Some err) => err
      | _ => ""
      end
  | main.BadRequest err => err
  end.

(** A network whose first answer is a body of 8 MiB on one line, which the
    scanner refuses, and whose second answer is an empty body. *)
Definition tooLongOnceNet : main.Network :=
  fun _ n => if n =? 1 then main.Downloaded (doubled 23 "a") else main.Downloaded "".

(** Exactly two characters in [A]-[Z]. *)
Definition twoCapitals (cc : string) : bool :=
  match cc with
  | String a (String b EmptyString) => isUpper a && isUpper b
  | _ => false
  end.

(** The lines the parser is to leave out: fewer than 7 fields, a status
    that is neither [allocated] nor [assigned], or an uppercased country
    code that is [ZZ] or is not two characters in [A]-[Z]. *)
Definition excluded (unicodeUpper : string -> string) (line : string) : bool :=
  let parts := Split line "|" in
  let cc := ToUpper unicodeUpper (nth 1 parts "") in
  let status := nth 6 parts "" in
  (Z.of_nat (length parts) <? 7)
  || (negb (String.eqb status "allocated") && negb (String.eqb status "assigned"))
  || String.eqb cc "ZZ"
  || negb (twoCapitals cc).

(** A line as the scanner delivers it: without the carriage return that
    may end it. *)
Definition delivered (line : string) : string := dropCR (String.rev line).

(** The text made of the lines [ls], each ended by a newline, and [post]. *)
Fixpoint unlines (ls : list string) (post : string) : string :=
  match ls with
  | [] => post
  | l :: ls' => l +:+ String "010" (unlines ls' post)
  end.

(** The parser from the accumulator [out0] on. *)
Definition parseFrom (unicodeUpper : string -> string) (fuel : nat)
           (text : string) (out0 : list rir.record)
  : option (list rir.record * option string) :=
  match rir.parseLines unicodeUpper fuel (fst (scanLines rir.maxTokenSize text)) out0 with
  | None => None
  | Some out => Some (out, snd (scanLines rir.maxTokenSize text))
  end.

(** The occurrences of a byte in a string. *)
Fixpoint countByte (sep : ascii) (s : string) : nat :=
  match s with
  | EmptyString => O
  | String c s' => if Ascii.eqb c sep then S (countByte sep s') else countByte sep s'
  end.

(** *** Printed and parsed addresses *)

(** The four bytes of a 32-bit word, the most significant first: what
    [uint32ToIP] prints. *)
Definition bytesOf (v : Z) : list Z :=
  [byte (Z.shiftr v 24); byte (Z.shiftr v 16); byte (Z.shiftr v 8); byte v].

(** The digits branch of [parseIPv4Loop] on a run of digits: the value
    and the number of digits of the field, unless a digit follows a
    leading zero or the value passes 255. *)
Fixpoint eatDigits (ds : list ascii) (val digLen : Z) : option (Z * Z) :=
  match ds with
  | [] => Some (val, digLen)
  | c :: rest =>
      if isDigit c then
        if (digLen =? 1) && (val =? 0) then None
        else
          let val' := val * 10 + (byteVal c - 48) in
          if val' >? 255 then None else eatDigits rest val' (digLen + 1)
      else None
  end.

(** The digits [%d] prints for a byte. *)
Definition byteDigits (b : Z) : list ascii := list_ascii_of_string (itoa b).

(** [%d] of a byte is a run of digits that [parseIPv4Loop] reads back. *)
Definition byteDigitsOk (b : Z) : bool :=
  match byteDigits b with
  | [] => false
  | ds =>
      forallb isDigit ds
      && match eatDigits ds 0 0 with
         | Some (v, _) => v =? b
         | None => false
         end
  end.

(** [uint32(1) << (32 - prefix)], and the test of the inner loop of
    [ipv4RangeToCIDRs]: the block at [cur] is aligned and ends by [endU]. *)
Definition blockOf (prefix : Z) : Z := wrap32 (Z.shiftl 1 (32 - prefix)).

Definition alignedAndFits (cur endU prefix : Z) : bool :=
  (cur mod blockOf prefix =? 0) && (wrap32 (cur + blockOf prefix - 1) <=? endU).

(** *** Lines of a stats file *)

(** A country code the parser lets through. *)
Definition validCountry (cc : string) : Prop := twoCapitals cc = true /\ cc <> "ZZ".

(** A segment between two newlines that fits the scanner's buffer. *)
Definition shortLine (seg : string) : Prop := Z.of_nat (String.length seg) < rir.maxTokenSize.

(** The lines the parser passes over before it looks at their fields
    (blank, comment) and the lines of another type than [ipv4] and [ipv6]
    (for example [asn]). *)
Definition ignored (line : string) : bool :=
  String.eqb line ""
  || HasPrefix line "#"
  || (negb (String.eqb (nth 2 (Split line "|") "") "ipv4")
      && negb (String.eqb (nth 2 (Split line "|") "") "ipv6")).

(** The carriage return, and the lines that end with one. *)
Definition CR : string := String "013" EmptyString.

Definition endsWithCR (line : string) : bool :=
  match String.rev line with
  | String c _ => Ascii.eqb c "013"
  | EmptyString => false
  end.

(** A line of a file with Unix line ends: no newline inside, no carriage
    return at the end, and room for one in the scanner's buffer. *)
Definition lfLine (l : string) : Prop :=
  noNewline l = true /\ endsWithCR l = false
  /\ Z.of_nat (String.length l) + 1 < rir.maxTokenSize.

(** *** Waits and requests of a trace *)

(** The seconds a trace sleeps in all. *)
Definition sleptSeconds (tr : list main.Event) : Z :=
  fold_right (fun e acc => match e with main.Sleep s => s + acc | _ => acc end) 0 tr.

(** The waits of [left] attempts from [attempt] on that all fail in
    transport. *)
Fixpoint sleepBudget (left : nat) (attempt : Z) : Z :=
  match left with
  | O => 0
  | S left' => attempt * 10 + sleepBudget left' (attempt + 1)
  end.

(** The trace holds a request to the URL [u]. *)
Definition requested (tr : list main.Event) (u : string) : Prop := main.Request u ∈ tr.

(** *** Releases *)

(** The [sources] of the manifest. *)
Definition releaseSources : list string :=
  ["afrinic-delegated"; "apnic-delegated"; "arin-delegated";
   "lacnic-delegated"; "ripe-delegated"].


(** *** Proof steps *)

(** Nothing is an element of the empty list. *)
Ltac in_nil :=
  match goal with
  | H : _ ∈ [] |- _ => apply elem_of_nil in H; contradiction
  end.

(** The case of a singleton list. *)
Ltac in_singleton :=
  repeat match goal with
         | H : _ ∈ [_] |- _ => apply list_elem_of_singleton in H; subst
         end.

(** ** Properties *)

(** *** Bytes and 32-bit words *)

Lemma wrap32_range (x : Z) : 0 <= wrap32 x < 2 ^ 32.
Proof. unfold wrap32. apply Z.mod_pos_bound. lia. Qed.

Lemma wrap32_small (x : Z) : 0 <= x < 2 ^ 32 -> wrap32 x = x.
Proof. intros H. unfold wrap32. apply Z.mod_small. exact H. Qed.

Lemma byte_isByte (v : Z) : isByte (byte v).
Proof. unfold isByte, byte. apply Z.mod_pos_bound. lia. Qed.

Lemma lor_below (a b n : Z) :
  0 < n -> 0 <= a < 2 ^ n -> 0 <= b < 2 ^ n -> 0 <= Z.lor a b < 2 ^ n.
Proof.
  intros Hn Ha Hb. split.
  - apply Z.lor_nonneg. lia.
  - destruct (Z.eq_dec (Z.lor a b) 0) as [E | E].
    + rewrite E. lia.
    + assert (Hpos : 0 < Z.lor a b).
      { pose proof (proj2 (Z.lor_nonneg a b) (conj (proj1 Ha) (proj1 Hb))). lia. }
      apply Z.log2_lt_pow2; [exact Hpos |].
      rewrite Z.log2_lor by lia.
      apply Z.max_lub_lt.
      * destruct (Z.eq_dec a 0) as [-> | Na]; [simpl; lia |].
        apply Z.log2_lt_pow2; lia.
      * destruct (Z.eq_dec b 0) as [-> | Nb]; [simpl; lia |].
        apply Z.log2_lt_pow2; lia.
Qed.

Lemma isDigit_val (c : ascii) : isDigit c = true -> 0 <= byteVal c - 48 <= 9.
Proof. unfold isDigit. intros H. apply andb_true_iff in H. lia. Qed.

Lemma parseIPv4Loop_bytes (s : list ascii) :
  forall first prevDot fields val digLen ip,
    Forall isByte fields -> isByte val ->
    parseIPv4Loop s first prevDot fields val digLen = Some ip ->
    Forall isByte ip.
Proof.
  induction s as [| c rest IH]; intros first prevDot fields val digLen ip Hf Hv; simpl.
  - destruct (Z.of_nat (length fields) <? 3); [discriminate |].
    intros [= <-]. apply Forall_app; split; [exact Hf | constructor; [exact Hv | constructor]].
  - destruct (isDigit c) eqn:Hd.
    + destruct ((digLen =? 1) && (val =? 0)); [discriminate |].
      destruct (Z.gtb_spec (val * 10 + (byteVal c - 48)) 255) as [Hgt | Hle];
        [discriminate |].
      apply IH; [exact Hf |].
      pose proof (isDigit_val c Hd). unfold isByte in *. lia.
    + destruct (Ascii.eqb c "."); [| discriminate].
      destruct (first || match rest with [] => true | _ => false end || prevDot);
        [discriminate |].
      destruct (Z.of_nat (length fields) =? 3); [discriminate |].
      apply IH; [| unfold isByte; lia].
      apply Forall_app; split; [exact Hf | constructor; [exact Hv | constructor]].
Qed.

Lemma parseIPv4_bytes (s : list ascii) (ip : list Z) :
  parseIPv4 s = Some ip -> Forall isByte ip.
Proof.
  unfold parseIPv4. apply parseIPv4Loop_bytes; [constructor | unfold isByte; lia].
Qed.

Lemma zeros_bytes (n : Z) : Forall isByte (zeros n).
Proof.
  unfold zeros. induction (Z.to_nat n) as [| k IH]; simpl; constructor;
    [unfold isByte; lia | exact IH].
Qed.

Lemma parseIPv6Loop_bytes (n : nat) :
  forall s ip ellipsis ip' ell,
    Forall isByte ip ->
    parseIPv6Loop n s ip ellipsis = Some (ip', ell) ->
    Forall isByte ip'.
Proof.
  induction n as [| n IH]; intros s ip ellipsis ip' ell Hip; simpl.
  - destruct s; [intros [= <- <-]; exact Hip | discriminate].
  - destruct (negb (Z.of_nat (length ip) <? 16)).
    { destruct s; [intros [= <- <-]; exact Hip | discriminate]. }
    destruct (scanHex s 0 0) as [[[off acc] rest] |]; [| discriminate].
    destruct (off =? 0); [discriminate |].
    assert (Hip2 : Forall isByte (ip ++ [byte (Z.shiftr acc 8); byte acc])).
    { apply Forall_app; split; [exact Hip |].
      repeat constructor; apply byte_isByte. }
    destruct rest as [| c rest']; [intros [= <- <-]; exact Hip2 |].
    destruct (Ascii.eqb c ".").
    + destruct ((match ellipsis with None => true | Some _ => false end)
                  && negb (Z.of_nat (length ip) =? 12)); [discriminate |].
      destruct (Z.of_nat (length ip) + 4 >? 16); [discriminate |].
      destruct (parseIPv4 s) as [ip4 |] eqn:H4; [| discriminate].
      intros [= <- <-]. apply Forall_app; split; [exact Hip |].
      eapply parseIPv4_bytes; exact H4.
    + destruct (negb (Ascii.eqb c ":")); [discriminate |].
      destruct rest' as [| c2 rest2]; [discriminate |].
      destruct (Ascii.eqb c2 ":").
      * destruct ellipsis; [discriminate |].
        destruct rest2; [intros [= <- <-]; exact Hip2 |].
        apply IH; exact Hip2.
      * apply IH; exact Hip2.
Qed.

Lemma parseIPv6_bytes (s : list ascii) (ip : list Z) :
  parseIPv6 s = Some ip -> Forall isByte ip.
Proof.
  unfold parseIPv6.
  destruct (existsb (Ascii.eqb "%") s); [discriminate |].
  set (p := match s with
            | c1 :: c2 :: r =>
                if Ascii.eqb c1 ":" && Ascii.eqb c2 ":" then (r, Some 0) else (s, None)
            | _ => (s, None)
            end).
  destruct p as [s1 ellipsis].
  assert (Hloop :
            match parseIPv6Loop 9 s1 [] ellipsis with
            | Some (ip0, ell) =>
                (if Z.of_nat (length ip0) <? 16 then
                   match ell with
                   | Some e =>
                       Some (firstn (Z.to_nat e) ip0 ++ zeros (16 - Z.of_nat (length ip0))
                               ++ skipn (Z.to_nat e) ip0)
                   | None => None
                   end
                 else match ell with Some _ => None | None => Some ip0 end)
            | None => None
            end = Some ip -> Forall isByte ip).
  { destruct (parseIPv6Loop 9 s1 [] ellipsis) as [[ip0 ell] |] eqn:HL; [| discriminate].
    apply parseIPv6Loop_bytes in HL; [| constructor].
    destruct (Z.of_nat (length ip0) <? 16).
    - destruct ell as [e |]; [| discriminate].
      intros [= <-]. rewrite !Forall_app. repeat split.
      + apply Forall_take. exact HL.
      + apply zeros_bytes.
      + apply Forall_drop. exact HL.
    - destruct ell; [discriminate |]. intros [= <-]. exact HL. }
  destruct ellipsis as [e |]; [| exact Hloop].
  destruct s1; [| exact Hloop].
  intros [= <-]. apply zeros_bytes.
Qed.

Lemma ParseIP_bytes (s : string) (ip : list Z) :
  ParseIP s = Some ip -> Forall isByte ip.
Proof.
  unfold ParseIP.
  destruct (addrKind (list_ascii_of_string s)) as [c |]; [| discriminate].
  destruct (Ascii.eqb c ".").
  - destruct (parseIPv4 (list_ascii_of_string s)) as [ip4 |] eqn:H4; [| discriminate].
    intros [= <-]. do 12 (constructor; [unfold isByte; lia |]).
    eapply parseIPv4_bytes; exact H4.
  - destruct (Ascii.eqb c ":"); [| discriminate]. apply parseIPv6_bytes.
Qed.

Lemma To4_bytes (ip ip4 : list Z) :
  Forall isByte ip -> To4 ip = Some ip4 -> Forall isByte ip4.
Proof.
  unfold To4. intros H.
  destruct (forallb (Z.eqb 0) (firstn 10 ip) && (nth 10 ip 0 =? 255) && (nth 11 ip 0 =? 255));
    [| discriminate].
  intros [= <-]. apply Forall_drop. exact H.
Qed.

Lemma nth_isByte (ip : list Z) (i : nat) : Forall isByte ip -> isByte (nth i ip 0).
Proof.
  intros H. revert i. induction H as [| b l Hb Hl IH]; intros [| i]; simpl;
    try (unfold isByte; lia); [exact Hb | apply IH].
Qed.

Lemma ipToUint32_range (ip4 : list Z) :
  Forall isByte ip4 -> 0 <= rir.ipToUint32 ip4 < 2 ^ 32.
Proof.
  intros H. unfold rir.ipToUint32.
  pose proof (nth_isByte ip4 3 H) as H3. unfold isByte in H3.
  repeat apply lor_below; try lia; try apply wrap32_range.
Qed.

(** *** The range aggregator *)

Lemma hostBlocks_S (cur : Z) (n : nat) :
  hostBlocks cur (S n) = (cur, 32) :: hostBlocks (cur + 1) n.
Proof.
  unfold hostBlocks. rewrite Nat2Z.inj_succ, seqZ_cons by lia.
  simpl. do 3 f_equal. lia.
Qed.

(** The search for a prefix length stops at once: a /32 is aligned
    everywhere and fits wherever the outer loop's guard holds. *)
Lemma searchPrefix_32 (cur endU : Z) :
  0 <= cur < 2 ^ 32 -> cur <= endU -> rir.searchPrefix cur endU 32 = 32.
Proof.
  intros Hc Hle.
  change (rir.searchPrefix cur endU 32)
    with (if negb (cur mod 1 =? 0) || (wrap32 (cur + 1 - 1) >? endU)
          then rir.searchPrefix cur endU 31 else 32).
  rewrite Z.mod_1_r. replace (cur + 1 - 1) with cur by lia.
  rewrite wrap32_small by exact Hc.
  destruct (Z.gtb_spec cur endU); [lia | reflexivity].
Qed.

Lemma emitLoop_step (fuel : nat) (cc : string) (endU cur : Z) (out : list rir.record) :
  0 <= cur < 2 ^ 32 -> cur <= endU ->
  rir.emitLoop (S fuel) cc endU cur out
  = rir.emitLoop fuel cc endU (wrap32 (cur + 1)) (out ++ [rir.cidr cur 32 cc]).
Proof.
  intros Hc Hle. cbn [rir.emitLoop].
  destruct (Z.leb_spec cur endU); [| lia].
  rewrite searchPrefix_32 by assumption. reflexivity.
Qed.

Lemma emitLoop_done (fuel : nat) (cc : string) (endU cur : Z) (out : list rir.record) :
  endU < cur -> rir.emitLoop (S fuel) cc endU cur out = Some out.
Proof.
  intros H. cbn [rir.emitLoop]. destruct (Z.leb_spec cur endU); [lia | reflexivity].
Qed.

(** Below the last address of the space the loop ends after one turn per
    address, having emitted each address as a /32. *)
Lemma emitLoop_hosts (cc : string) (endU : Z) (n : nat) :
  forall fuel cur out,
    0 <= cur -> endU < 2 ^ 32 - 1 -> cur + Z.of_nat n = endU + 1 -> (n < fuel)%nat ->
    rir.emitLoop fuel cc endU cur out
    = Some (out ++ map (recordOfBlock cc) (hostBlocks cur n)).
Proof.
  induction n as [| n IH]; intros fuel cur out Hc He Hn Hf.
  - destruct fuel as [| fuel]; [lia |].
    rewrite emitLoop_done by lia. simpl. rewrite app_nil_r. reflexivity.
  - destruct fuel as [| fuel]; [lia |].
    rewrite emitLoop_step by lia.
    rewrite wrap32_small by lia.
    rewrite IH by lia.
    rewrite hostBlocks_S. simpl. rewrite <- app_assoc. reflexivity.
Qed.

(** When the range ends at the last address of the space the guard
    [cur <= endU] holds of every [uint32]: no amount of fuel ends the loop. *)
Lemma emitLoop_no_end (cc : string) (fuel : nat) :
  forall cur out,
    0 <= cur < 2 ^ 32 -> rir.emitLoop fuel cc (2 ^ 32 - 1) cur out = None.
Proof.
  induction fuel as [| fuel IH]; intros cur out Hc; [reflexivity |].
  rewrite emitLoop_step by lia. apply IH. apply wrap32_range.
Qed.

Lemma ipv4_parsed (fuel : nat) (start value cc : string) (ip ip4 : list Z) (count : Z) :
  ParseIP start = Some ip -> To4 ip = Some ip4 -> Atoi value = Some count -> 0 < count ->
  rir.ipv4RangeToCIDRs fuel start value cc
  = rir.emitLoop fuel cc
      (wrap32 (wrap32 (rir.ipToUint32 ip4 + uint32 count) - 1))
      (rir.ipToUint32 ip4) [].
Proof.
  intros Hp H4 Ha Hc. unfold rir.ipv4RangeToCIDRs. rewrite Hp, H4, Ha.
  destruct (Z.leb_spec count 0); [lia | reflexivity].
Qed.

Lemma startU_range (start : string) (ip ip4 : list Z) :
  ParseIP start = Some ip -> To4 ip = Some ip4 -> 0 <= rir.ipToUint32 ip4 < 2 ^ 32.
Proof.
  intros Hp H4. apply ipToUint32_range.
  eapply To4_bytes; [eapply ParseIP_bytes; exact Hp | exact H4].
Qed.

Lemma hostBlocks_elem (cur : Z) (n : nat) (b : block) :
  b ∈ hostBlocks cur n <-> snd b = 32 /\ cur <= fst b < cur + Z.of_nat n.
Proof.
  unfold hostBlocks. rewrite list_elem_of_fmap. split.
  - intros [a [-> Ha]]. apply elem_of_seqZ in Ha. simpl. lia.
  - intros [H32 Hr]. exists (fst b). split.
    + destruct b as [a p]. simpl in *. subst p. reflexivity.
    + apply elem_of_seqZ. lia.
Qed.

Lemma hostBlocks_lookup (cur : Z) (n i : nat) (b : block) :
  hostBlocks cur n !! i = Some b -> b = (cur + Z.of_nat i, 32).
Proof.
  unfold hostBlocks. rewrite list_lookup_fmap. intros H.
  destruct (seqZ cur (Z.of_nat n) !! i) as [a |] eqn:E; [| discriminate].
  apply lookup_seqZ in E. destruct E as [-> _]. simpl in H. congruence.
Qed.

(** C2 (as amended): for every IPv4 range record whose start parses as an
    IPv4 address and whose count parses to a positive integer, and whose
    range ends below 255.255.255.255 (start + count < 2^32), the aggregator
    returns, given fuel for one turn per address, blocks whose union is
    exactly [start, start + count - 1], no two of which overlap, and each
    of which starts at a multiple of its size. *)
Theorem C2_blocks_cover_range_exactly
        (start value cc : string) (ip ip4 : list Z) (count : Z) :
  ParseIP start = Some ip -> To4 ip = Some ip4 ->
  Atoi value = Some count -> 0 < count ->
  rir.ipToUint32 ip4 + count < 2 ^ 32 ->
  exists blocks : list block,
    (forall fuel, (Z.to_nat count < fuel)%nat ->
       rir.ipv4RangeToCIDRs fuel start value cc = Some (map (recordOfBlock cc) blocks))
    /\ (forall a, (exists b, b ∈ blocks /\ inBlock a b)
                  <-> rir.ipToUint32 ip4 <= a <= rir.ipToUint32 ip4 + count - 1)
    /\ (forall i j b1 b2 a,
          blocks !! i = Some b1 -> blocks !! j = Some b2 ->
          inBlock a b1 -> inBlock a b2 -> i = j)
    /\ (forall b, b ∈ blocks -> fst b mod blockSize b = 0).
Proof.
  intros Hp H4 Ha Hc Hfit.
  pose proof (startU_range start ip ip4 Hp H4) as Hs.
  set (startU := rir.ipToUint32 ip4) in *.
  exists (hostBlocks startU (Z.to_nat count)).
  split; [| split; [| split]].
  - intros fuel Hf.
    rewrite (ipv4_parsed fuel start value cc ip ip4 count Hp H4 Ha Hc).
    fold startU. unfold uint32.
    rewrite (wrap32_small count) by lia.
    rewrite (wrap32_small (startU + count)) by lia.
    rewrite (wrap32_small (startU + count - 1)) by lia.
    rewrite (emitLoop_hosts cc (startU + count - 1) (Z.to_nat count)) by lia.
    reflexivity.
  - intros a. split.
    + intros [b [Hb Hin]]. apply hostBlocks_elem in Hb. destruct Hb as [H32 Hr].
      unfold inBlock, blockSize in Hin. rewrite H32 in Hin.
      change (2 ^ (32 - 32)) with 1 in Hin. lia.
    + intros Hr. exists (a, 32). split.
      * apply hostBlocks_elem. simpl. lia.
      * unfold inBlock, blockSize. simpl. lia.
  - intros i j b1 b2 a H1 H2 I1 I2.
    apply hostBlocks_lookup in H1. apply hostBlocks_lookup in H2. subst b1 b2.
    unfold inBlock, blockSize in I1, I2. simpl in I1, I2. lia.
  - intros b Hb. apply hostBlocks_elem in Hb. destruct Hb as [H32 _].
    unfold blockSize. rewrite H32. change (2 ^ (32 - 32)) with 1. apply Z.mod_1_r.
Qed.

(** The four addresses from 1.0.0.0. *)
Lemma C2_blocks_cover_range_exactly_witness :
  exists blocks : list block,
    (forall fuel, (Z.to_nat 4 < fuel)%nat ->
       rir.ipv4RangeToCIDRs fuel "1.0.0.0" "4" "AU" = Some (map (recordOfBlock "AU") blocks))
    /\ (forall a, (exists b, b ∈ blocks /\ inBlock a b)
                  <-> rir.ipToUint32 [1; 0; 0; 0] <= a <= rir.ipToUint32 [1; 0; 0; 0] + 4 - 1)
    /\ (forall i j b1 b2 a,
          blocks !! i = Some b1 -> blocks !! j = Some b2 ->
          inBlock a b1 -> inBlock a b2 -> i = j)
    /\ (forall b, b ∈ blocks -> fst b mod blockSize b = 0).
Proof.
  apply (C2_blocks_cover_range_exactly "1.0.0.0" "4" "AU"
           [0; 0; 0; 0; 0; 0; 0; 0; 0; 0; 255; 255; 1; 0; 0; 0] [1; 0; 0; 0] 4);
    [reflexivity | reflexivity | reflexivity | lia | vm_compute; reflexivity].
Defined.

(** C2 (as stated) fails: the record with start 1.0.0.0 and count 2^32 has a
    start that parses and a positive count, yet the aggregator returns no
    block at all, so the address 1.0.0.0 of the range is missed. *)
Lemma C2_counterexample_count_beyond_space :
  ParseIP "1.0.0.0" = Some [0; 0; 0; 0; 0; 0; 0; 0; 0; 0; 255; 255; 1; 0; 0; 0]
  /\ To4 [0; 0; 0; 0; 0; 0; 0; 0; 0; 0; 255; 255; 1; 0; 0; 0] = Some [1; 0; 0; 0]
  /\ Atoi "4294967296" = Some 4294967296
  /\ rir.ipv4RangeToCIDRs 1 "1.0.0.0" "4294967296" "AU" = Some [].
Proof. repeat split; vm_compute; reflexivity. Qed.

(** C3 (the code at the failing input): on the one-address range
    255.255.255.255 the loop of the aggregator has not ended after any
    number of turns. *)
Theorem C3_loop_runs_forever_at_last_address (fuel : nat) :
  rir.ipv4RangeToCIDRs fuel "255.255.255.255" "1" "AU" = None.
Proof.
  rewrite (ipv4_parsed fuel "255.255.255.255" "1" "AU"
             [0; 0; 0; 0; 0; 0; 0; 0; 0; 0; 255; 255; 255; 255; 255; 255]
             [255; 255; 255; 255] 1) by (reflexivity || lia).
  change (wrap32 (wrap32 (rir.ipToUint32 [255; 255; 255; 255] + uint32 1) - 1))
    with (2 ^ 32 - 1).
  apply emitLoop_no_end. apply ipToUint32_range.
  repeat constructor; unfold isByte; lia.
Qed.

(** The loop of the aggregator ends for an accepted record exactly when
    the end computed for its range is not the last address of the space. *)
Lemma aggregator_ends_iff (start value cc : string) (ip ip4 : list Z) (count : Z) :
  ParseIP start = Some ip -> To4 ip = Some ip4 -> Atoi value = Some count -> 0 < count ->
  (exists fuel out, rir.ipv4RangeToCIDRs fuel start value cc = Some out)
  <-> wrap32 (wrap32 (rir.ipToUint32 ip4 + uint32 count) - 1) <> 2 ^ 32 - 1.
Proof.
  intros Hp H4 Ha Hc.
  pose proof (startU_range start ip ip4 Hp H4) as Hs.
  pose proof (wrap32_range (wrap32 (rir.ipToUint32 ip4 + uint32 count) - 1)) as He.
  set (startU := rir.ipToUint32 ip4) in *.
  set (endU := wrap32 (wrap32 (startU + uint32 count) - 1)) in *.
  split.
  - intros [fuel [out Hrun]] Hlast.
    rewrite (ipv4_parsed fuel start value cc ip ip4 count Hp H4 Ha Hc) in Hrun.
    fold startU endU in Hrun. rewrite Hlast in Hrun.
    rewrite emitLoop_no_end in Hrun by exact Hs. discriminate.
  - intros Hne.
    destruct (Z_le_gt_dec startU endU) as [Hle | Hgt].
    + exists (S (Z.to_nat (endU - startU + 1))). eexists.
      rewrite (ipv4_parsed _ start value cc ip ip4 count Hp H4 Ha Hc).
      fold startU endU.
      apply (emitLoop_hosts cc endU (Z.to_nat (endU - startU + 1))); lia.
    + exists 1%nat, [].
      rewrite (ipv4_parsed _ start value cc ip ip4 count Hp H4 Ha Hc).
      fold startU endU. apply emitLoop_done. lia.
Qed.

(** C1 (the code at the failing input): the line of the example yields 256
    records, one /32 per address, the first two being 1.0.0.0/32 and
    1.0.0.1/32, and not the single record 1.0.0.0/24. *)
Theorem C1_example_line_yields_256_hosts (unicodeUpper : string -> string) :
  exists recs,
    rir.ParseDelegatedExtended unicodeUpper 300
      "arin|AU|ipv4|1.0.0.0|256|20110811|allocated|..." = Some (recs, None)
    /\ length recs = 256%nat
    /\ recs !! 0%nat = Some {| rir.Prefix := "1.0.0.0/32"; rir.Country := "AU" |}
    /\ recs !! 1%nat = Some {| rir.Prefix := "1.0.0.1/32"; rir.Country := "AU" |}
    /\ recs = map (recordOfBlock "AU") (hostBlocks 16777216 256).
Proof.
  eexists. split; [vm_compute; reflexivity |].
  repeat split; vm_compute; reflexivity.
Qed.

(** C10: the aggregator uses the count modulo 2^32. Two positive counts
    that agree modulo 2^32 give the same result; the count 2^32 + 1 gives
    the single address of the start (when the start is not the last address
    of the space); and the count 2^32 with a start other than 0.0.0.0 puts
    the end before the start, so that nothing is emitted. *)
Theorem C10_count_is_taken_modulo_2_32
        (start cc : string) (ip ip4 : list Z) :
  ParseIP start = Some ip -> To4 ip = Some ip4 ->
  (forall fuel value value' c c',
      Atoi value = Some c -> Atoi value' = Some c' -> 0 < c -> 0 < c' ->
      c mod 2 ^ 32 = c' mod 2 ^ 32 ->
      rir.ipv4RangeToCIDRs fuel start value cc = rir.ipv4RangeToCIDRs fuel start value' cc)
  /\ (forall fuel value,
        Atoi value = Some (2 ^ 32 + 1) -> rir.ipToUint32 ip4 < 2 ^ 32 - 1 ->
        rir.ipv4RangeToCIDRs (S (S fuel)) start value cc
        = Some [rir.cidr (rir.ipToUint32 ip4) 32 cc])
  /\ (forall fuel value,
        Atoi value = Some (2 ^ 32) -> rir.ipToUint32 ip4 <> 0 ->
        wrap32 (wrap32 (rir.ipToUint32 ip4 + uint32 (2 ^ 32)) - 1) < rir.ipToUint32 ip4
        /\ rir.ipv4RangeToCIDRs (S fuel) start value cc = Some []).
Proof.
  intros Hp H4.
  pose proof (startU_range start ip ip4 Hp H4) as Hs.
  split; [| split].
  - intros fuel value value' c c' Ha Ha' Hc Hc' Hmod.
    rewrite (ipv4_parsed fuel start value cc ip ip4 c Hp H4 Ha Hc).
    rewrite (ipv4_parsed fuel start value' cc ip ip4 c' Hp H4 Ha' Hc').
    assert (Hu : uint32 c = uint32 c') by exact Hmod.
    rewrite Hu. reflexivity.
  - intros fuel value Ha Hlt.
    rewrite (ipv4_parsed _ start value cc ip ip4 (2 ^ 32 + 1) Hp H4 Ha) by lia.
    change (uint32 (2 ^ 32 + 1)) with 1.
    rewrite (wrap32_small (rir.ipToUint32 ip4 + 1)) by lia.
    replace (rir.ipToUint32 ip4 + 1 - 1) with (rir.ipToUint32 ip4) by lia.
    rewrite (wrap32_small (rir.ipToUint32 ip4)) by lia.
    rewrite (emitLoop_hosts cc (rir.ipToUint32 ip4) 1) by lia.
    reflexivity.
  - intros fuel value Ha Hne.
    change (uint32 (2 ^ 32)) with 0.
    rewrite (ipv4_parsed _ start value cc ip ip4 (2 ^ 32) Hp H4 Ha) by lia.
    change (uint32 (2 ^ 32)) with 0.
    rewrite Z.add_0_r.
    rewrite (wrap32_small (rir.ipToUint32 ip4)) by lia.
    rewrite (wrap32_small (rir.ipToUint32 ip4 - 1)) by lia.
    split; [lia |].
    apply emitLoop_done. lia.
Qed.

(** The counts 2^32 + 1 and 2^32 at the start 1.0.0.0. *)
Lemma C10_count_is_taken_modulo_2_32_witness :
  rir.ipv4RangeToCIDRs 5 "1.0.0.0" "4294967297" "AU"
  = rir.ipv4RangeToCIDRs 5 "1.0.0.0" "1" "AU"
  /\ rir.ipv4RangeToCIDRs 2 "1.0.0.0" "4294967297" "AU"
     = Some [rir.cidr (rir.ipToUint32 [1; 0; 0; 0]) 32 "AU"]
  /\ wrap32 (wrap32 (rir.ipToUint32 [1; 0; 0; 0] + uint32 (2 ^ 32)) - 1)
     < rir.ipToUint32 [1; 0; 0; 0]
  /\ rir.ipv4RangeToCIDRs 1 "1.0.0.0" "4294967296" "AU" = Some [].
Proof.
  destruct (C10_count_is_taken_modulo_2_32 "1.0.0.0" "AU"
              [0; 0; 0; 0; 0; 0; 0; 0; 0; 0; 255; 255; 1; 0; 0; 0] [1; 0; 0; 0])
    as [Hsame [Hone Hnone]]; [reflexivity | reflexivity |].
  split; [| split].
  - apply (Hsame 5%nat "4294967297" "1" (2 ^ 32 + 1) 1);
      [reflexivity | reflexivity | lia | lia | reflexivity].
  - apply (Hone 0%nat "4294967297"); [reflexivity | vm_compute; reflexivity].
  - apply (Hnone 0%nat "4294967296"); [reflexivity | vm_compute; discriminate].
Defined.

(** *** The merge step *)

Lemma record_eq (r1 r2 : rir.record) :
  rir.Prefix r1 = rir.Prefix r2 -> rir.Country r1 = rir.Country r2 -> r1 = r2.
Proof. destruct r1, r2. simpl. intros -> ->. reflexivity. Qed.

Lemma conflictFree_cons (r : rir.record) (all : list rir.record) :
  conflictFree (r :: all) -> conflictFree all.
Proof.
  intros H r1 r2 H1 H2. apply H; apply elem_of_cons; right; assumption.
Qed.

Lemma mergeLoop_seen (r : rir.record) (all : list rir.record)
      (seen : gmap string string) (out : list rir.record) (prev : string) :
  seen !! rir.Prefix r = Some prev -> prev = rir.Country r ->
  main.mergeLoop (r :: all) seen out = main.mergeLoop all seen out.
Proof.
  intros Hs ->. cbn [main.mergeLoop]. rewrite Hs.
  rewrite String.eqb_refl. reflexivity.
Qed.

Lemma mergeLoop_fresh (r : rir.record) (all : list rir.record)
      (seen : gmap string string) (out : list rir.record) :
  seen !! rir.Prefix r = None ->
  main.mergeLoop (r :: all) seen out
  = main.mergeLoop all (<[rir.Prefix r := rir.Country r]> seen) (out ++ [r]).
Proof. intros Hs. cbn [main.mergeLoop]. rewrite Hs. reflexivity. Qed.

Lemma mergeLoop_clash (r : rir.record) (all : list rir.record)
      (seen : gmap string string) (out : list rir.record) (prev : string) :
  seen !! rir.Prefix r = Some prev -> prev <> rir.Country r ->
  main.mergeLoop (r :: all) seen out
  = Panic ("country conflict for prefix " +:+ rir.Prefix r).
Proof.
  intros Hs Hne. cbn [main.mergeLoop]. rewrite Hs.
  destruct (String.eqb_spec prev (rir.Country r)); [contradiction | reflexivity].
Qed.

Lemma agrees_insert (r : rir.record) (all : list rir.record) (seen : gmap string string) :
  conflictFree (r :: all) -> agrees seen (r :: all) ->
  agrees (<[rir.Prefix r := rir.Country r]> seen) all.
Proof.
  intros Hcf Hag r' c Hin Hl.
  destruct (decide (rir.Prefix r = rir.Prefix r')) as [E | N].
  - rewrite E, lookup_insert_eq in Hl. injection Hl as <-.
    apply Hcf; [left | right; exact Hin | exact E].
  - rewrite lookup_insert_ne in Hl by exact N.
    apply (Hag r' c); [right; exact Hin | exact Hl].
Qed.

Lemma agrees_cons (r : rir.record) (all : list rir.record) (seen : gmap string string) :
  agrees seen (r :: all) -> agrees seen all.
Proof. intros H r' c Hin. apply H. right. exact Hin. Qed.

(** Without conflicts the merge keeps the first occurrence of each prefix. *)
Lemma mergeLoop_conflictFree (all : list rir.record) :
  forall (seen : gmap string string) (seenL : list string) (out : list rir.record),
    (forall p, p ∈ seenL <-> is_Some (seen !! p)) ->
    agrees seen all -> conflictFree all ->
    main.mergeLoop all seen out = Ok (out ++ firstOccurrences seenL all).
Proof.
  induction all as [| r all IH]; intros seen seenL out Hdom Hag Hcf.
  - simpl. rewrite app_nil_r. reflexivity.
  - cbn [firstOccurrences].
    destruct (seen !! rir.Prefix r) as [prev |] eqn:Hs.
    + rewrite (mergeLoop_seen r all seen out prev Hs)
        by (apply (Hag r prev); [left | exact Hs]).
      rewrite bool_decide_eq_true_2 by (apply Hdom; rewrite Hs; eauto).
      apply IH; [exact Hdom | eapply agrees_cons; exact Hag
                 | eapply conflictFree_cons; exact Hcf].
    + rewrite (mergeLoop_fresh r all seen out Hs).
      rewrite bool_decide_eq_false_2
        by (intros Hin; apply Hdom in Hin; rewrite Hs in Hin; destruct Hin; discriminate).
      rewrite (IH _ (rir.Prefix r :: seenL)).
      * rewrite <- app_assoc. reflexivity.
      * intros p. rewrite elem_of_cons, Hdom.
        destruct (decide (rir.Prefix r = p)) as [<- | N].
        -- rewrite lookup_insert_eq. split; eauto.
        -- rewrite lookup_insert_ne by exact N. split; [intros [E | H]; [congruence | exact H] | eauto].
      * apply agrees_insert; assumption.
      * eapply conflictFree_cons; exact Hcf.
Qed.

(** A merge that ends without a [panic] met no conflict. *)
Lemma mergeLoop_Ok_conflictFree (all : list rir.record) :
  forall (seen : gmap string string) (out out' : list rir.record),
    main.mergeLoop all seen out = Ok out' -> agrees seen all /\ conflictFree all.
Proof.
  induction all as [| r all IH]; intros seen out out' Hm.
  - split.
    + intros r c Hin. in_nil.
    + intros r1 r2 Hin. in_nil.
  - destruct (seen !! rir.Prefix r) as [prev |] eqn:Hs.
    + destruct (decide (prev = rir.Country r)) as [E | N].
      * rewrite (mergeLoop_seen r all seen out prev Hs E) in Hm.
        destruct (IH _ _ _ Hm) as [Hag Hcf]. split.
        -- intros r' c Hin Hl. apply elem_of_cons in Hin. destruct Hin as [-> | Hin].
           ++ congruence.
           ++ apply (Hag r' c Hin Hl).
        -- intros r1 r2 H1 H2 Hp.
           apply elem_of_cons in H1. apply elem_of_cons in H2.
           destruct H1 as [-> | H1], H2 as [-> | H2].
           ++ reflexivity.
           ++ rewrite <- E. apply (Hag r2 prev H2). rewrite <- Hp. exact Hs.
           ++ rewrite <- E. symmetry. apply (Hag r1 prev H1). rewrite Hp. exact Hs.
           ++ apply Hcf; assumption.
      * rewrite (mergeLoop_clash r all seen out prev Hs N) in Hm. discriminate.
    + rewrite (mergeLoop_fresh r all seen out Hs) in Hm.
      destruct (IH _ _ _ Hm) as [Hag Hcf]. split.
      * intros r' c Hin Hl. apply elem_of_cons in Hin. destruct Hin as [-> | Hin].
        -- congruence.
        -- apply (Hag r' c Hin).
           rewrite lookup_insert_ne; [exact Hl | intros E; congruence].
      * intros r1 r2 H1 H2 Hp.
        apply elem_of_cons in H1. apply elem_of_cons in H2.
        destruct H1 as [-> | H1], H2 as [-> | H2].
        -- reflexivity.
        -- apply (Hag r2 (rir.Country r) H2). rewrite <- Hp. apply lookup_insert_eq.
        -- symmetry. apply (Hag r1 (rir.Country r) H1). rewrite Hp. apply lookup_insert_eq.
        -- apply Hcf; assumption.
Qed.

(** A record that contradicts the map, or an earlier record, stops the
    merge with the message that names its prefix. *)
Lemma mergeLoop_conflict (all1 : list rir.record) :
  forall (seen : gmap string string) (out : list rir.record)
         (r : rir.record) (all2 : list rir.record),
    agrees seen all1 -> conflictFree all1 ->
    (exists c, seen !! rir.Prefix r = Some c /\ c <> rir.Country r)
    \/ (exists r0, r0 ∈ all1 /\ rir.Prefix r0 = rir.Prefix r
                   /\ rir.Country r0 <> rir.Country r) ->
    main.mergeLoop (all1 ++ r :: all2) seen out
    = Panic ("country conflict for prefix " +:+ rir.Prefix r).
Proof.
  induction all1 as [| r1 all1 IH]; intros seen out r all2 Hag Hcf Hbad.
  - destruct Hbad as [[c [Hs Hne]] | [r0 [Hin _]]].
    + apply (mergeLoop_clash r all2 seen out c Hs Hne).
    + in_nil.
  - rewrite <- app_comm_cons.
    destruct (seen !! rir.Prefix r1) as [prev |] eqn:Hs1.
    + assert (E : prev = rir.Country r1) by (apply (Hag r1 prev); [left | exact Hs1]).
      rewrite (mergeLoop_seen r1 _ seen out prev Hs1 E).
      apply IH; [eapply agrees_cons; exact Hag | eapply conflictFree_cons; exact Hcf |].
      destruct Hbad as [Hbad | [r0 [Hin [Hp Hc]]]]; [left; exact Hbad |].
      apply elem_of_cons in Hin. destruct Hin as [-> | Hin].
      * left. exists prev. split; [rewrite <- Hp; exact Hs1 | congruence].
      * right. exists r0. auto.
    + rewrite (mergeLoop_fresh r1 _ seen out Hs1).
      apply IH; [apply agrees_insert; assumption | eapply conflictFree_cons; exact Hcf |].
      destruct Hbad as [[c [Hs Hne]] | [r0 [Hin [Hp Hc]]]].
      * left. exists c. split; [| exact Hne].
        rewrite lookup_insert_ne; [exact Hs | intros E; congruence].
      * apply elem_of_cons in Hin. destruct Hin as [-> | Hin].
        -- left. exists (rir.Country r1). split; [| exact Hc].
           rewrite Hp. apply lookup_insert_eq.
        -- right. exists r0. auto.
Qed.

Lemma agrees_empty (all : list rir.record) : agrees ∅ all.
Proof. intros r c _ H. rewrite lookup_empty in H. discriminate. Qed.

Lemma merge_conflictFree (all : list rir.record) :
  conflictFree all -> main.merge all = Ok (firstOccurrences [] all).
Proof.
  intros Hcf. unfold main.merge.
  rewrite (mergeLoop_conflictFree all ∅ [] []); [reflexivity | | apply agrees_empty | exact Hcf].
  intros p. rewrite lookup_empty. split.
  - intros H. in_nil.
  - intros [x H]. discriminate.
Qed.

Lemma merge_Ok_conflictFree (all out : list rir.record) :
  main.merge all = Ok out -> conflictFree all.
Proof. intros H. apply mergeLoop_Ok_conflictFree in H. apply H. Qed.

(** What [firstOccurrences] keeps. *)
Lemma firstOccurrences_elem (all : list rir.record) :
  forall seen r,
    r ∈ firstOccurrences seen all -> r ∈ all /\ rir.Prefix r ∉ seen.
Proof.
  induction all as [| r0 all IH]; intros seen r; cbn [firstOccurrences].
  - intros H. in_nil.
  - destruct (bool_decide_reflect (rir.Prefix r0 ∈ seen)) as [Hin | Hnin].
    + intros H. apply IH in H. destruct H as [H1 H2]. split; [right; exact H1 | exact H2].
    + intros H. apply elem_of_cons in H. destruct H as [-> | H].
      * split; [left | exact Hnin].
      * apply IH in H. destruct H as [H1 H2]. split; [right; exact H1 |].
        intros Hs. apply H2. right. exact Hs.
Qed.

Lemma firstOccurrences_NoDup (all : list rir.record) :
  forall seen, NoDup (map rir.Prefix (firstOccurrences seen all)).
Proof.
  induction all as [| r0 all IH]; intros seen; cbn [firstOccurrences].
  - constructor.
  - destruct (bool_decide (rir.Prefix r0 ∈ seen)); [apply IH |].
    simpl. constructor; [| apply IH].
    intros Hin. apply list_elem_of_fmap in Hin. destruct Hin as [r [Hp Hr]].
    apply firstOccurrences_elem in Hr. destruct Hr as [_ Hr]. apply Hr.
    rewrite <- Hp. left.
Qed.

Lemma firstOccurrences_prefixes (all : list rir.record) :
  forall seen r,
    r ∈ all -> rir.Prefix r ∉ seen ->
    exists r', r' ∈ firstOccurrences seen all /\ rir.Prefix r' = rir.Prefix r.
Proof.
  induction all as [| r0 all IH]; intros seen r Hin Hs; cbn [firstOccurrences].
  - in_nil.
  - apply elem_of_cons in Hin.
    destruct (bool_decide_reflect (rir.Prefix r0 ∈ seen)) as [Hin0 | Hnin0].
    + destruct Hin as [-> | Hin]; [contradiction |]. apply IH; assumption.
    + destruct (decide (rir.Prefix r0 = rir.Prefix r)) as [E | N].
      * exists r0. split; [left | exact E].
      * destruct Hin as [-> | Hin]; [congruence |].
        destruct (IH (rir.Prefix r0 :: seen) r Hin) as [r' [H1 H2]].
        -- intros H. apply elem_of_cons in H. destruct H as [H | H]; [congruence | contradiction].
        -- exists r'. split; [right; exact H1 | exact H2].
Qed.

(** Each record kept is the first of the list with its prefix. *)
Lemma firstOccurrences_first (all : list rir.record) :
  forall seen r,
    r ∈ firstOccurrences seen all ->
    exists i, all !! i = Some r
              /\ forall j r', (j < i)%nat -> all !! j = Some r' ->
                              rir.Prefix r' <> rir.Prefix r.
Proof.
  induction all as [| r0 all IH]; intros seen r; cbn [firstOccurrences].
  - intros H. in_nil.
  - destruct (bool_decide_reflect (rir.Prefix r0 ∈ seen)) as [Hin | Hnin].
    + intros H. pose proof (firstOccurrences_elem _ _ _ H) as [_ Hns].
      destruct (IH _ _ H) as [i [Hi Hfirst]].
      exists (S i). split; [exact Hi |].
      intros [| j] r' Hj Hl; simpl in Hl.
      * injection Hl as <-. intros E. apply Hns. rewrite <- E. exact Hin.
      * apply (Hfirst j r'); [lia | exact Hl].
    + intros H. apply elem_of_cons in H. destruct H as [-> | H].
      * exists 0%nat. split; [reflexivity |]. intros j r' Hj. lia.
      * pose proof (firstOccurrences_elem _ _ _ H) as [_ Hns].
        destruct (IH _ _ H) as [i [Hi Hfirst]].
        exists (S i). split; [exact Hi |].
        intros [| j] r' Hj Hl; simpl in Hl.
        -- injection Hl as <-. intros E. apply Hns. rewrite <- E. left.
        -- apply (Hfirst j r'); [lia | exact Hl].
Qed.

(** C4 (as amended): when a record arrives whose prefix an earlier record
    gave another country (the records before it being free of conflicts, so
    that the merge has come this far), the merge ends in a [panic], and the
    message reports the conflicting prefix; it reports neither country. The
    [panic] ends the run: [main] writes no release. *)
Theorem C4_conflict_panics_naming_prefix
        (all1 all2 : list rir.record) (r0 r : rir.record) :
  conflictFree all1 -> r0 ∈ all1 ->
  rir.Prefix r0 = rir.Prefix r -> rir.Country r0 <> rir.Country r ->
  main.merge (all1 ++ r :: all2) = Panic ("country conflict for prefix " +:+ rir.Prefix r)
  /\ (forall unicodeUpper fuel net gzip sha256hex order tr src,
        main.fetchAll unicodeUpper fuel net order [] [] []
        = Some (tr, Ok (all1 ++ r :: all2, src)) ->
        main.main unicodeUpper fuel net gzip sha256hex order
        = Some (tr, Panic ("country conflict for prefix " +:+ rir.Prefix r))).
Proof.
  intros Hcf Hin Hp Hc.
  assert (Hm : main.merge (all1 ++ r :: all2)
               = Panic ("country conflict for prefix " +:+ rir.Prefix r)).
  { unfold main.merge.
    apply mergeLoop_conflict; [apply agrees_empty | exact Hcf |].
    right. exists r0. auto. }
  split; [exact Hm |].
  intros unicodeUpper fuel net gzip sha256hex order tr src Hf.
  unfold main.main, main.build. rewrite Hf, Hm. reflexivity.
Qed.

(** The prefix 1.0.0.0/24 given to AU and then to US. *)
Lemma C4_conflict_panics_naming_prefix_witness :
  main.merge ([ {| rir.Prefix := "1.0.0.0/24"; rir.Country := "AU" |} ]
                ++ {| rir.Prefix := "1.0.0.0/24"; rir.Country := "US" |} :: [])
  = Panic ("country conflict for prefix "
             +:+ rir.Prefix {| rir.Prefix := "1.0.0.0/24"; rir.Country := "US" |}).
Proof.
  destruct (C4_conflict_panics_naming_prefix
              [ {| rir.Prefix := "1.0.0.0/24"; rir.Country := "AU" |} ] []
              {| rir.Prefix := "1.0.0.0/24"; rir.Country := "AU" |}
              {| rir.Prefix := "1.0.0.0/24"; rir.Country := "US" |})
    as [Hmerge _].
  - intros r1 r2 H1 H2 _. in_singleton. reflexivity.
  - left.
  - reflexivity.
  - simpl. discriminate.
  - exact Hmerge.
Defined.

(** C4 (as stated) fails: for the records (1.0.0.0/24, AU) and
    (1.0.0.0/24, US) the message of the [panic] names the prefix and
    contains neither AU nor US. *)
Lemma C4_counterexample_message_without_countries :
  main.merge [ {| rir.Prefix := "1.0.0.0/24"; rir.Country := "AU" |};
               {| rir.Prefix := "1.0.0.0/24"; rir.Country := "US" |} ]
  = Panic "country conflict for prefix 1.0.0.0/24"
  /\ Contains "country conflict for prefix 1.0.0.0/24" "1.0.0.0/24" = true
  /\ Contains "country conflict for prefix 1.0.0.0/24" "AU" = false
  /\ Contains "country conflict for prefix 1.0.0.0/24" "US" = false.
Proof. repeat split; vm_compute; reflexivity. Qed.

(** C5: for records without country conflicts the merge ends without a
    [panic] and returns the first occurrence of each prefix, in order of
    arrival: every prefix of the input occurs in the output exactly once,
    with the country its first occurrence gave it, and every later record
    with that prefix is dropped. *)
Theorem C5_merge_keeps_first_occurrences (all : list rir.record) :
  conflictFree all ->
  exists out,
    main.merge all = Ok out
    /\ out = firstOccurrences [] all
    /\ NoDup (map rir.Prefix out)
    /\ (forall r, r ∈ all -> r ∈ out)
    /\ (forall r, r ∈ out ->
          exists i, all !! i = Some r
                    /\ forall j r', (j < i)%nat -> all !! j = Some r' ->
                                    rir.Prefix r' <> rir.Prefix r).
Proof.
  intros Hcf. exists (firstOccurrences [] all).
  split; [apply merge_conflictFree; exact Hcf |].
  split; [reflexivity |].
  split; [apply firstOccurrences_NoDup |].
  split.
  - intros r Hin.
    destruct (firstOccurrences_prefixes all [] r Hin) as [r' [Hr' Hp]].
    { intros H. in_nil. }
    assert (E : r' = r).
    { apply record_eq; [exact Hp |].
      apply Hcf; [| exact Hin | exact Hp].
      apply (firstOccurrences_elem all [] r' Hr'). }
    rewrite <- E. exact Hr'.
  - intros r Hr. apply (firstOccurrences_first all [] r Hr).
Qed.

(** The record (1.0.0.0/24, AU) from two sources. *)
Lemma C5_merge_keeps_first_occurrences_witness :
  exists out,
    main.merge [ {| rir.Prefix := "1.0.0.0/24"; rir.Country := "AU" |};
                 {| rir.Prefix := "1.0.0.0/24"; rir.Country := "AU" |} ] = Ok out
    /\ out = [ {| rir.Prefix := "1.0.0.0/24"; rir.Country := "AU" |} ]
    /\ length out = 1%nat.
Proof.
  destruct (C5_merge_keeps_first_occurrences
              [ {| rir.Prefix := "1.0.0.0/24"; rir.Country := "AU" |};
                {| rir.Prefix := "1.0.0.0/24"; rir.Country := "AU" |} ])
    as [out [Hm [Ho _]]].
  - intros r1 r2 H1 H2 _.
    apply elem_of_cons in H1. apply elem_of_cons in H2.
    destruct H1 as [-> | H1], H2 as [-> | H2]; try reflexivity;
      in_singleton; reflexivity.
  - exists out. split; [exact Hm |]. subst out. split; reflexivity.
Defined.

(** *** Sorting *)

Section SortFacts.
Context {A : Type} (less : A -> A -> bool).

Lemma Sorted_by_nil : Sorted_by less [].
Proof. intros i j x y _ H. rewrite lookup_nil in H. discriminate. Qed.

Lemma Sorted_by_cons (x : A) (l : list A) :
  Sorted_by less (x :: l) <-> (forall y, y ∈ l -> less y x = false) /\ Sorted_by less l.
Proof.
  split.
  - intros H. split.
    + intros y Hy. apply list_elem_of_lookup in Hy. destruct Hy as [j Hj].
      apply (H 0%nat (S j) x y); [lia | reflexivity | exact Hj].
    + intros i j a b Hij Hi Hj. apply (H (S i) (S j) a b); [lia | exact Hi | exact Hj].
  - intros [Hx Hl] i j a b Hij Hi Hj.
    destruct j as [| j]; [lia |]. simpl in Hj.
    destruct i as [| i]; simpl in Hi.
    + injection Hi as <-. apply Hx. apply list_elem_of_lookup. eauto.
    + apply (Hl i j a b); [lia | exact Hi | exact Hj].
Qed.

(** A sorted arrangement is unique when elements that the order does not
    separate are equal. *)
Lemma sorted_unique (o1 : list A) :
  forall o2,
    Permutation o1 o2 -> Sorted_by less o1 -> Sorted_by less o2 ->
    (forall x y, x ∈ o1 -> y ∈ o1 -> less x y = false -> less y x = false -> x = y) ->
    o1 = o2.
Proof.
  induction o1 as [| x o1 IH]; intros o2 Hp H1 H2 Heq.
  - apply Permutation_nil in Hp. congruence.
  - destruct o2 as [| y o2].
    { symmetry in Hp. apply Permutation_nil in Hp. discriminate. }
    apply Sorted_by_cons in H1. destruct H1 as [Hx H1].
    apply Sorted_by_cons in H2. destruct H2 as [Hy H2].
    assert (E : x = y).
    { assert (Hxin : x ∈ y :: o2) by (rewrite <- Hp; left).
      assert (Hyin : y ∈ x :: o1) by (rewrite Hp; left).
      apply elem_of_cons in Hxin. apply elem_of_cons in Hyin.
      destruct Hxin as [E | Hxin]; [exact E |].
      destruct Hyin as [E | Hyin]; [congruence |].
      apply Heq; [left | right; exact Hyin | apply Hy; exact Hxin | apply Hx; exact Hyin]. }
    subst y. f_equal. apply IH.
    + apply (Permutation_cons_inv Hp).
    + exact H1.
    + exact H2.
    + intros a b Ha Hb. apply Heq; right; assumption.
Qed.

Hypothesis less_asym : forall x y, less x y = true -> less y x = false.
Hypothesis less_negtrans :
  forall x y z, less y x = false -> less z y = false -> less z x = false.

Lemma insertSorted_perm (x : A) (l : list A) : Permutation (x :: l) (insertSorted less x l).
Proof.
  induction l as [| y l IH]; simpl; [reflexivity |].
  destruct (less y x); [| reflexivity].
  rewrite perm_swap. apply perm_skip. exact IH.
Qed.

Lemma insertSorted_sorted (x : A) (l : list A) :
  Sorted_by less l -> Sorted_by less (insertSorted less x l).
Proof.
  induction l as [| y l IH]; intros Hs; simpl.
  - apply Sorted_by_cons. split; [| apply Sorted_by_nil].
    intros z Hz. in_nil.
  - apply Sorted_by_cons in Hs. destruct Hs as [Hy Hl].
    destruct (less y x) eqn:Hyx.
    + apply Sorted_by_cons. split; [| apply IH; exact Hl].
      intros z Hz. rewrite <- insertSorted_perm in Hz.
      apply elem_of_cons in Hz. destruct Hz as [-> | Hz].
      * apply less_asym. exact Hyx.
      * apply Hy. exact Hz.
    + apply Sorted_by_cons. split.
      * intros z Hz. apply elem_of_cons in Hz. destruct Hz as [-> | Hz]; [exact Hyx |].
        apply (less_negtrans x y z); [exact Hyx | apply Hy; exact Hz].
      * apply Sorted_by_cons. split; assumption.
Qed.

Lemma Slice_sorts (l : list A) : sorts less l (Slice less l).
Proof.
  unfold sorts, Slice. induction l as [| x l [IHp IHs]]; simpl.
  - split; [reflexivity | apply Sorted_by_nil].
  - split.
    + rewrite <- insertSorted_perm. apply perm_skip. exact IHp.
    + apply insertSorted_sorted. exact IHs.
Qed.
End SortFacts.

(** The order of Go's [<] on strings: byte by byte. *)
Lemma ascii_compare_Lt_trans (a b c : ascii) :
  Ascii.compare a b = Lt -> Ascii.compare b c = Lt -> Ascii.compare a c = Lt.
Proof.
  unfold Ascii.compare. rewrite !N.compare_lt_iff. apply N.lt_trans.
Qed.

Lemma string_compare_Lt_trans (s1 : string) :
  forall s2 s3,
    String.compare s1 s2 = Lt -> String.compare s2 s3 = Lt -> String.compare s1 s3 = Lt.
Proof.
  induction s1 as [| c1 s1 IH]; intros [| c2 s2] [| c3 s3]; simpl; try congruence.
  destruct (Ascii.compare c1 c2) eqn:E12; try discriminate.
  - apply Ascii.compare_eq_iff in E12. subst c2.
    destruct (Ascii.compare c1 c3); try congruence. apply IH.
  - destruct (Ascii.compare c2 c3) eqn:E23; try discriminate.
    + apply Ascii.compare_eq_iff in E23. subst c3. rewrite E12. reflexivity.
    + rewrite (ascii_compare_Lt_trans c1 c2 c3 E12 E23). reflexivity.
Qed.

Lemma string_ltb_Lt (s1 s2 : string) : String.ltb s1 s2 = true <-> String.compare s1 s2 = Lt.
Proof. unfold String.ltb. destruct (String.compare s1 s2); split; congruence. Qed.

Lemma string_ltb_asym (s1 s2 : string) : String.ltb s1 s2 = true -> String.ltb s2 s1 = false.
Proof.
  intros H. apply string_ltb_Lt in H. unfold String.ltb.
  rewrite String.compare_antisym, H. reflexivity.
Qed.

Lemma string_ltb_total (s1 s2 : string) :
  String.ltb s1 s2 = false -> String.ltb s2 s1 = false -> s1 = s2.
Proof.
  unfold String.ltb. rewrite (String.compare_antisym s2 s1).
  destruct (String.compare s1 s2) eqn:E; simpl; intros H1 H2; try discriminate.
  apply String.compare_eq_iff. exact E.
Qed.

Lemma string_ltb_negtrans (s1 s2 s3 : string) :
  String.ltb s2 s1 = false -> String.ltb s3 s2 = false -> String.ltb s3 s1 = false.
Proof.
  intros H21 H32.
  destruct (String.ltb s3 s1) eqn:H31; [| reflexivity].
  apply string_ltb_Lt in H31.
  destruct (String.ltb s1 s2) eqn:H12.
  - apply string_ltb_Lt in H12.
    pose proof (string_compare_Lt_trans _ _ _ H31 H12) as H.
    apply string_ltb_Lt in H. congruence.
  - rewrite (string_ltb_total s1 s2 H12 H21) in H31.
    apply string_ltb_Lt in H31. congruence.
Qed.

Lemma Slice_lessPrefix_sorts (l : list rir.record) :
  sorts main.lessPrefix l (Slice main.lessPrefix l).
Proof.
  apply Slice_sorts; unfold main.lessPrefix.
  - intros x y. apply string_ltb_asym.
  - intros x y z. apply string_ltb_negtrans.
Qed.

Lemma Strings_sorts (l : list string) : sorts String.ltb l (Strings l).
Proof.
  apply Slice_sorts; [apply string_ltb_asym | apply string_ltb_negtrans].
Qed.

(** Whatever [sort.Slice] does with elements that compare equal, records
    with distinct prefixes have one sorted order. *)
Lemma sorted_records_unique (l1 l2 o1 o2 : list rir.record) :
  NoDup (map rir.Prefix l1) -> Permutation l1 l2 ->
  sorts main.lessPrefix l1 o1 -> sorts main.lessPrefix l2 o2 -> o1 = o2.
Proof.
  intros Hnd Hp [P1 S1] [P2 S2].
  apply (sorted_unique main.lessPrefix); [| exact S1 | exact S2 |].
  - rewrite <- P1, Hp. exact P2.
  - intros x y Hx Hy Hxy Hyx.
    rewrite <- P1 in Hx, Hy.
    pose proof (string_ltb_total _ _ Hxy Hyx) as E.
    apply list_elem_of_lookup in Hx. destruct Hx as [i Hi].
    apply list_elem_of_lookup in Hy. destruct Hy as [j Hj].
    assert (i = j).
    { apply (NoDup_lookup (map rir.Prefix l1) i j (rir.Prefix x)); [exact Hnd | |].
      - rewrite list_lookup_fmap. change (list_fmap _ _ rir.Prefix l1) with (map rir.Prefix l1).
        rewrite Hi. reflexivity.
      - rewrite list_lookup_fmap, Hj, E. reflexivity. }
    subst j. congruence.
Qed.

Lemma sorted_strings_unique (l1 l2 o1 o2 : list string) :
  Permutation l1 l2 -> sorts String.ltb l1 o1 -> sorts String.ltb l2 o2 -> o1 = o2.
Proof.
  intros Hp [P1 S1] [P2 S2].
  apply (sorted_unique String.ltb); [| exact S1 | exact S2 |].
  - rewrite <- P1, Hp. exact P2.
  - intros x y _ _. apply string_ltb_total.
Qed.

(** *** The build *)

Lemma firstOccurrences_same_elems (all : list rir.record) (r : rir.record) :
  conflictFree all -> (r ∈ firstOccurrences [] all <-> r ∈ all).
Proof.
  intros Hcf. split.
  - intros H. apply (firstOccurrences_elem all [] r H).
  - intros Hin.
    destruct (firstOccurrences_prefixes all [] r Hin) as [r' [Hr' Hp]].
    { intros H. in_nil. }
    assert (E : r' = r).
    { apply record_eq; [exact Hp |].
      apply Hcf; [| exact Hin | exact Hp].
      apply (firstOccurrences_elem all [] r' Hr'). }
    rewrite <- E. exact Hr'.
Qed.

Lemma conflictFree_perm (all1 all2 : list rir.record) :
  Permutation all1 all2 -> conflictFree all1 -> conflictFree all2.
Proof.
  intros Hp Hcf r1 r2 H1 H2. apply Hcf; rewrite Hp; assumption.
Qed.

(** The merged set does not depend on the order of arrival. *)
Lemma merge_perm (all1 all2 out1 : list rir.record) :
  Permutation all1 all2 -> main.merge all1 = Ok out1 ->
  exists out2, main.merge all2 = Ok out2 /\ Permutation out1 out2
               /\ NoDup (map rir.Prefix out1).
Proof.
  intros Hp Hm.
  pose proof (merge_Ok_conflictFree all1 out1 Hm) as Hcf1.
  pose proof (conflictFree_perm all1 all2 Hp Hcf1) as Hcf2.
  rewrite (merge_conflictFree all1 Hcf1) in Hm. injection Hm as <-.
  exists (firstOccurrences [] all2).
  split; [apply merge_conflictFree; exact Hcf2 |].
  split; [| apply firstOccurrences_NoDup].
  apply NoDup_Permutation.
  - apply (NoDup_fmap_1 rir.Prefix). apply firstOccurrences_NoDup.
  - apply (NoDup_fmap_1 rir.Prefix). apply firstOccurrences_NoDup.
  - intros r. rewrite !firstOccurrences_same_elems by assumption.
    rewrite Hp. reflexivity.
Qed.

Section BuildFacts.
Variable unicodeUpper : string -> string.
Variable fuel : nat.
Variable net : main.Network.

Local Abbreviation fetched := (fetched unicodeUpper fuel net).
Local Abbreviation fetchOk := (fetchOk unicodeUpper fuel net).

Lemma fetchAll_Ok (sources : list (string * string)) :
  forall all src tr tr' all' src',
    main.fetchAll unicodeUpper fuel net sources all src tr = Some (tr', Ok (all', src')) ->
    Forall fetchOk sources
    /\ all' = all ++ flat_map fetched sources
    /\ src' = src ++ map tagOf sources.
Proof.
  induction sources as [| [name url] sources IH]; intros all src tr tr' all' src'; simpl.
  - intros [= <- <- <-]. rewrite !app_nil_r. auto.
  - destruct (main.fetchWithRetry unicodeUpper fuel net name url)
      as [[tr0 [recs | msg]] |] eqn:Hf; try discriminate.
    intros H. apply IH in H. destruct H as [HF [Ha Hs]].
    split; [| split].
    + constructor; [| exact HF]. exists tr0, recs. exact Hf.
    + rewrite Ha. unfold fetched at 2. simpl. rewrite Hf. rewrite <- app_assoc. reflexivity.
    + rewrite Hs. unfold tagOf at 2. simpl. rewrite <- app_assoc. reflexivity.
Qed.

Lemma fetchAll_all_ok (sources : list (string * string)) :
  Forall fetchOk sources ->
  forall all src tr,
  exists tr',
    main.fetchAll unicodeUpper fuel net sources all src tr
    = Some (tr', Ok (all ++ flat_map fetched sources, src ++ map tagOf sources)).
Proof.
  induction 1 as [| [name url] sources [tr0 [recs Hf]] HF IH]; intros all src tr;
    cbn [main.fetchAll flat_map map].
  - exists tr. rewrite !app_nil_r. reflexivity.
  - cbn [fst snd] in Hf. rewrite Hf.
    destruct (IH (all ++ recs) (src ++ [name +:+ "-delegated"])
                 (tr ++ [main.Print ("Fetching " +:+ name +:+ "..." +:+ main.nl)] ++ tr0))
      as [tr' Htr'].
    exists tr'. rewrite Htr'. unfold fetched at 2, tagOf at 2. cbn [fst snd]. rewrite Hf.
    rewrite <- !app_assoc. reflexivity.
Qed.

(** [build] ends well for every order in which [range] may yield the
    sources when it does for one, with the same merged set and the same
    list of sources. *)
Lemma build_perm (order1 order2 : list (string * string)) tr1 out1 srcs1 :
  Permutation order1 order2 ->
  main.build unicodeUpper fuel net order1 = Some (tr1, Ok (out1, srcs1)) ->
  exists tr2 out2,
    main.build unicodeUpper fuel net order2 = Some (tr2, Ok (out2, srcs1))
    /\ Permutation out1 out2 /\ NoDup (map rir.Prefix out1).
Proof.
  intros Hp. unfold main.build.
  destruct (main.fetchAll unicodeUpper fuel net order1 [] [] [])
    as [[tr [[all src] | msg]] |] eqn:Hf; try discriminate.
  destruct (main.merge all) as [out | msg] eqn:Hm; try discriminate.
  intros [= <- <- <-].
  apply fetchAll_Ok in Hf. destruct Hf as [HF [-> ->]]. simpl in *.
  assert (HF2 : Forall fetchOk order2) by (rewrite <- Hp; exact HF).
  destruct (fetchAll_all_ok order2 HF2 [] [] []) as [tr2 Hf2].
  rewrite Hf2. simpl.
  destruct (merge_perm (flat_map fetched order1) (flat_map fetched order2) out)
    as [out2 [Hm2 [Hperm Hnd]]].
  { apply Permutation_flat_map. exact Hp. }
  { exact Hm. }
  rewrite Hm2. exists tr2, out2. split; [| split; assumption].
  do 4 f_equal.
  apply (sorted_strings_unique (map tagOf order2) (map tagOf order1));
    [| apply Strings_sorts | apply Strings_sorts].
  apply Permutation_map. symmetry. exact Hp.
Qed.
End BuildFacts.

(** C9: the records of the artifact are the merged set sorted by prefix,
    and that order is the only sorted order of the merged set, whatever the
    sort does with ties; hence a run that writes a release writes the same
    release (the same bytes of countrydb.csv.gz, the same digest, the same
    list of sources) for every order in which the sources may be iterated
    over the same network. *)
Theorem C9_release_independent_of_source_order
        (unicodeUpper : string -> string) (fuel : nat) (net : main.Network)
        (gzip : list string -> string) (sha256hex : string -> string)
        (order1 order2 : list (string * string))
        (tr1 : list main.Event) (rel : main.Release) :
  Permutation order1 order2 ->
  main.main unicodeUpper fuel net gzip sha256hex order1 = Some (tr1, Ok rel) ->
  (exists tr2,
      main.main unicodeUpper fuel net gzip sha256hex order2 = Some (tr2, Ok rel))
  /\ (exists merged sorted,
         main.build unicodeUpper fuel net order1 = Some (tr1, Ok (merged, main.sources rel))
         /\ sorts main.lessPrefix merged sorted
         /\ (forall merged' sorted',
               Permutation merged merged' -> sorts main.lessPrefix merged' sorted' ->
               sorted' = sorted)
         /\ main.countrydb_csv_gz rel = gzip (main.csvWrites sorted)
         /\ main.sha rel = sha256hex (gzip (main.csvWrites sorted))).
Proof.
  intros Hp Hrun. unfold main.main in Hrun.
  destruct (main.build unicodeUpper fuel net order1)
    as [[tr [[out1 srcs1] | msg]] |] eqn:Hb; try discriminate.
  unfold main.writeCSVGZ in Hrun. injection Hrun as <- <-.
  destruct (build_perm unicodeUpper fuel net order1 order2 tr out1 srcs1 Hp Hb)
    as [tr2 [out2 [Hb2 [Hperm Hnd]]]].
  assert (Hs : Slice main.lessPrefix out2 = Slice main.lessPrefix out1).
  { apply (sorted_records_unique out2 out1).
    - rewrite <- Hperm. exact Hnd.
    - symmetry. exact Hperm.
    - apply Slice_lessPrefix_sorts.
    - apply Slice_lessPrefix_sorts. }
  split.
  - exists tr2. unfold main.main, main.writeCSVGZ. rewrite Hb2, Hs. reflexivity.
  - exists out1, (Slice main.lessPrefix out1). simpl.
    split; [reflexivity |].
    split; [apply Slice_lessPrefix_sorts |].
    split; [| split; reflexivity].
    intros merged' sorted' Hp' Hs'.
    apply (sorted_records_unique merged' out1).
    + rewrite <- Hp'. exact Hnd.
    + symmetry. exact Hp'.
    + exact Hs'.
    + apply Slice_lessPrefix_sorts.
Qed.

(** The sources in one order and in the reverse order. *)
Lemma C9_release_independent_of_source_order_witness :
  (exists tr2,
      main.main noUnicode 10 exampleNet exampleGzip exampleDigest (rev exampleOrder)
      = Some (tr2, Ok exampleRelease))
  /\ (exists merged sorted,
         main.build noUnicode 10 exampleNet exampleOrder
         = Some (exampleTrace, Ok (merged, main.sources exampleRelease))
         /\ sorts main.lessPrefix merged sorted
         /\ (forall merged' sorted',
               Permutation merged merged' -> sorts main.lessPrefix merged' sorted' ->
               sorted' = sorted)
         /\ main.countrydb_csv_gz exampleRelease = exampleGzip (main.csvWrites sorted)
         /\ main.sha exampleRelease = exampleDigest (exampleGzip (main.csvWrites sorted))).
Proof.
  apply (C9_release_independent_of_source_order
           noUnicode 10 exampleNet exampleGzip exampleDigest
           exampleOrder (rev exampleOrder) exampleTrace exampleRelease).
  - apply Permutation_rev.
  - vm_compute. reflexivity.
Defined.

(** *** The fetcher *)

Lemma actions_app (tr1 tr2 : list main.Event) :
  actions (tr1 ++ tr2) = actions tr1 ++ actions tr2.
Proof. apply List.filter_app. Qed.

Lemma requests_app (tr1 tr2 : list main.Event) :
  requests (tr1 ++ tr2) = (requests tr1 + requests tr2)%nat.
Proof. unfold requests. rewrite List.filter_app, length_app. reflexivity. Qed.

Section FetchFacts.
Variable unicodeUpper : string -> string.
Variable fuel : nat.
Variable net : main.Network.
Variables name url : string.

Local Abbreviation Parse := (rir.ParseDelegatedExtended unicodeUpper fuel).
Local Abbreviation fetchLoop := (main.fetchLoop unicodeUpper fuel net name url).
Local Abbreviation failed := (failedAttempt unicodeUpper fuel net url).

Lemma fetchLoop_failed (left : nat) (attempt : Z) (lastErr : option string)
      (tr : list main.Event) (err : string) (after : list main.Event) :
  failed attempt err after ->
  exists tr',
    fetchLoop (S left) attempt lastErr tr = fetchLoop left (attempt + 1) (Some err) tr'
    /\ actions tr' = actions tr ++ main.Request url :: after.
Proof.
  unfold failedAttempt. cbn [main.fetchLoop].
  destruct (net url attempt) as [e | e | e | body].
  - contradiction.
  - intros [-> ->]. eexists. split; [reflexivity |].
    rewrite actions_app. reflexivity.
  - intros [-> ->]. eexists. split; [reflexivity |].
    rewrite actions_app. reflexivity.
  - intros [[recs Hp] ->]. rewrite Hp.
    eexists. split; [reflexivity |].
    rewrite !actions_app. cbn. rewrite app_nil_r. reflexivity.
Qed.

Lemma fetchLoop_succeeds (left : nat) (attempt : Z) (lastErr : option string)
      (tr : list main.Event) (body : string) (recs : list rir.record) :
  net url attempt = main.Downloaded body -> Parse body = Some (recs, None) ->
  exists tr',
    fetchLoop (S left) attempt lastErr tr = Some (tr', Ok recs)
    /\ actions tr' = actions tr ++ [main.Request url].
Proof.
  intros Hn Hp. cbn [main.fetchLoop]. rewrite Hn, Hp.
  eexists. split; [reflexivity |].
  rewrite !actions_app. cbn. rewrite app_nil_r. reflexivity.
Qed.

(** A run of [k] failed attempts. *)
Lemma fetchLoop_failures (errAt : Z -> string) (afterAt : Z -> list main.Event) (k : nat) :
  forall left attempt lastErr tr,
    (forall n, attempt <= n < attempt + Z.of_nat k ->
               failed n (errAt n) (afterAt n)) ->
    exists tr',
      fetchLoop (k + left) attempt lastErr tr
      = fetchLoop left (attempt + Z.of_nat k)
          (match k with
           | O => lastErr
           | S _ => Some (errAt (attempt + Z.of_nat k - 1))
           end) tr'
      /\ actions tr'
         = actions tr
             ++ flat_map (fun n => main.Request url :: afterAt n)
                         (seqZ attempt (Z.of_nat k)).
Proof.
  induction k as [| k IH]; intros left attempt lastErr tr Hfail.
  - exists tr. rewrite Z.add_0_r. simpl. rewrite app_nil_r.
    split; reflexivity.
  - destruct (fetchLoop_failed (k + left) attempt lastErr tr
                (errAt attempt) (afterAt attempt)) as [tr1 [Hstep Hact1]].
    { apply Hfail. lia. }
    destruct (IH left (attempt + 1) (Some (errAt attempt)) tr1) as [tr' [Hrun Hact]].
    { intros n Hn. apply Hfail. lia. }
    exists tr'. split.
    + change (S k + left)%nat with (S (k + left)). rewrite Hstep, Hrun.
      replace (attempt + 1 + Z.of_nat k) with (attempt + Z.of_nat (S k)) by lia.
      destruct k as [| k'].
      * replace (attempt + Z.of_nat 1 - 1) with attempt by lia. reflexivity.
      * replace (attempt + 1 + Z.of_nat (S k') - 1)
          with (attempt + Z.of_nat (S (S k')) - 1) by lia.
        reflexivity.
    + rewrite Hact, Hact1. rewrite (seqZ_cons attempt) by lia.
      cbn [flat_map]. rewrite <- app_assoc. cbn [app].
      replace (Z.pred (Z.of_nat (S k))) with (Z.of_nat k) by lia.
      reflexivity.
Qed.

(** No run sends more requests than it has turns. *)
Lemma fetchLoop_requests (left : nat) :
  forall attempt lastErr tr tr' res,
    fetchLoop left attempt lastErr tr = Some (tr', res) ->
    (requests tr' <= requests tr + left)%nat.
Proof.
  induction left as [| left IH]; intros attempt lastErr tr tr' res; cbn [main.fetchLoop].
  - intros [= <- _]. lia.
  - destruct (net url attempt) as [e | e | e | body].
    + intros [= <- _]. lia.
    + intros H. apply IH in H. rewrite requests_app in H. cbn in H. lia.
    + intros H. apply IH in H. rewrite requests_app in H. cbn in H. lia.
    + destruct (rir.ParseDelegatedExtended unicodeUpper fuel body)
        as [[recs [err |]] |]; [| | discriminate].
      * intros H. apply IH in H. rewrite !requests_app in H. cbn in H. lia.
      * intros [= <- _]. rewrite !requests_app. cbn. lia.
Qed.
End FetchFacts.

(** C7: a fetch sends at most 5 requests; when the first [k < 5] attempts
    fail in transport (connection or body read) and the next downloads a
    body that parses, the fetch returns the records of that body, having
    waited [n * 10] seconds after the failure of attempt [n] and before the
    next request; when all 5 attempts fail in transport it ends in a
    [panic] whose message names the source and the 5 attempts. *)
Theorem C7_fetch_retries_with_linear_backoff
        (unicodeUpper : string -> string) (fuel : nat) (net : main.Network)
        (name url : string) :
  (forall tr res,
      main.fetchWithRetry unicodeUpper fuel net name url = Some (tr, res) ->
      (requests tr <= 5)%nat)
  /\ (forall (k : nat) body recs,
        (k < 5)%nat ->
        (forall n, 1 <= n <= Z.of_nat k -> transportError (net url n) <> None) ->
        net url (Z.of_nat k + 1) = main.Downloaded body ->
        rir.ParseDelegatedExtended unicodeUpper fuel body = Some (recs, None) ->
        exists tr,
          main.fetchWithRetry unicodeUpper fuel net name url = Some (tr, Ok recs)
          /\ actions tr
             = flat_map (fun n => [main.Request url; main.Sleep (n * 10)])
                        (seqZ 1 (Z.of_nat k))
                 ++ [main.Request url])
  /\ ((forall n, 1 <= n <= 5 -> transportError (net url n) <> None) ->
      exists tr err,
        transportError (net url 5) = Some err
        /\ main.fetchWithRetry unicodeUpper fuel net name url
           = Some (tr, Panic ("failed to fetch " +:+ name +:+ " after 5 attempts: " +:+ err))
        /\ actions tr
           = flat_map (fun n => [main.Request url; main.Sleep (n * 10)]) (seqZ 1 5)).
Proof.
  set (errAt := fun n => match transportError (net url n) with Some e => e | None => "" end).
  set (afterAt := fun n => [main.Sleep (n * 10)]).
  assert (Hfailed : forall n, transportError (net url n) <> None ->
                              failedAttempt unicodeUpper fuel net url n (errAt n) (afterAt n)).
  { intros n Hn. unfold failedAttempt, errAt, afterAt.
    destruct (net url n); simpl in *; auto; congruence. }
  split; [| split].
  - intros tr res H. unfold main.fetchWithRetry in H.
    apply fetchLoop_requests in H. exact H.
  - intros k body recs Hk Hfail Hdl Hparse.
    destruct (fetchLoop_failures unicodeUpper fuel net name url errAt afterAt k
                (5 - k) 1 None []) as [tr1 [Hrun Hact1]].
    { intros n Hn. apply Hfailed. apply Hfail. lia. }
    destruct (fetchLoop_succeeds unicodeUpper fuel net name url (4 - k)
                (1 + Z.of_nat k)
                (match k with O => None | S _ => Some (errAt (1 + Z.of_nat k - 1)) end)
                tr1 body recs) as [tr [Hend Hact]].
    { rewrite Z.add_comm. exact Hdl. }
    { exact Hparse. }
    exists tr. split.
    + unfold main.fetchWithRetry.
      replace (Z.to_nat main.maxRetries) with (k + (5 - k))%nat by (unfold main.maxRetries; lia).
      rewrite Hrun. replace (5 - k)%nat with (S (4 - k)) by lia. exact Hend.
    + rewrite Hact, Hact1. reflexivity.
  - intros Hfail.
    destruct (fetchLoop_failures unicodeUpper fuel net name url errAt afterAt 5
                0 1 None []) as [tr1 [Hrun Hact1]].
    { intros n Hn. apply Hfailed. apply Hfail. lia. }
    exists tr1, (errAt 5). split; [| split].
    + unfold errAt. specialize (Hfail 5 ltac:(lia)).
      destruct (transportError (net url 5)); [reflexivity | contradiction].
    + unfold main.fetchWithRetry.
      change (Z.to_nat main.maxRetries) with (5 + 0)%nat.
      rewrite Hrun. reflexivity.
    + rewrite Hact1. reflexivity.
Qed.

(** Two failures of transport before a body that parses, and five
    failures of transport. *)
Lemma C7_fetch_retries_with_linear_backoff_witness :
  (exists tr,
      main.fetchWithRetry noUnicode 10 flakyNet "apnic" "https://ftp.apnic.net/"
      = Some (tr, Ok [ {| rir.Prefix := "1.0.0.0/32"; rir.Country := "AU" |} ])
      /\ actions tr
         = flat_map (fun n => [main.Request "https://ftp.apnic.net/"; main.Sleep (n * 10)])
                    (seqZ 1 (Z.of_nat 2))
             ++ [main.Request "https://ftp.apnic.net/"])
  /\ (exists tr err,
         transportError (downNet "https://ftp.apnic.net/" 5) = Some err
         /\ main.fetchWithRetry noUnicode 10 downNet "apnic" "https://ftp.apnic.net/"
            = Some (tr, Panic ("failed to fetch " +:+ "apnic" +:+ " after 5 attempts: " +:+ err))
         /\ actions tr
            = flat_map (fun n => [main.Request "https://ftp.apnic.net/"; main.Sleep (n * 10)])
                       (seqZ 1 5)).
Proof.
  split.
  - apply (proj1 (proj2 (C7_fetch_retries_with_linear_backoff
                           noUnicode 10 flakyNet "apnic" "https://ftp.apnic.net/"))
             2%nat "apnic|AU|ipv4|1.0.0.0|1|20110811|allocated|y").
    + lia.
    + intros n Hn. assert (n = 1 \/ n = 2) as [-> | ->] by lia; simpl; discriminate.
    + reflexivity.
    + vm_compute. reflexivity.
  - apply (proj2 (proj2 (C7_fetch_retries_with_linear_backoff
                           noUnicode 10 downNet "apnic" "https://ftp.apnic.net/"))).
    intros n _. simpl. discriminate.
Defined.

(** *** Lines too long for the scanner *)

Lemma append_nil_l (s : string) : "" +:+ s = s.
Proof. reflexivity. Qed.

Lemma append_cons (c : ascii) (s1 s2 : string) :
  String c s1 +:+ s2 = String c (s1 +:+ s2).
Proof. reflexivity. Qed.

Lemma string_length_app (s1 s2 : string) :
  String.length (s1 +:+ s2) = (String.length s1 + String.length s2)%nat.
Proof. induction s1 as [| c s1 IH]; simpl; [reflexivity | rewrite IH; reflexivity]. Qed.

Lemma noNewline_app (s1 s2 : string) :
  noNewline s1 = true -> noNewline s2 = true -> noNewline (s1 +:+ s2) = true.
Proof.
  induction s1 as [| c s1 IH]; simpl; [auto |].
  intros H1 H2. apply andb_true_iff in H1. destruct H1 as [Hc H1].
  rewrite Hc. simpl. apply IH; assumption.
Qed.

Lemma doubled_length (n : nat) :
  forall s, Z.of_nat (String.length (doubled n s)) = 2 ^ Z.of_nat n * Z.of_nat (String.length s).
Proof.
  induction n as [| n IH]; intros s.
  - simpl. lia.
  - cbn [doubled]. rewrite IH, string_length_app, Nat2Z.inj_succ, Z.pow_succ_r by lia. lia.
Qed.

Lemma doubled_noNewline (n : nat) :
  forall s, noNewline s = true -> noNewline (doubled n s) = true.
Proof.
  induction n as [| n IH]; intros s Hs; cbn [doubled]; [exact Hs |].
  apply IH. apply noNewline_app; exact Hs.
Qed.

(** A text without a newline that fills the scanner's buffer is refused. *)
Lemma scanLinesFrom_too_long (maxTokenSize : Z) (s : string) :
  forall rev len,
    0 < maxTokenSize -> noNewline s = true ->
    maxTokenSize <= len + Z.of_nat (String.length s) ->
    scanLinesFrom maxTokenSize s rev len = ([], Some ErrTooLong).
Proof.
  induction s as [| c s IH]; intros rev len HM Hnl Hlen; cbn [scanLinesFrom].
  - simpl in Hlen.
    destruct (Z.eqb_spec len 0); [lia |].
    destruct (Z.leb_spec maxTokenSize len); [reflexivity | lia].
  - simpl in Hnl. apply andb_true_iff in Hnl. destruct Hnl as [Hc Hnl].
    apply negb_true_iff in Hc. rewrite Hc.
    apply IH; [exact HM | exact Hnl |].
    cbn [String.length] in Hlen. lia.
Qed.

(** A body of 8 MiB on one line: the parser returns the scanner's error. *)
Lemma parse_too_long (unicodeUpper : string -> string) (fuel : nat) :
  rir.ParseDelegatedExtended unicodeUpper fuel (doubled 23 "a")
  = Some ([], Some ErrTooLong).
Proof.
  unfold rir.ParseDelegatedExtended, scanLines.
  rewrite scanLinesFrom_too_long; [reflexivity | reflexivity | |].
  - apply doubled_noNewline. reflexivity.
  - rewrite doubled_length. vm_compute. discriminate.
Qed.

Lemma attemptFailed_failedAttempt (unicodeUpper : string -> string) (fuel : nat)
      (net : main.Network) (url : string) (n : Z) :
  attemptFailed unicodeUpper fuel (net url n) ->
  failedAttempt unicodeUpper fuel net url n
                (errorOf unicodeUpper fuel (net url n)) (waitAfter (net url n) n).
Proof.
  unfold attemptFailed, failedAttempt, errorOf, waitAfter.
  intros [Ht | [body [recs [err [Ha Hp]]]]].
  - destruct (net url n); simpl in Ht; auto; congruence.
  - rewrite Ha, Hp. split; [exists recs; reflexivity | reflexivity].
Qed.

(** The attempts that fail before one succeeds. *)
Lemma fetch_after_failures (unicodeUpper : string -> string) (fuel : nat)
      (net : main.Network) (name url : string) (k : nat)
      (body : string) (recs : list rir.record) :
  (k < 5)%nat ->
  (forall n, 1 <= n <= Z.of_nat k -> attemptFailed unicodeUpper fuel (net url n)) ->
  net url (Z.of_nat k + 1) = main.Downloaded body ->
  rir.ParseDelegatedExtended unicodeUpper fuel body = Some (recs, None) ->
  exists tr,
    main.fetchWithRetry unicodeUpper fuel net name url = Some (tr, Ok recs)
    /\ actions tr
       = flat_map (fun n => main.Request url :: waitAfter (net url n) n)
                  (seqZ 1 (Z.of_nat k))
           ++ [main.Request url].
Proof.
  intros Hk Hfail Hdl Hparse.
  destruct (fetchLoop_failures unicodeUpper fuel net name url
              (fun n => errorOf unicodeUpper fuel (net url n))
              (fun n => waitAfter (net url n) n) k (5 - k) 1 None [])
    as [tr1 [Hrun Hact1]].
  { intros n Hn. apply attemptFailed_failedAttempt. apply Hfail. lia. }
  destruct (fetchLoop_succeeds unicodeUpper fuel net name url (4 - k)
              (1 + Z.of_nat k)
              (match k with
               | O => None
               | S _ => Some (errorOf unicodeUpper fuel (net url (1 + Z.of_nat k - 1)))
               end)
              tr1 body recs) as [tr [Hend Hact]].
  { rewrite Z.add_comm. exact Hdl. }
  { exact Hparse. }
  exists tr. split.
  - unfold main.fetchWithRetry.
    replace (Z.to_nat main.maxRetries) with (k + (5 - k))%nat by (unfold main.maxRetries; lia).
    rewrite Hrun. replace (5 - k)%nat with (S (4 - k)) by lia. exact Hend.
  - rewrite Hact, Hact1. reflexivity.
Qed.

Lemma fetch_all_failed (unicodeUpper : string -> string) (fuel : nat)
      (net : main.Network) (name url : string) :
  (forall n, 1 <= n <= 5 -> attemptFailed unicodeUpper fuel (net url n)) ->
  exists tr,
    main.fetchWithRetry unicodeUpper fuel net name url
    = Some (tr, Panic ("failed to fetch " +:+ name +:+ " after 5 attempts: "
                         +:+ errorOf unicodeUpper fuel (net url 5)))
    /\ actions tr
       = flat_map (fun n => main.Request url :: waitAfter (net url n) n) (seqZ 1 5).
Proof.
  intros Hfail.
  destruct (fetchLoop_failures unicodeUpper fuel net name url
              (fun n => errorOf unicodeUpper fuel (net url n))
              (fun n => waitAfter (net url n) n) 5 0 1 None [])
    as [tr1 [Hrun Hact1]].
  { intros n Hn. apply attemptFailed_failedAttempt. apply Hfail. lia. }
  exists tr1. split.
  - unfold main.fetchWithRetry.
    change (Z.to_nat main.maxRetries) with (5 + 0)%nat.
    rewrite Hrun. reflexivity.
  - rewrite Hact1. reflexivity.
Qed.

(** C6 (as amended): an attempt that fails, in transport or because the
    parser refuses the downloaded body, is followed by another download
    attempt as long as fewer than 5 attempts have been made; the wait of
    [n * 10] seconds is made after a failure of transport only, and a parse
    failure is followed by the next request at once. The fetch is given up,
    with a [panic] that names the source, when all 5 attempts have failed. *)
Theorem C6_parse_failure_retried_without_wait
        (unicodeUpper : string -> string) (fuel : nat) (net : main.Network)
        (name url : string) :
  (forall (k : nat) body recs,
      (k < 5)%nat ->
      (forall n, 1 <= n <= Z.of_nat k -> attemptFailed unicodeUpper fuel (net url n)) ->
      net url (Z.of_nat k + 1) = main.Downloaded body ->
      rir.ParseDelegatedExtended unicodeUpper fuel body = Some (recs, None) ->
      exists tr,
        main.fetchWithRetry unicodeUpper fuel net name url = Some (tr, Ok recs)
        /\ actions tr
           = flat_map (fun n => main.Request url :: waitAfter (net url n) n)
                      (seqZ 1 (Z.of_nat k))
               ++ [main.Request url])
  /\ ((forall n, 1 <= n <= 5 -> attemptFailed unicodeUpper fuel (net url n)) ->
      exists tr,
        main.fetchWithRetry unicodeUpper fuel net name url
        = Some (tr, Panic ("failed to fetch " +:+ name +:+ " after 5 attempts: "
                             +:+ errorOf unicodeUpper fuel (net url 5)))
        /\ actions tr
           = flat_map (fun n => main.Request url :: waitAfter (net url n) n) (seqZ 1 5))
  /\ (forall body n, waitAfter (main.Downloaded body) n = []).
Proof.
  split; [| split].
  - intros k body recs. apply fetch_after_failures.
  - apply fetch_all_failed.
  - reflexivity.
Qed.

Lemma tooLongOnce_first_fails (unicodeUpper : string -> string) (fuel : nat) (url : string) :
  forall n, 1 <= n <= Z.of_nat 1 ->
            attemptFailed unicodeUpper fuel (tooLongOnceNet url n).
Proof.
  intros n Hn. assert (n = 1) as -> by lia.
  right. exists (doubled 23 "a"), [], ErrTooLong.
  split; [reflexivity | apply parse_too_long].
Qed.

(** A body that the parser refuses, then one it accepts. *)
Lemma C6_parse_failure_retried_without_wait_witness :
  exists tr,
    main.fetchWithRetry noUnicode 0 tooLongOnceNet "arin" "https://ftp.arin.net/"
    = Some (tr, Ok [])
    /\ actions tr
       = flat_map (fun n => main.Request "https://ftp.arin.net/"
                              :: waitAfter (tooLongOnceNet "https://ftp.arin.net/" n) n)
                  (seqZ 1 (Z.of_nat 1))
           ++ [main.Request "https://ftp.arin.net/"].
Proof.
  apply (proj1 (C6_parse_failure_retried_without_wait
                  noUnicode 0 tooLongOnceNet "arin" "https://ftp.arin.net/")
           1%nat "" []).
  - lia.
  - apply tooLongOnce_first_fails.
  - reflexivity.
  - reflexivity.
Defined.

(** C6 (as stated) fails: the parser refuses the body of the first attempt,
    and the fetcher sends a second request, whose body it accepts. *)
Lemma C6_counterexample_second_download_after_parse_failure :
  rir.ParseDelegatedExtended noUnicode 0 (doubled 23 "a") = Some ([], Some ErrTooLong)
  /\ tooLongOnceNet "https://ftp.arin.net/" 1 = main.Downloaded (doubled 23 "a")
  /\ exists tr,
      main.fetchWithRetry noUnicode 0 tooLongOnceNet "arin" "https://ftp.arin.net/"
      = Some (tr, Ok [])
      /\ actions tr = [main.Request "https://ftp.arin.net/";
                       main.Request "https://ftp.arin.net/"].
Proof.
  split; [apply parse_too_long | split; [reflexivity |]].
  destruct (fetch_after_failures noUnicode 0 tooLongOnceNet "arin" "https://ftp.arin.net/"
              1 "" []) as [tr [Hrun Hact]].
  - lia.
  - apply tooLongOnce_first_fails.
  - reflexivity.
  - reflexivity.
  - exists tr. split; [exact Hrun |]. rewrite Hact. reflexivity.
Qed.

(** *** The stats parser *)

Lemma twoCapitals_isCountryCode (cc : string) : twoCapitals cc = rir.isCountryCode cc.
Proof.
  unfold rir.isCountryCode.
  destruct cc as [| a [| b [| c cc]]]; try reflexivity.
  - simpl. rewrite andb_true_r. reflexivity.
  - cbn [twoCapitals String.length].
    destruct (Z.eqb_spec (Z.of_nat (S (S (S (String.length cc))))) 2); [lia | reflexivity].
Qed.

Lemma parseLine_excluded (unicodeUpper : string -> string) (fuel : nat) (line : string) :
  excluded unicodeUpper line = true -> rir.parseLine unicodeUpper fuel line = Some [].
Proof.
  unfold excluded, rir.parseLine. rewrite twoCapitals_isCountryCode.
  destruct (String.eqb line "" || HasPrefix line "#"); [reflexivity |].
  destruct (Z.of_nat (length (Split line "|")) <? 7); [reflexivity |].
  destruct (negb (String.eqb (nth 6 (Split line "|") "") "allocated")
            && negb (String.eqb (nth 6 (Split line "|") "") "assigned")); [reflexivity |].
  simpl.
  destruct (rir.isCountryCode (ToUpper unicodeUpper (nth 1 (Split line "|") ""))); simpl.
  - rewrite orb_false_r. intros ->. reflexivity.
  - reflexivity.
Qed.

Lemma parseLines_filter (unicodeUpper : string -> string) (fuel : nat) (lines : list string) :
  forall out,
    rir.parseLines unicodeUpper fuel lines out
    = rir.parseLines unicodeUpper fuel
        (List.filter (fun l => negb (excluded unicodeUpper l)) lines) out.
Proof.
  induction lines as [| line lines IH]; intros out; [reflexivity |].
  cbn [List.filter].
  destruct (excluded unicodeUpper line) eqn:E; cbn [negb rir.parseLines].
  - rewrite (parseLine_excluded unicodeUpper fuel line E), app_nil_r. apply IH.
  - destruct (rir.parseLine unicodeUpper fuel line); [apply IH | reflexivity].
Qed.

Lemma ParseDelegatedExtended_parseFrom (unicodeUpper : string -> string) (fuel : nat)
      (text : string) :
  rir.ParseDelegatedExtended unicodeUpper fuel text = parseFrom unicodeUpper fuel text [].
Proof.
  unfold rir.ParseDelegatedExtended, parseFrom.
  destruct (scanLines rir.maxTokenSize text) as [lines err]. reflexivity.
Qed.

(** The scanner on a text that starts with a whole line. *)
Lemma scanLinesFrom_line (maxTokenSize : Z) (line rest : string) :
  forall rev len,
    noNewline line = true ->
    scanLinesFrom maxTokenSize (line +:+ String "010" rest) rev len
    = if maxTokenSize <=? len + Z.of_nat (String.length line)
      then ([], Some ErrTooLong)
      else (dropCR (String.rev_app line rev) :: fst (scanLines maxTokenSize rest),
            snd (scanLines maxTokenSize rest)).
Proof.
  induction line as [| c line IH]; intros rev len Hnl.
  - rewrite append_nil_l. cbn [scanLinesFrom String.length String.rev_app].
    rewrite Z.add_0_r.
    destruct (maxTokenSize <=? len); [reflexivity |].
    unfold scanLines. destruct (scanLinesFrom maxTokenSize rest "" 0). reflexivity.
  - simpl in Hnl. apply andb_true_iff in Hnl. destruct Hnl as [Hc Hnl].
    apply negb_true_iff in Hc.
    rewrite append_cons. cbn [scanLinesFrom String.length String.rev_app].
    rewrite Hc, (IH _ _ Hnl).
    replace (len + 1 + Z.of_nat (String.length line))
      with (len + Z.of_nat (S (String.length line))) by lia.
    reflexivity.
Qed.

Lemma parseFrom_line (unicodeUpper : string -> string) (fuel : nat)
      (line rest : string) (out0 : list rir.record) :
  noNewline line = true ->
  parseFrom unicodeUpper fuel (line +:+ String "010" rest) out0
  = if rir.maxTokenSize <=? Z.of_nat (String.length line)
    then Some (out0, Some ErrTooLong)
    else match rir.parseLine unicodeUpper fuel (delivered line) with
         | None => None
         | Some recs => parseFrom unicodeUpper fuel rest (out0 ++ recs)
         end.
Proof.
  intros Hnl. unfold parseFrom, scanLines at 1 2.
  rewrite (scanLinesFrom_line _ _ _ _ _ Hnl), Z.add_0_l.
  destruct (rir.maxTokenSize <=? Z.of_nat (String.length line)); [reflexivity |].
  cbn [fst snd rir.parseLines]. unfold delivered, String.rev.
  destruct (rir.parseLine unicodeUpper fuel (dropCR (String.rev_app line ""))); reflexivity.
Qed.

Lemma parseFrom_unlines_skip (unicodeUpper : string -> string) (fuel : nat)
      (line post : string) (ls : list string) :
  noNewline line = true ->
  Z.of_nat (String.length line) < rir.maxTokenSize ->
  excluded unicodeUpper (delivered line) = true ->
  Forall (fun l => noNewline l = true) ls ->
  forall out0,
    parseFrom unicodeUpper fuel (unlines ls (line +:+ String "010" post)) out0
    = parseFrom unicodeUpper fuel (unlines ls post) out0.
Proof.
  intros Hnl Hlen Hex Hls.
  induction Hls as [| l ls Hl Hls IH]; intros out0; cbn [unlines].
  - rewrite (parseFrom_line _ _ _ _ _ Hnl).
    destruct (Z.leb_spec rir.maxTokenSize (Z.of_nat (String.length line))); [lia |].
    rewrite (parseLine_excluded _ _ _ Hex), app_nil_r. reflexivity.
  - rewrite !(parseFrom_line _ _ _ _ _ Hl).
    destruct (rir.maxTokenSize <=? Z.of_nat (String.length l)); [reflexivity |].
    destruct (rir.parseLine unicodeUpper fuel (delivered l)); [apply IH | reflexivity].
Qed.

Lemma splitByte_length (sep : ascii) (s : string) :
  forall cur, length (splitByte sep s cur) = S (countByte sep s).
Proof.
  induction s as [| c s IH]; intros cur; cbn [splitByte countByte]; [reflexivity |].
  destruct (Ascii.eqb c sep); cbn [length]; rewrite IH; reflexivity.
Qed.

Lemma countByte_app (sep : ascii) (s1 s2 : string) :
  countByte sep (s1 +:+ s2) = (countByte sep s1 + countByte sep s2)%nat.
Proof.
  induction s1 as [| c s1 IH]; [reflexivity |].
  rewrite append_cons. cbn [countByte].
  destruct (Ascii.eqb c sep); rewrite IH; reflexivity.
Qed.

Lemma countByte_doubled (sep : ascii) (n : nat) :
  forall s, countByte sep s = O -> countByte sep (doubled n s) = O.
Proof.
  induction n as [| n IH]; intros s Hs; cbn [doubled]; [exact Hs |].
  apply IH. rewrite countByte_app, Hs. reflexivity.
Qed.

(** C8 (as amended): a line the scanner delivers that has fewer than 7
    fields, or a status that is neither [allocated] nor [assigned], or an
    uppercased country code that is [ZZ] or is not two characters in
    [A]-[Z], adds no record; the parser's result on any text is the records
    of the other lines delivered, with the scanner's error; and such a line
    of fewer than 4 MiB (4194304 bytes, the limit of the scanner's buffer)
    can be deleted from the text, with its newline, without any change to
    the records or to the error that the parser returns. *)
Theorem C8_excluded_lines_are_skipped (unicodeUpper : string -> string) (fuel : nat) :
  (forall line,
      excluded unicodeUpper line = true ->
      rir.parseLine unicodeUpper fuel line = Some [])
  /\ (forall text,
        rir.ParseDelegatedExtended unicodeUpper fuel text
        = match rir.parseLines unicodeUpper fuel
                  (List.filter (fun l => negb (excluded unicodeUpper l))
                               (fst (scanLines rir.maxTokenSize text))) [] with
          | None => None
          | Some out => Some (out, snd (scanLines rir.maxTokenSize text))
          end)
  /\ (forall (ls : list string) (line post : string),
        Forall (fun l => noNewline l = true) ls ->
        noNewline line = true ->
        Z.of_nat (String.length line) < rir.maxTokenSize ->
        excluded unicodeUpper (delivered line) = true ->
        rir.ParseDelegatedExtended unicodeUpper fuel (unlines ls (line +:+ String "010" post))
        = rir.ParseDelegatedExtended unicodeUpper fuel (unlines ls post)).
Proof.
  split; [| split].
  - apply parseLine_excluded.
  - intros text. rewrite ParseDelegatedExtended_parseFrom. unfold parseFrom.
    rewrite <- parseLines_filter. reflexivity.
  - intros ls line post Hls Hnl Hlen Hex.
    rewrite !ParseDelegatedExtended_parseFrom.
    apply parseFrom_unlines_skip; assumption.
Qed.

(** A line with the status [available] and the country [ZZ] between two
    lines that are kept. *)
Lemma C8_excluded_lines_are_skipped_witness :
  rir.ParseDelegatedExtended noUnicode 10
    (unlines ["apnic|AU|ipv4|1.0.0.0|2|20110811|allocated|x"]
             ("iana|ZZ|ipv4|2.0.0.0|2|20110811|available"
                +:+ String "010" "ripe|US|ipv6|2a00:1450::|32|20090223|allocated|y"))
  = rir.ParseDelegatedExtended noUnicode 10
      (unlines ["apnic|AU|ipv4|1.0.0.0|2|20110811|allocated|x"]
               "ripe|US|ipv6|2a00:1450::|32|20090223|allocated|y").
Proof.
  apply (proj2 (proj2 (C8_excluded_lines_are_skipped noUnicode 10))).
  - repeat constructor.
  - reflexivity.
  - vm_compute. reflexivity.
  - vm_compute. reflexivity.
Defined.

(** C8 (as stated) fails: the text whose only line is 8 MiB of the letter
    [a] has a line of one field, fewer than 7, and that line is not skipped:
    the parse fails with the scanner's error. *)
Lemma C8_counterexample_long_line_fails_parse :
  noNewline (doubled 23 "a") = true
  /\ length (Split (doubled 23 "a") "|") = 1%nat
  /\ rir.ParseDelegatedExtended noUnicode 0 (doubled 23 "a")
     = Some ([], Some ErrTooLong).
Proof.
  split; [| split].
  - apply doubled_noNewline. reflexivity.
  - unfold Split. rewrite splitByte_length, countByte_doubled; reflexivity.
  - apply parse_too_long.
Qed.

(** ** Further properties of the code *)

(** *** Addresses printed and parsed back *)

Lemma testbit_byte (v n : Z) : 0 <= n -> Z.testbit (byte v) n = (n <? 8) && Z.testbit v n.
Proof.
  intros Hn. unfold byte. change 256 with (2 ^ 8).
  destruct (Z.ltb_spec n 8).
  - rewrite Z.mod_pow2_bits_low by lia. reflexivity.
  - rewrite Z.mod_pow2_bits_high by lia. reflexivity.
Qed.

Lemma testbit_wrap32 (v n : Z) : 0 <= n -> Z.testbit (wrap32 v) n = (n <? 32) && Z.testbit v n.
Proof.
  intros Hn. unfold wrap32.
  destruct (Z.ltb_spec n 32).
  - rewrite Z.mod_pow2_bits_low by lia. reflexivity.
  - rewrite Z.mod_pow2_bits_high by lia. reflexivity.
Qed.

Lemma testbit_field (v k n : Z) :
  0 <= k -> k + 8 <= 32 -> 0 <= n ->
  Z.testbit (wrap32 (Z.shiftl (byte (Z.shiftr v k)) k)) n
  = (k <=? n) && (n <? k + 8) && Z.testbit v n.
Proof.
  intros Hk Hk8 Hn.
  rewrite testbit_wrap32, Z.shiftl_spec by lia.
  destruct (Z.leb_spec k n) as [Hle | Hlt].
  - rewrite testbit_byte, Z.shiftr_spec by lia.
    replace (n - k + k) with n by lia.
    destruct (Z.ltb_spec (n - k) 8), (Z.ltb_spec n (k + 8)), (Z.ltb_spec n 32);
      try lia; reflexivity.
  - rewrite Z.testbit_neg_r by lia. apply andb_false_r.
Qed.

Lemma testbit_above (v n : Z) : 0 <= v < 2 ^ 32 -> 32 <= n -> Z.testbit v n = false.
Proof.
  intros Hv Hn. destruct (Z.eq_dec v 0) as [-> | Hz]; [apply Z.bits_0 |].
  apply Z.bits_above_log2; [lia |].
  assert (Z.log2 v < 32) by (apply Z.log2_lt_pow2; lia). lia.
Qed.

Lemma ipToUint32_bytesOf (v : Z) : 0 <= v < 2 ^ 32 -> rir.ipToUint32 (bytesOf v) = v.
Proof.
  intros Hv. unfold rir.ipToUint32, bytesOf. cbn [nth].
  apply Z.bits_inj'. intros n Hn.
  rewrite !Z.lor_spec, !testbit_field, testbit_byte by lia.
  pose proof (testbit_above v n Hv) as Hhigh.
  destruct (Z.leb_spec 24 n), (Z.leb_spec 16 n), (Z.leb_spec 8 n),
    (Z.ltb_spec n (24 + 8)), (Z.ltb_spec n (16 + 8)), (Z.ltb_spec n (8 + 8)),
    (Z.ltb_spec n 8); try lia; cbn [andb orb];
    try reflexivity; try (rewrite Hhigh by lia; reflexivity);
    try (destruct (Z.testbit v n); reflexivity).
Qed.

Lemma bytesOf_sum (b0 b1 b2 b3 : Z) :
  isByte b0 -> isByte b1 -> isByte b2 -> isByte b3 ->
  bytesOf (b0 * 2 ^ 24 + b1 * 2 ^ 16 + b2 * 2 ^ 8 + b3) = [b0; b1; b2; b3].
Proof.
  unfold isByte, bytesOf, byte. intros H0 H1 H2 H3.
  rewrite !Z.shiftr_div_pow2 by lia.
  change (2 ^ 24) with 16777216. change (2 ^ 16) with 65536. change (2 ^ 8) with 256.
  repeat f_equal; Z.div_mod_to_equations; lia.
Qed.

Lemma sum_range (b0 b1 b2 b3 : Z) :
  isByte b0 -> isByte b1 -> isByte b2 -> isByte b3 ->
  0 <= b0 * 2 ^ 24 + b1 * 2 ^ 16 + b2 * 2 ^ 8 + b3 < 2 ^ 32.
Proof. unfold isByte. lia. Qed.

Lemma bytesOf_ipToUint32 (b0 b1 b2 b3 : Z) :
  isByte b0 -> isByte b1 -> isByte b2 -> isByte b3 ->
  bytesOf (rir.ipToUint32 [b0; b1; b2; b3]) = [b0; b1; b2; b3].
Proof.
  intros H0 H1 H2 H3.
  rewrite <- (bytesOf_sum b0 b1 b2 b3 H0 H1 H2 H3) at 1.
  rewrite ipToUint32_bytesOf by (apply sum_range; assumption).
  apply bytesOf_sum; assumption.
Qed.

Lemma byteDigits_all : forallb byteDigitsOk (seqZ 0 256) = true.
Proof. vm_compute. reflexivity. Qed.

Lemma byteDigits_ok (b : Z) :
  isByte b ->
  byteDigits b <> []
  /\ forallb isDigit (byteDigits b) = true
  /\ exists d, eatDigits (byteDigits b) 0 0 = Some (b, d).
Proof.
  intros Hb.
  assert (H : byteDigitsOk b = true).
  { apply (proj1 (forallb_forall byteDigitsOk (seqZ 0 256)) byteDigits_all).
    apply list_elem_of_In. apply elem_of_seqZ. unfold isByte in Hb. lia. }
  unfold byteDigitsOk in H.
  destruct (byteDigits b) as [| c ds] eqn:E; [discriminate |].
  apply andb_true_iff in H. destruct H as [Hd He].
  split; [discriminate |]. split; [exact Hd |].
  destruct (eatDigits (c :: ds) 0 0) as [[v d] |]; [| discriminate].
  apply Z.eqb_eq in He. subst v. exists d. reflexivity.
Qed.

Lemma eatDigits_parse (ds : list ascii) :
  forall val digLen v d tail first prevDot fields,
    ds <> [] -> eatDigits ds val digLen = Some (v, d) ->
    parseIPv4Loop (ds ++ tail) first prevDot fields val digLen
    = parseIPv4Loop tail false false fields v d.
Proof.
  induction ds as [| c ds IH]; intros val digLen v d tail first prevDot fields Hne He;
    [contradiction |].
  cbn [eatDigits] in He. rewrite <- app_comm_cons. cbn [parseIPv4Loop].
  destruct (isDigit c); [| discriminate].
  destruct ((digLen =? 1) && (val =? 0)); [discriminate |].
  cbv zeta in He.
  destruct (val * 10 + (byteVal c - 48) >? 255); [discriminate |].
  destruct ds as [| c' ds'].
  - cbn [eatDigits] in He. injection He as <- <-. reflexivity.
  - apply IH; [discriminate | exact He].
Qed.

Lemma addrKind_digits (ds rest : list ascii) :
  forallb isDigit ds = true -> addrKind (ds ++ "."%char :: rest) = Some "."%char.
Proof.
  induction ds as [| c ds IH]; intros H; [reflexivity |].
  cbn [forallb] in H. apply andb_true_iff in H. destruct H as [Hc H].
  rewrite <- app_comm_cons. cbn [addrKind].
  assert (E : Ascii.eqb c "." || Ascii.eqb c ":" || Ascii.eqb c "%" = false).
  { unfold isDigit in Hc. apply andb_true_iff in Hc. destruct Hc as [H1 H2].
    apply Z.leb_le in H1. apply Z.leb_le in H2.
    destruct (Ascii.eqb_spec c "."); [subst; vm_compute in H1; contradiction |].
    destruct (Ascii.eqb_spec c ":"); [subst; vm_compute in H2; contradiction |].
    destruct (Ascii.eqb_spec c "%"); [subst; vm_compute in H1; contradiction |].
    reflexivity. }
  rewrite E. apply IH. exact H.
Qed.

Lemma list_ascii_app (s1 s2 : string) :
  list_ascii_of_string (s1 +:+ s2) = list_ascii_of_string s1 ++ list_ascii_of_string s2.
Proof.
  induction s1 as [| c s1 IH]; [reflexivity |].
  change (String c s1 +:+ s2) with (String c (s1 +:+ s2)).
  cbn [list_ascii_of_string]. rewrite IH. reflexivity.
Qed.

Lemma uint32ToIP_chars (v : Z) :
  list_ascii_of_string (rir.uint32ToIP v)
  = byteDigits (byte (Z.shiftr v 24)) ++ "."%char
      :: byteDigits (byte (Z.shiftr v 16)) ++ "."%char
      :: byteDigits (byte (Z.shiftr v 8)) ++ "."%char
      :: byteDigits (byte v).
Proof.
  unfold rir.uint32ToIP, byteDigits. rewrite !list_ascii_app. reflexivity.
Qed.

Lemma parseIPv4_field (ds rest : list ascii) (v d : Z) (first prevDot : bool)
      (fields : list Z) :
  ds <> [] -> eatDigits ds 0 0 = Some (v, d) -> rest <> [] ->
  (length fields < 3)%nat ->
  parseIPv4Loop (ds ++ "."%char :: rest) first prevDot fields 0 0
  = parseIPv4Loop rest false true (fields ++ [v]) 0 0.
Proof.
  intros Hne He Hrest Hlen.
  rewrite (eatDigits_parse ds 0 0 v d _ first prevDot fields Hne He).
  cbn [parseIPv4Loop].
  change (isDigit ".") with false. rewrite Ascii.eqb_refl.
  destruct rest as [| c rest']; [contradiction |].
  cbn [orb].
  destruct (Z.eqb_spec (Z.of_nat (length fields)) 3); [lia | reflexivity].
Qed.

Lemma app_not_nil {A : Type} (l1 l2 : list A) : l1 <> [] -> l1 ++ l2 <> [].
Proof. destruct l1; [contradiction | discriminate]. Qed.

Lemma parseIPv4_dotted (b0 b1 b2 b3 : Z) :
  isByte b0 -> isByte b1 -> isByte b2 -> isByte b3 ->
  parseIPv4 (byteDigits b0 ++ "."%char :: byteDigits b1 ++ "."%char
               :: byteDigits b2 ++ "."%char :: byteDigits b3)
  = Some [b0; b1; b2; b3].
Proof.
  intros H0 H1 H2 H3.
  destruct (byteDigits_ok b0 H0) as [N0 [_ [d0 E0]]].
  destruct (byteDigits_ok b1 H1) as [N1 [_ [d1 E1]]].
  destruct (byteDigits_ok b2 H2) as [N2 [_ [d2 E2]]].
  destruct (byteDigits_ok b3 H3) as [N3 [_ [d3 E3]]].
  unfold parseIPv4.
  rewrite (parseIPv4_field _ _ b0 d0) by (auto using app_not_nil; simpl; lia).
  rewrite (parseIPv4_field _ _ b1 d1) by (auto using app_not_nil; simpl; lia).
  rewrite (parseIPv4_field _ _ b2 d2) by (auto using app_not_nil; simpl; lia).
  rewrite <- (app_nil_r (byteDigits b3)).
  rewrite (eatDigits_parse _ 0 0 b3 d3 [] _ _ _ N3 E3). reflexivity.
Qed.

Lemma uint32ToIP_ParseIP (v : Z) :
  ParseIP (rir.uint32ToIP v) = Some (zeros 10 ++ [255; 255] ++ bytesOf v).
Proof.
  unfold ParseIP. rewrite uint32ToIP_chars.
  destruct (byteDigits_ok _ (byte_isByte (Z.shiftr v 24))) as [_ [D0 _]].
  rewrite (addrKind_digits _ _ D0). cbn [Ascii.eqb].
  rewrite parseIPv4_dotted by apply byte_isByte. reflexivity.
Qed.

(** X1: the text [uint32ToIP] prints for a 32-bit word is an IPv4 address
    for [net.ParseIP], and [To4] and [ipToUint32] give the word back: the
    conversions [ipv4RangeToCIDRs] uses on the way in and on the way out
    are inverse to each other. *)
Theorem X1_uint32ToIP_parses_back (v : Z) :
  0 <= v < 2 ^ 32 ->
  exists ip ip4,
    ParseIP (rir.uint32ToIP v) = Some ip
    /\ To4 ip = Some ip4
    /\ rir.ipToUint32 ip4 = v.
Proof.
  intros Hv. exists (zeros 10 ++ [255; 255] ++ bytesOf v), (bytesOf v).
  split; [apply uint32ToIP_ParseIP |]. split; [reflexivity |].
  apply ipToUint32_bytesOf. exact Hv.
Qed.

(** The word of the address 1.0.0.0. *)
Lemma X1_uint32ToIP_parses_back_witness :
  exists ip ip4,
    ParseIP (rir.uint32ToIP 16777216) = Some ip
    /\ To4 ip = Some ip4
    /\ rir.ipToUint32 ip4 = 16777216.
Proof. apply (X1_uint32ToIP_parses_back 16777216). lia. Defined.

(** X2: the other way round, the word [ipToUint32] makes of four bytes is
    printed by [uint32ToIP] as these four bytes in decimal, separated by
    dots. *)
Theorem X2_uint32ToIP_of_bytes (b0 b1 b2 b3 : Z) :
  isByte b0 -> isByte b1 -> isByte b2 -> isByte b3 ->
  rir.uint32ToIP (rir.ipToUint32 [b0; b1; b2; b3])
  = itoa b0 +:+ "." +:+ itoa b1 +:+ "." +:+ itoa b2 +:+ "." +:+ itoa b3.
Proof.
  intros H0 H1 H2 H3.
  pose proof (bytesOf_ipToUint32 b0 b1 b2 b3 H0 H1 H2 H3) as E.
  unfold bytesOf in E. injection E as E0 E1 E2 E3.
  unfold rir.uint32ToIP. rewrite E0, E1, E2, E3. reflexivity.
Qed.

(** The address 192.168.0.1. *)
Lemma X2_uint32ToIP_of_bytes_witness :
  rir.uint32ToIP (rir.ipToUint32 [192; 168; 0; 1])
  = itoa 192 +:+ "." +:+ itoa 168 +:+ "." +:+ itoa 0 +:+ "." +:+ itoa 1.
Proof. apply (X2_uint32ToIP_of_bytes 192 168 0 1); unfold isByte; lia. Defined.

Lemma list_ascii_inj (s1 s2 : string) :
  list_ascii_of_string s1 = list_ascii_of_string s2 -> s1 = s2.
Proof.
  intros H. rewrite <- (string_of_list_ascii_of_string s1),
              <- (string_of_list_ascii_of_string s2), H. reflexivity.
Qed.

Lemma append_inv_tail (s1 s2 t : string) : s1 +:+ t = s2 +:+ t -> s1 = s2.
Proof.
  intros H. apply list_ascii_inj.
  apply (f_equal list_ascii_of_string) in H. rewrite !list_ascii_app in H.
  apply (app_inv_tail _ _ _ H).
Qed.

Lemma uint32ToIP_inj (a1 a2 : Z) :
  0 <= a1 < 2 ^ 32 -> 0 <= a2 < 2 ^ 32 ->
  rir.uint32ToIP a1 = rir.uint32ToIP a2 -> a1 = a2.
Proof.
  intros H1 H2 E.
  pose proof (uint32ToIP_ParseIP a1) as P1.
  pose proof (uint32ToIP_ParseIP a2) as P2.
  rewrite E, P2 in P1.
  assert (B : To4 (zeros 10 ++ [255; 255] ++ bytesOf a1)
              = To4 (zeros 10 ++ [255; 255] ++ bytesOf a2)) by congruence.
  change (Some (bytesOf a1) = Some (bytesOf a2)) in B.
  rewrite <- (ipToUint32_bytesOf a1 H1), <- (ipToUint32_bytesOf a2 H2). congruence.
Qed.

(** *** The records of the range aggregator *)

Lemma hostBlocks_prefixes_NoDup (cc : string) (cur : Z) (n : nat) :
  0 <= cur -> cur + Z.of_nat n <= 2 ^ 32 ->
  NoDup (map rir.Prefix (map (recordOfBlock cc) (hostBlocks cur n))).
Proof.
  intros Hc Hn. unfold hostBlocks. rewrite !map_map.
  apply (NoDup_fmap_2_strong (fun a => rir.Prefix (recordOfBlock cc (a, 32)))).
  - intros a1 a2 I1 I2 E. apply elem_of_seqZ in I1. apply elem_of_seqZ in I2.
    unfold recordOfBlock, rir.cidr in E. cbn [fst snd rir.Prefix] in E.
    apply append_inv_tail in E. apply uint32ToIP_inj; [lia | lia | exact E].
  - apply NoDup_seqZ.
Qed.

Lemma emitLoop_result (cc : string) (endU : Z) (fuel : nat) :
  forall cur out0 out,
    0 <= cur < 2 ^ 32 -> 0 <= endU < 2 ^ 32 ->
    rir.emitLoop fuel cc endU cur out0 = Some out ->
    out = out0 ++ map (recordOfBlock cc) (hostBlocks cur (Z.to_nat (endU + 1 - cur)))
    /\ (cur <= endU -> endU < 2 ^ 32 - 1).
Proof.
  induction fuel as [| fuel IH]; intros cur out0 out Hc He Hrun; [discriminate |].
  destruct (Z_le_gt_dec cur endU) as [Hle | Hgt].
  - rewrite emitLoop_step in Hrun by lia.
    destruct (Z.eq_dec endU (2 ^ 32 - 1)) as [-> | Hne].
    { rewrite emitLoop_no_end in Hrun by apply wrap32_range. discriminate. }
    rewrite wrap32_small in Hrun by lia.
    apply IH in Hrun; [| lia | lia]. destruct Hrun as [-> _].
    split; [| lia].
    replace (Z.to_nat (endU + 1 - cur)) with (S (Z.to_nat (endU + 1 - (cur + 1)))) by lia.
    rewrite hostBlocks_S. cbn [map]. rewrite <- app_assoc. reflexivity.
  - rewrite emitLoop_done in Hrun by lia. injection Hrun as <-.
    replace (Z.to_nat (endU + 1 - cur)) with O by lia.
    split; [rewrite app_nil_r; reflexivity | lia].
Qed.

Lemma aggregator_result (fuel : nat) (start value cc : string) (out : list rir.record) :
  rir.ipv4RangeToCIDRs fuel start value cc = Some out ->
  exists cur n,
    0 <= cur /\ cur + Z.of_nat n <= 2 ^ 32
    /\ out = map (recordOfBlock cc) (hostBlocks cur n).
Proof.
  assert (Hnil : exists cur n,
             0 <= cur /\ cur + Z.of_nat n <= 2 ^ 32
             /\ [] = map (recordOfBlock cc) (hostBlocks cur n)).
  { exists 0, O. split; [lia |]. split; [lia | reflexivity]. }
  unfold rir.ipv4RangeToCIDRs.
  destruct (ParseIP start) as [ip |] eqn:Hp; [| intros [= <-]; exact Hnil].
  destruct (To4 ip) as [ip4 |] eqn:H4; [| intros [= <-]; exact Hnil].
  destruct (Atoi value) as [count |]; [| intros [= <-]; exact Hnil].
  destruct (count <=? 0); [intros [= <-]; exact Hnil |].
  cbv zeta. intros Hrun.
  pose proof (startU_range start ip ip4 Hp H4) as Hs.
  apply emitLoop_result in Hrun; [| exact Hs | apply wrap32_range].
  destruct Hrun as [-> Hend]. cbn [app].
  set (endU := wrap32 (wrap32 (rir.ipToUint32 ip4 + uint32 count) - 1)) in *.
  pose proof (wrap32_range (wrap32 (rir.ipToUint32 ip4 + uint32 count) - 1)) as He.
  fold endU in He.
  exists (rir.ipToUint32 ip4), (Z.to_nat (endU + 1 - rir.ipToUint32 ip4)).
  split; [lia |]. split; [lia | reflexivity].
Qed.

(** X3: whenever [ipv4RangeToCIDRs] returns, its records carry the country
    code it was given, each prefix is the dotted address of a 32-bit word
    followed by [/32], and no prefix is emitted twice (so that a single
    line of a stats file can never be in conflict with itself in the
    merge). *)
Theorem X3_aggregator_records (fuel : nat) (start value cc : string)
        (out : list rir.record) :
  rir.ipv4RangeToCIDRs fuel start value cc = Some out ->
  NoDup (map rir.Prefix out)
  /\ Forall (fun r => rir.Country r = cc
                      /\ exists a, 0 <= a < 2 ^ 32
                                   /\ rir.Prefix r = rir.uint32ToIP a +:+ "/32") out.
Proof.
  intros H. apply aggregator_result in H. destruct H as [cur [n [Hc [Hn ->]]]].
  split.
  - apply hostBlocks_prefixes_NoDup; lia.
  - apply Forall_forall. intros r Hr.
    apply list_elem_of_fmap in Hr. destruct Hr as [b [-> Hb]].
    apply hostBlocks_elem in Hb. destruct Hb as [H32 Hr].
    split; [reflexivity |].
    exists (fst b). split; [lia |].
    unfold recordOfBlock, rir.cidr. cbn [rir.Prefix]. rewrite H32. reflexivity.
Qed.

(** The four addresses from 1.0.0.0. *)
Lemma X3_aggregator_records_witness :
  exists out,
    rir.ipv4RangeToCIDRs 5 "1.0.0.0" "4" "AU" = Some out
    /\ NoDup (map rir.Prefix out)
    /\ Forall (fun r => rir.Country r = "AU"
                        /\ exists a, 0 <= a < 2 ^ 32
                                     /\ rir.Prefix r = rir.uint32ToIP a +:+ "/32") out.
Proof.
  eexists. split; [vm_compute; reflexivity |].
  apply (X3_aggregator_records 5 "1.0.0.0" "4" "AU"). vm_compute. reflexivity.
Defined.

Lemma searchPrefix_first_fit (cur endU : Z) (n : nat) :
  let p := rir.searchPrefix cur endU n in
  0 <= p <= Z.of_nat n
  /\ (0 < p -> alignedAndFits cur endU p = true)
  /\ (forall q, p < q <= Z.of_nat n -> alignedAndFits cur endU q = false).
Proof.
  induction n as [| n IH]; cbn [rir.searchPrefix].
  - cbv zeta. split; [lia |]. split; [lia |]. intros q Hq. lia.
  - cbv zeta in *. fold (blockOf (Z.of_nat (S n))).
    destruct (negb (cur mod blockOf (Z.of_nat (S n)) =? 0)
              || (wrap32 (cur + blockOf (Z.of_nat (S n)) - 1) >? endU)) eqn:E.
    + destruct IH as [I1 [I2 I3]]. split; [lia |]. split; [exact I2 |].
      intros q Hq. destruct (Z.eq_dec q (Z.of_nat (S n))) as [-> | Hne].
      * unfold alignedAndFits. rewrite Z.gtb_ltb in E.
        rewrite Z.leb_antisym.
        destruct (cur mod blockOf (Z.of_nat (S n)) =? 0); [| reflexivity].
        simpl in E. rewrite E. reflexivity.
      * apply I3. lia.
    + split; [lia |]. split.
      * intros _. unfold alignedAndFits. rewrite Z.gtb_ltb in E.
        rewrite Z.leb_antisym.
        apply orb_false_iff in E. destruct E as [E1 E2].
        apply negb_false_iff in E1. rewrite E1, E2. reflexivity.
      * intros q Hq. lia.
Qed.

(** X4: the inner loop of [ipv4RangeToCIDRs] tries the prefixes from 32
    downwards and stops at the first whose block is aligned at [cur] and
    ends by [endU]: it returns the longest such prefix (the smallest
    block), and 0 when there is none. *)
Theorem X4_searchPrefix_longest_fit (cur endU : Z) :
  0 <= rir.searchPrefix cur endU 32 <= 32
  /\ (0 < rir.searchPrefix cur endU 32 ->
      alignedAndFits cur endU (rir.searchPrefix cur endU 32) = true)
  /\ (forall q, rir.searchPrefix cur endU 32 < q <= 32 ->
                alignedAndFits cur endU q = false).
Proof.
  pose proof (searchPrefix_first_fit cur endU 32) as H. cbv zeta in H.
  destruct H as [H1 [H2 H3]].
  split; [exact H1 |]. split; [exact H2 | exact H3].
Qed.

(** *** The records and the error of the parser *)

Lemma aggregator_countries (fuel : nat) (start value cc : string) (out : list rir.record) :
  rir.ipv4RangeToCIDRs fuel start value cc = Some out ->
  Forall (fun r => rir.Country r = cc) out.
Proof.
  intros H. apply aggregator_result in H. destruct H as [cur [n [_ [_ ->]]]].
  apply Forall_forall. intros r Hr.
  apply list_elem_of_fmap in Hr. destruct Hr as [b [-> _]]. reflexivity.
Qed.

Lemma ipv6ToCIDR_country (start value cc : string) (r : rir.record) :
  rir.ipv6ToCIDR start value cc = Some r -> rir.Country r = cc.
Proof.
  unfold rir.ipv6ToCIDR.
  destruct (ParseIP start); [| discriminate].
  destruct (To4 l); [discriminate |].
  destruct (Atoi value); [| discriminate].
  destruct ((z <? 0) || (z >? 128)); [discriminate |].
  intros [= <-]. reflexivity.
Qed.

Lemma parseLine_countries (unicodeUpper : string -> string) (fuel : nat)
      (line : string) (recs : list rir.record) :
  rir.parseLine unicodeUpper fuel line = Some recs ->
  Forall (fun r => validCountry (rir.Country r)) recs.
Proof.
  unfold rir.parseLine.
  destruct (String.eqb line "" || HasPrefix line "#"); [intros [= <-]; constructor |].
  destruct (Z.of_nat (length (Split line "|")) <? 7); [intros [= <-]; constructor |].
  cbv zeta.
  destruct (negb (String.eqb (nth 6 (Split line "|") "") "allocated")
            && negb (String.eqb (nth 6 (Split line "|") "") "assigned"));
    [intros [= <-]; constructor |].
  set (cc := ToUpper unicodeUpper (nth 1 (Split line "|") "")).
  destruct (rir.isCountryCode cc) eqn:Hcc; cbn [negb orb];
    [| intros [= <-]; constructor].
  destruct (String.eqb_spec cc "ZZ") as [| Hzz]; [intros [= <-]; constructor |].
  assert (Hv : validCountry cc).
  { split; [rewrite twoCapitals_isCountryCode; exact Hcc | exact Hzz]. }
  destruct (String.eqb (nth 2 (Split line "|") "") "ipv4").
  - intros H. apply aggregator_countries in H.
    eapply Forall_impl; [exact H |]. intros r ->. exact Hv.
  - destruct (String.eqb (nth 2 (Split line "|") "") "ipv6"); [| intros [= <-]; constructor].
    destruct (rir.ipv6ToCIDR _ _ cc) as [rec |] eqn:H6; intros [= <-]; [| constructor].
    constructor; [| constructor]. rewrite (ipv6ToCIDR_country _ _ _ _ H6). exact Hv.
Qed.

Lemma parseLines_countries (unicodeUpper : string -> string) (fuel : nat)
      (lines : list string) :
  forall out0 out,
    Forall (fun r => validCountry (rir.Country r)) out0 ->
    rir.parseLines unicodeUpper fuel lines out0 = Some out ->
    Forall (fun r => validCountry (rir.Country r)) out.
Proof.
  induction lines as [| line lines IH]; intros out0 out H0; cbn [rir.parseLines].
  - intros [= <-]. exact H0.
  - destruct (rir.parseLine unicodeUpper fuel line) as [recs |] eqn:Hl; [| discriminate].
    apply IH. apply Forall_app. split; [exact H0 |].
    eapply parseLine_countries; exact Hl.
Qed.

(** X5: whatever the text, every record [ParseDelegatedExtended] returns
    has a country code of two letters in [A]-[Z] other than [ZZ], also
    when the scanner stops with an error. *)
Theorem X5_parser_countries (unicodeUpper : string -> string) (fuel : nat)
        (text : string) (recs : list rir.record) (err : option string) :
  rir.ParseDelegatedExtended unicodeUpper fuel text = Some (recs, err) ->
  Forall (fun r => validCountry (rir.Country r)) recs.
Proof.
  unfold rir.ParseDelegatedExtended.
  destruct (scanLines rir.maxTokenSize text) as [lines e].
  destruct (rir.parseLines unicodeUpper fuel lines []) as [out |] eqn:H; [| discriminate].
  intros [= <- _]. eapply parseLines_countries; [constructor | exact H].
Qed.

(** A line of ARIN in lower case. *)
Lemma X5_parser_countries_witness :
  exists recs,
    rir.ParseDelegatedExtended noUnicode 5 "arin|us|ipv4|3.0.0.0|2|19880101|assigned|x"
    = Some (recs, None)
    /\ Forall (fun r => validCountry (rir.Country r)) recs.
Proof.
  eexists. split; [vm_compute; reflexivity |].
  apply (X5_parser_countries noUnicode 5 "arin|us|ipv4|3.0.0.0|2|19880101|assigned|x" _ None).
  vm_compute. reflexivity.
Defined.

Lemma rev_app_length (s acc : string) :
  String.length (String.rev_app s acc) = (String.length s + String.length acc)%nat.
Proof.
  revert acc. induction s as [| c s IH]; intros acc; cbn [String.rev_app String.length];
    [reflexivity |].
  rewrite IH. cbn [String.length]. lia.
Qed.

Lemma rev_length (s : string) : String.length (String.rev s) = String.length s.
Proof. unfold String.rev. rewrite rev_app_length. cbn. lia. Qed.

Lemma scan_error (maxTokenSize : Z) (s : string) :
  forall rev cur len,
    0 < maxTokenSize -> len = Z.of_nat (String.length cur) ->
    (snd (scanLinesFrom maxTokenSize s rev len) = None
     \/ snd (scanLinesFrom maxTokenSize s rev len) = Some ErrTooLong)
    /\ (snd (scanLinesFrom maxTokenSize s rev len) = None
        <-> Forall (fun seg => Z.of_nat (String.length seg) < maxTokenSize)
                   (splitByte "010" s cur)).
Proof.
  induction s as [| c s IH]; intros rev cur len HM Hlen; cbn [scanLinesFrom splitByte].
  - destruct (Z.eqb_spec len 0) as [E0 | N0]; cbn [snd].
    + split; [left; reflexivity |]. split; [| reflexivity].
      intros _. constructor; [| constructor]. rewrite rev_length. lia.
    + destruct (Z.leb_spec maxTokenSize len); cbn [snd].
      * split; [right; reflexivity |]. split; [discriminate |].
        intros Hf. inversion Hf as [| x l Hx Hl]; subst. rewrite rev_length in Hx. lia.
      * split; [left; reflexivity |]. split; [| reflexivity].
        intros _. constructor; [| constructor]. rewrite rev_length. lia.
  - destruct (Ascii.eqb c "010").
    + destruct (Z.leb_spec maxTokenSize len); cbn [snd].
      * split; [right; reflexivity |]. split; [discriminate |].
        intros Hf. inversion Hf as [| x l Hx Hl]; subst. rewrite rev_length in Hx. lia.
      * destruct (IH "" "" 0 HM eq_refl) as [I1 I2].
        destruct (scanLinesFrom maxTokenSize s "" 0) as [ls e]. cbn [snd] in *.
        split; [exact I1 |]. rewrite I2. split.
        -- intros Hf. constructor; [rewrite rev_length; lia | exact Hf].
        -- intros Hf. inversion Hf as [| x l Hx Hl]; exact Hl.
    + apply IH; [exact HM |]. cbn [String.length]. lia.
Qed.

(** X6: the only error [ParseDelegatedExtended] returns is the scanner's
    [token too long], and it returns none exactly when every segment of
    the text between two newlines is shorter than the 4 MiB of the
    scanner's buffer: no content of a line of that length makes the parse
    fail. *)
Theorem X6_parser_error (unicodeUpper : string -> string) (fuel : nat)
        (text : string) (recs : list rir.record) (err : option string) :
  rir.ParseDelegatedExtended unicodeUpper fuel text = Some (recs, err) ->
  (err = None \/ err = Some ErrTooLong)
  /\ (err = None <-> Forall shortLine (Split text "010")).
Proof.
  unfold rir.ParseDelegatedExtended, scanLines, Split.
  pose proof (scan_error rir.maxTokenSize text "" "" 0 eq_refl eq_refl) as H.
  destruct (scanLinesFrom rir.maxTokenSize text "" 0) as [lines e]. cbn [snd] in H.
  destruct (rir.parseLines unicodeUpper fuel lines []); [| discriminate].
  intros [= _ <-]. exact H.
Qed.

(** Two lines, the second without fields. *)
Lemma X6_parser_error_witness :
  exists recs,
    rir.ParseDelegatedExtended noUnicode 5
      ("arin|US|ipv4|3.0.0.0|2|19880101|assigned|x" +:+ String "010" "garbage")
    = Some (recs, None)
    /\ Forall shortLine
              (Split ("arin|US|ipv4|3.0.0.0|2|19880101|assigned|x"
                        +:+ String "010" "garbage") "010").
Proof.
  eexists. split; [vm_compute; reflexivity |].
  edestruct (X6_parser_error noUnicode 5
              ("arin|US|ipv4|3.0.0.0|2|19880101|assigned|x" +:+ String "010" "garbage"))
    as [_ [H _]]; [vm_compute; reflexivity |].
  apply H. reflexivity.
Defined.

(** *** Lines the parser passes over *)

Lemma parseLine_ignored (unicodeUpper : string -> string) (fuel : nat) (line : string) :
  ignored line = true -> rir.parseLine unicodeUpper fuel line = Some [].
Proof.
  unfold ignored, rir.parseLine.
  destruct (String.eqb line "" || HasPrefix line "#"); [reflexivity |].
  cbn [orb]. intros H. apply andb_true_iff in H. destruct H as [H4 H6].
  apply negb_true_iff in H4. apply negb_true_iff in H6. rewrite H4, H6.
  repeat match goal with
         | |- (if ?c then _ else _) = _ => destruct c; try reflexivity
         | |- (let _ := _ in _) = _ => cbv zeta
         end.
Qed.

Lemma parseFrom_unlines_noop (unicodeUpper : string -> string) (fuel : nat)
      (line post : string) (ls : list string) :
  noNewline line = true ->
  Z.of_nat (String.length line) < rir.maxTokenSize ->
  rir.parseLine unicodeUpper fuel (delivered line) = Some [] ->
  Forall (fun l => noNewline l = true) ls ->
  forall out0,
    parseFrom unicodeUpper fuel (unlines ls (line +:+ String "010" post)) out0
    = parseFrom unicodeUpper fuel (unlines ls post) out0.
Proof.
  intros Hnl Hlen Hno Hls.
  induction Hls as [| l ls Hl Hls IH]; intros out0; cbn [unlines].
  - rewrite (parseFrom_line _ _ _ _ _ Hnl).
    destruct (Z.leb_spec rir.maxTokenSize (Z.of_nat (String.length line))); [lia |].
    rewrite Hno, app_nil_r. reflexivity.
  - rewrite !(parseFrom_line _ _ _ _ _ Hl).
    destruct (rir.maxTokenSize <=? Z.of_nat (String.length l)); [reflexivity |].
    destruct (rir.parseLine unicodeUpper fuel (delivered l)); [apply IH | reflexivity].
Qed.

(** X7: a blank line, a comment line (one that starts with [#]) or a line
    whose type field is neither [ipv4] nor [ipv6] (the [asn] lines and the
    summary lines of a stats file) changes nothing: the parse of a text
    with such a line, shorter than 4 MiB, is the parse of the text without
    it. *)
Theorem X7_ignored_lines (unicodeUpper : string -> string) (fuel : nat)
        (ls : list string) (line post : string) :
  Forall (fun l => noNewline l = true) ls ->
  noNewline line = true ->
  Z.of_nat (String.length line) < rir.maxTokenSize ->
  ignored (delivered line) = true ->
  rir.ParseDelegatedExtended unicodeUpper fuel (unlines ls (line +:+ String "010" post))
  = rir.ParseDelegatedExtended unicodeUpper fuel (unlines ls post).
Proof.
  intros Hls Hnl Hlen Hig. rewrite !ParseDelegatedExtended_parseFrom.
  apply parseFrom_unlines_noop; try assumption.
  apply parseLine_ignored. exact Hig.
Qed.

(** An [asn] line between two [ipv4] lines. *)
Lemma X7_ignored_lines_witness :
  rir.ParseDelegatedExtended noUnicode 5
    (unlines ["apnic|AU|ipv4|1.0.0.0|1|20110811|allocated|y"]
             ("apnic|AU|asn|4608|1|20110811|allocated|y"
                +:+ String "010" "arin|US|ipv4|3.0.0.0|2|19880101|assigned|x"))
  = rir.ParseDelegatedExtended noUnicode 5
      (unlines ["apnic|AU|ipv4|1.0.0.0|1|20110811|allocated|y"]
               "arin|US|ipv4|3.0.0.0|2|19880101|assigned|x").
Proof.
  apply (X7_ignored_lines noUnicode 5
           ["apnic|AU|ipv4|1.0.0.0|1|20110811|allocated|y"]
           "apnic|AU|asn|4608|1|20110811|allocated|y"
           "arin|US|ipv4|3.0.0.0|2|19880101|assigned|x").
  - constructor; [reflexivity | constructor].
  - reflexivity.
  - vm_compute. reflexivity.
  - vm_compute. reflexivity.
Defined.

Lemma rev_app_append (s1 s2 acc : string) :
  String.rev_app (s1 +:+ s2) acc = String.rev_app s2 (String.rev_app s1 acc).
Proof.
  revert acc. induction s1 as [| c s1 IH]; intros acc; [reflexivity |].
  rewrite append_cons. cbn [String.rev_app]. apply IH.
Qed.

Lemma rev_app_rev_app (s acc : string) :
  String.rev_app (String.rev_app s acc) "" = String.rev_app acc s.
Proof.
  revert acc. induction s as [| c s IH]; intros acc; cbn [String.rev_app]; [reflexivity |].
  rewrite IH. reflexivity.
Qed.

Lemma rev_involutive (s : string) : String.rev (String.rev s) = s.
Proof. unfold String.rev. rewrite rev_app_rev_app. reflexivity. Qed.

Lemma delivered_CR (line : string) : delivered (line +:+ CR) = line.
Proof.
  unfold delivered, String.rev, CR. rewrite rev_app_append.
  cbn [String.rev_app dropCR]. change (Ascii.eqb "013" "013") with true.
  apply rev_involutive.
Qed.

Lemma delivered_plain (line : string) : endsWithCR line = false -> delivered line = line.
Proof.
  unfold endsWithCR, delivered, dropCR.
  destruct (String.rev line) as [| c r] eqn:E.
  - intros _. rewrite <- (rev_involutive line), E. reflexivity.
  - intros ->. rewrite <- E. apply rev_involutive.
Qed.

Lemma noNewline_CR (l : string) : noNewline l = true -> noNewline (l +:+ CR) = true.
Proof. intros H. apply noNewline_app; [exact H | reflexivity]. Qed.

Lemma parseFrom_crlf (unicodeUpper : string -> string) (fuel : nat) (ls : list string) :
  Forall lfLine ls ->
  forall out0,
    parseFrom unicodeUpper fuel (unlines (map (fun l => l +:+ CR) ls) "") out0
    = parseFrom unicodeUpper fuel (unlines ls "") out0.
Proof.
  induction 1 as [| l ls [Hnl [Hcr Hlen]] Hls IH]; intros out0; cbn [map unlines];
    [reflexivity |].
  rewrite (parseFrom_line _ _ _ _ _ (noNewline_CR l Hnl)).
  rewrite (parseFrom_line _ _ _ _ _ Hnl).
  rewrite string_length_app, delivered_CR, (delivered_plain l Hcr).
  cbn [CR String.length].
  destruct (Z.leb_spec rir.maxTokenSize (Z.of_nat (String.length l + 1))); [lia |].
  destruct (Z.leb_spec rir.maxTokenSize (Z.of_nat (String.length l))); [lia |].
  destruct (rir.parseLine unicodeUpper fuel l); [apply IH | reflexivity].
Qed.

(** X8: line ends do not matter: a file whose lines end with carriage
    return and newline parses to the same result as the file with the
    same lines ended by a newline alone (the scanner drops one carriage
    return at the end of a line). *)
Theorem X8_crlf_line_ends (unicodeUpper : string -> string) (fuel : nat) (ls : list string) :
  Forall lfLine ls ->
  rir.ParseDelegatedExtended unicodeUpper fuel (unlines (map (fun l => l +:+ CR) ls) "")
  = rir.ParseDelegatedExtended unicodeUpper fuel (unlines ls "").
Proof.
  intros H. rewrite !ParseDelegatedExtended_parseFrom. apply parseFrom_crlf. exact H.
Qed.

(** Two lines. *)
Lemma X8_crlf_line_ends_witness :
  rir.ParseDelegatedExtended noUnicode 5
    (unlines (map (fun l => l +:+ CR)
                  ["apnic|AU|ipv4|1.0.0.0|1|20110811|allocated|y";
                   "arin|US|ipv4|3.0.0.0|2|19880101|assigned|x"]) "")
  = rir.ParseDelegatedExtended noUnicode 5
      (unlines ["apnic|AU|ipv4|1.0.0.0|1|20110811|allocated|y";
                "arin|US|ipv4|3.0.0.0|2|19880101|assigned|x"] "").
Proof.
  apply (X8_crlf_line_ends noUnicode 5
           ["apnic|AU|ipv4|1.0.0.0|1|20110811|allocated|y";
            "arin|US|ipv4|3.0.0.0|2|19880101|assigned|x"]).
  constructor; [| constructor; [| constructor]];
    (split; [reflexivity | split; [reflexivity | vm_compute; reflexivity]]).
Defined.

Lemma parseLines_acc (unicodeUpper : string -> string) (fuel : nat) (lines : list string) :
  forall out0,
    rir.parseLines unicodeUpper fuel lines out0
    = match rir.parseLines unicodeUpper fuel lines [] with
      | Some out => Some (out0 ++ out)
      | None => None
      end.
Proof.
  induction lines as [| line lines IH]; intros out0; cbn [rir.parseLines].
  - rewrite app_nil_r. reflexivity.
  - destruct (rir.parseLine unicodeUpper fuel line) as [recs |]; [| reflexivity].
    rewrite (IH (out0 ++ recs)), (IH ([] ++ recs)). cbn [app].
    destruct (rir.parseLines unicodeUpper fuel lines []); [| reflexivity].
    rewrite app_assoc. reflexivity.
Qed.

Lemma parseFrom_acc (unicodeUpper : string -> string) (fuel : nat) (text : string)
      (out0 : list rir.record) :
  parseFrom unicodeUpper fuel text out0
  = match parseFrom unicodeUpper fuel text [] with
    | Some (out, e) => Some (out0 ++ out, e)
    | None => None
    end.
Proof.
  unfold parseFrom. rewrite parseLines_acc.
  destruct (rir.parseLines unicodeUpper fuel (fst (scanLines rir.maxTokenSize text)) []);
    reflexivity.
Qed.

Lemma parseFrom_unlines_then (unicodeUpper : string -> string) (fuel : nat)
      (post : string) (ls : list string) :
  Forall (fun l => noNewline l = true) ls ->
  forall out0 out1,
    parseFrom unicodeUpper fuel (unlines ls "") out0 = Some (out1, None) ->
    parseFrom unicodeUpper fuel (unlines ls post) out0
    = parseFrom unicodeUpper fuel post out1.
Proof.
  induction 1 as [| l ls Hl Hls IH]; intros out0 out1; cbn [unlines].
  - unfold parseFrom at 1. cbn. intros [= <-]. reflexivity.
  - rewrite !(parseFrom_line _ _ _ _ _ Hl).
    destruct (rir.maxTokenSize <=? Z.of_nat (String.length l)); [discriminate |].
    destruct (rir.parseLine unicodeUpper fuel (delivered l)); [apply IH | discriminate].
Qed.

(** X9: the parser works line by line and keeps the order of the file: if
    a text of whole lines parses without error to [recs1] and a text
    [post] parses to [recs2], the first text followed by [post] parses to
    [recs1 ++ recs2], with the error of [post]. *)
Theorem X9_parse_concat (unicodeUpper : string -> string) (fuel : nat)
        (ls : list string) (post : string)
        (recs1 recs2 : list rir.record) (err : option string) :
  Forall (fun l => noNewline l = true) ls ->
  rir.ParseDelegatedExtended unicodeUpper fuel (unlines ls "") = Some (recs1, None) ->
  rir.ParseDelegatedExtended unicodeUpper fuel post = Some (recs2, err) ->
  rir.ParseDelegatedExtended unicodeUpper fuel (unlines ls post) = Some (recs1 ++ recs2, err).
Proof.
  intros Hls H1 H2. rewrite ParseDelegatedExtended_parseFrom in *.
  rewrite (parseFrom_unlines_then _ _ _ _ Hls [] recs1 H1).
  rewrite parseFrom_acc, H2. reflexivity.
Qed.

(** A line of APNIC followed by a line of ARIN. *)
Lemma X9_parse_concat_witness :
  exists recs1 recs2,
    rir.ParseDelegatedExtended noUnicode 5
      (unlines ["apnic|AU|ipv4|1.0.0.0|1|20110811|allocated|y"]
               "arin|US|ipv4|3.0.0.0|2|19880101|assigned|x")
    = Some (recs1 ++ recs2, None)
    /\ length recs1 = 1%nat /\ length recs2 = 2%nat.
Proof.
  eexists. eexists. split.
  - apply (X9_parse_concat noUnicode 5
             ["apnic|AU|ipv4|1.0.0.0|1|20110811|allocated|y"]
             "arin|US|ipv4|3.0.0.0|2|19880101|assigned|x" _ _ None).
    + constructor; [reflexivity | constructor].
    + vm_compute. reflexivity.
    + vm_compute. reflexivity.
  - split; reflexivity.
Defined.

(** X10: a record of [ipv6ToCIDR] keeps the start address as it is written
    in the line, followed by [/] and the value read as a prefix length
    between 0 and 128, with the country code given; and an address that
    [ipv6ToCIDR] accepts is never taken by [ipv4RangeToCIDRs], whatever
    the count: the two converters accept disjoint sets of addresses. *)
Theorem X10_ipv6ToCIDR_accepts (start value cc : string) (r : rir.record) :
  rir.ipv6ToCIDR start value cc = Some r ->
  rir.Country r = cc
  /\ (exists pfx, Atoi value = Some pfx /\ 0 <= pfx <= 128
                  /\ rir.Prefix r = start +:+ "/" +:+ itoa pfx)
  /\ (forall fuel count, rir.ipv4RangeToCIDRs fuel start count cc = Some []).
Proof.
  unfold rir.ipv6ToCIDR, rir.ipv4RangeToCIDRs.
  destruct (ParseIP start) as [ip |]; [| discriminate].
  destruct (To4 ip); [discriminate |].
  destruct (Atoi value) as [pfx |]; [| discriminate].
  destruct (Z.ltb_spec pfx 0); [discriminate |].
  destruct (Z.gtb_spec pfx 128); [discriminate |].
  cbn [orb]. intros [= <-]. split; [reflexivity |]. split; [| reflexivity].
  exists pfx. split; [reflexivity |]. split; [lia | reflexivity].
Qed.

(** The documentation prefix 2001:db8::/32. *)
Lemma X10_ipv6ToCIDR_accepts_witness :
  exists r,
    rir.ipv6ToCIDR "2001:db8::" "32" "AU" = Some r
    /\ rir.Country r = "AU"
    /\ (exists pfx, Atoi "32" = Some pfx /\ 0 <= pfx <= 128
                    /\ rir.Prefix r = "2001:db8::" +:+ "/" +:+ itoa pfx)
    /\ (forall fuel count, rir.ipv4RangeToCIDRs fuel "2001:db8::" count "AU" = Some []).
Proof.
  eexists. split; [vm_compute; reflexivity |].
  apply (X10_ipv6ToCIDR_accepts "2001:db8::" "32" "AU"). vm_compute. reflexivity.
Defined.

(** *** The outcome of the merge *)

Lemma mergeLoop_Panic (all : list rir.record) :
  forall (seen : gmap string string) (out : list rir.record) (msg : string),
    main.mergeLoop all seen out = Panic msg ->
    exists r, r ∈ all
              /\ msg = "country conflict for prefix " +:+ rir.Prefix r
              /\ ((exists c, seen !! rir.Prefix r = Some c /\ c <> rir.Country r)
                  \/ (exists r0, r0 ∈ all /\ rir.Prefix r0 = rir.Prefix r
                                 /\ rir.Country r0 <> rir.Country r)).
Proof.
  induction all as [| r1 all IH]; intros seen out msg Hm; [discriminate |].
  destruct (seen !! rir.Prefix r1) as [prev |] eqn:Hs.
  - destruct (decide (prev = rir.Country r1)) as [E | N].
    + rewrite (mergeLoop_seen r1 all seen out prev Hs E) in Hm.
      destruct (IH _ _ _ Hm) as [r [Hin [Hmsg Hwhy]]].
      exists r. split; [right; exact Hin |]. split; [exact Hmsg |].
      destruct Hwhy as [Hc | [r0 [H0 [Hp Hc]]]]; [left; exact Hc |].
      right. exists r0. split; [right; exact H0 | auto].
    + rewrite (mergeLoop_clash r1 all seen out prev Hs N) in Hm. injection Hm as <-.
      exists r1. split; [left |]. split; [reflexivity |].
      left. exists prev. auto.
  - rewrite (mergeLoop_fresh r1 all seen out Hs) in Hm.
    destruct (IH _ _ _ Hm) as [r [Hin [Hmsg Hwhy]]].
    exists r. split; [right; exact Hin |]. split; [exact Hmsg |].
    destruct Hwhy as [[c [Hl Hc]] | [r0 [H0 [Hp Hc]]]].
    + destruct (decide (rir.Prefix r1 = rir.Prefix r)) as [E | N].
      * rewrite E, lookup_insert_eq in Hl. injection Hl as <-.
        right. exists r1. split; [left | auto].
      * rewrite lookup_insert_ne in Hl by exact N.
        left. exists c. auto.
    + right. exists r0. split; [right; exact H0 | auto].
Qed.

(** X11: the merge has two outcomes and the records decide which: it
    returns a list exactly when no two records give one prefix two
    countries, and when it panics two such records exist, the later of
    which is the one the message names. *)
Theorem X11_merge_outcome (all : list rir.record) :
  ((exists out, main.merge all = Ok out) <-> conflictFree all)
  /\ (forall msg,
         main.merge all = Panic msg ->
         exists r0 r, r0 ∈ all /\ r ∈ all /\ rir.Prefix r0 = rir.Prefix r
                      /\ rir.Country r0 <> rir.Country r
                      /\ msg = "country conflict for prefix " +:+ rir.Prefix r).
Proof.
  split.
  - split.
    + intros [out H]. eapply merge_Ok_conflictFree; exact H.
    + intros H. eexists. apply merge_conflictFree. exact H.
  - intros msg Hm. unfold main.merge in Hm.
    destruct (mergeLoop_Panic all ∅ [] msg Hm) as [r [Hin [Hmsg Hwhy]]].
    destruct Hwhy as [[c [Hl _]] | [r0 [H0 [Hp Hc]]]].
    + rewrite lookup_empty in Hl. discriminate.
    + exists r0, r. auto.
Qed.

Lemma firstOccurrences_seen_ext (all : list rir.record) :
  forall s1 s2, (forall p, p ∈ s1 <-> p ∈ s2) ->
                firstOccurrences s1 all = firstOccurrences s2 all.
Proof.
  induction all as [| r all IH]; intros s1 s2 H; cbn [firstOccurrences]; [reflexivity |].
  rewrite (bool_decide_ext _ _ (H (rir.Prefix r))).
  destruct (bool_decide (rir.Prefix r ∈ s2)); [apply IH; exact H |].
  f_equal. apply IH. intros p. rewrite !elem_of_cons, H. reflexivity.
Qed.

Lemma firstOccurrences_app (l1 : list rir.record) :
  forall seen l2,
    firstOccurrences seen (l1 ++ l2)
    = firstOccurrences seen l1
        ++ firstOccurrences (map rir.Prefix l1 ++ seen) l2.
Proof.
  induction l1 as [| r l1 IH]; intros seen l2; [reflexivity |].
  cbn [app firstOccurrences map].
  destruct (bool_decide_reflect (rir.Prefix r ∈ seen)) as [Hin | Hnin].
  - rewrite IH. f_equal. apply firstOccurrences_seen_ext.
    intros p. rewrite elem_of_cons, !elem_of_app.
    split; [tauto |]. intros [-> | [H | H]]; auto.
  - cbn [app]. f_equal. rewrite IH. f_equal. apply firstOccurrences_seen_ext.
    intros p. rewrite elem_of_cons, !elem_of_app, elem_of_cons. tauto.
Qed.

Lemma firstOccurrences_all_seen (l : list rir.record) :
  forall seen, (forall r, r ∈ l -> rir.Prefix r ∈ seen) -> firstOccurrences seen l = [].
Proof.
  induction l as [| r l IH]; intros seen H; cbn [firstOccurrences]; [reflexivity |].
  rewrite bool_decide_eq_true_2 by (apply H; left).
  apply IH. intros r' Hr'. apply H. right. exact Hr'.
Qed.

Lemma firstOccurrences_NoDup_id (l : list rir.record) :
  forall seen,
    NoDup (map rir.Prefix l) -> (forall r, r ∈ l -> rir.Prefix r ∉ seen) ->
    firstOccurrences seen l = l.
Proof.
  induction l as [| r l IH]; intros seen Hnd Hs; cbn [firstOccurrences]; [reflexivity |].
  cbn [map] in Hnd. apply NoDup_cons in Hnd. destruct Hnd as [Hr Hnd].
  rewrite bool_decide_eq_false_2 by (apply Hs; left).
  f_equal. apply IH; [exact Hnd |].
  intros r' Hr' Hin. apply elem_of_cons in Hin. destruct Hin as [E | Hin].
  - apply Hr. rewrite <- E. apply list_elem_of_fmap. exists r'. auto.
  - apply (Hs r'); [right; exact Hr' | exact Hin].
Qed.

(** X12: records that are already among the input add nothing when they
    arrive again at the end (a registry that repeats delegations of
    another), and merging the merged list gives the merged list: the
    merge is idempotent. *)
Theorem X12_merge_absorbs (all extra out : list rir.record) :
  main.merge all = Ok out ->
  (forall r, r ∈ extra -> r ∈ all) ->
  main.merge (all ++ extra) = Ok out /\ main.merge out = Ok out.
Proof.
  intros Hm Hsub.
  pose proof (merge_Ok_conflictFree all out Hm) as Hcf.
  rewrite (merge_conflictFree all Hcf) in Hm. injection Hm as <-.
  split.
  - rewrite merge_conflictFree.
    + f_equal. rewrite firstOccurrences_app.
      rewrite (firstOccurrences_all_seen extra); [apply app_nil_r |].
      intros r Hr. rewrite app_nil_r.
      apply list_elem_of_fmap. exists r. split; [reflexivity | apply Hsub; exact Hr].
    + intros r1 r2 H1 H2. apply Hcf.
      * apply elem_of_app in H1. destruct H1; auto.
      * apply elem_of_app in H2. destruct H2; auto.
  - rewrite merge_conflictFree.
    + f_equal. apply firstOccurrences_NoDup_id; [apply firstOccurrences_NoDup |].
      intros r _ Hin. in_nil.
    + intros r1 r2 H1 H2. apply Hcf.
      * apply (firstOccurrences_elem all [] r1 H1).
      * apply (firstOccurrences_elem all [] r2 H2).
Qed.

(** The record (1.0.0.0/24, AU) arriving a third time. *)
Lemma X12_merge_absorbs_witness :
  main.merge ([ {| rir.Prefix := "1.0.0.0/24"; rir.Country := "AU" |};
                {| rir.Prefix := "1.0.0.0/24"; rir.Country := "AU" |} ]
                ++ [ {| rir.Prefix := "1.0.0.0/24"; rir.Country := "AU" |} ])
  = Ok [ {| rir.Prefix := "1.0.0.0/24"; rir.Country := "AU" |} ]
  /\ main.merge [ {| rir.Prefix := "1.0.0.0/24"; rir.Country := "AU" |} ]
     = Ok [ {| rir.Prefix := "1.0.0.0/24"; rir.Country := "AU" |} ].
Proof.
  apply (X12_merge_absorbs
           [ {| rir.Prefix := "1.0.0.0/24"; rir.Country := "AU" |};
             {| rir.Prefix := "1.0.0.0/24"; rir.Country := "AU" |} ]
           [ {| rir.Prefix := "1.0.0.0/24"; rir.Country := "AU" |} ]
           [ {| rir.Prefix := "1.0.0.0/24"; rir.Country := "AU" |} ]).
  - vm_compute. reflexivity.
  - intros r Hr. in_singleton. left.
Defined.

Lemma firstOccurrences_sublist (all : list rir.record) :
  forall seen, sublist (firstOccurrences seen all) all.
Proof.
  induction all as [| r all IH]; intros seen; cbn [firstOccurrences]; [constructor |].
  destruct (bool_decide (rir.Prefix r ∈ seen)).
  - apply sublist_cons. apply IH.
  - apply sublist_skip. apply IH.
Qed.

(** X13: the merge only drops records: its output is a subsequence of its
    input (it invents no record, changes none and keeps the order of
    arrival), and it is the whole input exactly when the prefixes of the
    input are distinct. *)
Theorem X13_merge_sublist (all out : list rir.record) :
  main.merge all = Ok out ->
  sublist out all /\ (length out <= length all)%nat
  /\ (out = all <-> NoDup (map rir.Prefix all)).
Proof.
  intros Hm.
  pose proof (merge_Ok_conflictFree all out Hm) as Hcf.
  rewrite (merge_conflictFree all Hcf) in Hm. injection Hm as <-.
  split; [apply firstOccurrences_sublist |].
  split; [apply sublist_length, firstOccurrences_sublist |].
  split.
  - intros E. rewrite <- E at 1. apply firstOccurrences_NoDup.
  - intros Hnd. apply firstOccurrences_NoDup_id; [exact Hnd |].
    intros r _ Hin. in_nil.
Qed.

(** Two prefixes, the first arriving twice. *)
Lemma X13_merge_sublist_witness :
  exists out,
    main.merge [ {| rir.Prefix := "1.0.0.0/24"; rir.Country := "AU" |};
                 {| rir.Prefix := "3.0.0.0/8"; rir.Country := "US" |};
                 {| rir.Prefix := "1.0.0.0/24"; rir.Country := "AU" |} ] = Ok out
    /\ sublist out [ {| rir.Prefix := "1.0.0.0/24"; rir.Country := "AU" |};
                     {| rir.Prefix := "3.0.0.0/8"; rir.Country := "US" |};
                     {| rir.Prefix := "1.0.0.0/24"; rir.Country := "AU" |} ]
    /\ (length out <= 3)%nat.
Proof.
  eexists. split; [vm_compute; reflexivity |].
  destruct (X13_merge_sublist
              [ {| rir.Prefix := "1.0.0.0/24"; rir.Country := "AU" |};
                {| rir.Prefix := "3.0.0.0/8"; rir.Country := "US" |};
                {| rir.Prefix := "1.0.0.0/24"; rir.Country := "AU" |} ]
              [ {| rir.Prefix := "1.0.0.0/24"; rir.Country := "AU" |};
                {| rir.Prefix := "3.0.0.0/8"; rir.Country := "US" |} ])
    as [Hsub [Hlen _]]; [vm_compute; reflexivity |].
  split; [exact Hsub | exact Hlen].
Defined.

(** *** The outcomes of a fetch *)

Lemma sleptSeconds_app (tr1 tr2 : list main.Event) :
  sleptSeconds (tr1 ++ tr2) = sleptSeconds tr1 + sleptSeconds tr2.
Proof.
  unfold sleptSeconds.
  induction tr1 as [| e tr1 IH]; [reflexivity |].
  cbn [app fold_right]. rewrite IH. destruct e; lia.
Qed.

Lemma sleepBudget_nonneg (left : nat) : forall attempt, 0 <= attempt -> 0 <= sleepBudget left attempt.
Proof.
  induction left as [| left IH]; intros attempt H; cbn [sleepBudget]; [lia |].
  specialize (IH (attempt + 1)). lia.
Qed.

Section FetchOutcomes.
Variable unicodeUpper : string -> string.
Variable fuel : nat.
Variable net : main.Network.
Variables name url : string.

Local Abbreviation fetchLoop := (main.fetchLoop unicodeUpper fuel net name url).
Local Abbreviation failedAt := (fun n => attemptFailed unicodeUpper fuel (net url n)).

Lemma fetchLoop_slept (left : nat) :
  forall attempt lastErr tr tr' res,
    0 <= attempt ->
    fetchLoop left attempt lastErr tr = Some (tr', res) ->
    sleptSeconds tr <= sleptSeconds tr' <= sleptSeconds tr + sleepBudget left attempt.
Proof.
  induction left as [| left IH]; intros attempt lastErr tr tr' res Ha;
    cbn [main.fetchLoop sleepBudget].
  - intros [= <- _]. lia.
  - pose proof (sleepBudget_nonneg left (attempt + 1) ltac:(lia)) as Hb.
    destruct (net url attempt) as [e | e | e | body].
    + intros [= <- _]. lia.
    + intros H. apply IH in H; [| lia]. rewrite sleptSeconds_app in H. cbn in H. lia.
    + intros H. apply IH in H; [| lia]. rewrite sleptSeconds_app in H. cbn in H. lia.
    + destruct (rir.ParseDelegatedExtended unicodeUpper fuel body)
        as [[recs [err |]] |]; [| | discriminate].
      * intros H. apply IH in H; [| lia]. rewrite !sleptSeconds_app in H. cbn in H. lia.
      * intros [= <- _]. rewrite !sleptSeconds_app. cbn. lia.
Qed.

Lemma fetchLoop_Ok (left : nat) :
  forall attempt lastErr tr tr' recs,
    fetchLoop left attempt lastErr tr = Some (tr', Ok recs) ->
    exists (k : nat) body,
      (k < left)%nat
      /\ (forall n, attempt <= n < attempt + Z.of_nat k -> failedAt n)
      /\ net url (attempt + Z.of_nat k) = main.Downloaded body
      /\ rir.ParseDelegatedExtended unicodeUpper fuel body = Some (recs, None)
      /\ requests tr' = (requests tr + k + 1)%nat.
Proof.
  induction left as [| left IH]; intros attempt lastErr tr tr' recs;
    cbn [main.fetchLoop]; [discriminate |].
  destruct (net url attempt) as [e | e | e | body] eqn:Hn.
  - discriminate.
  - intros H. apply IH in H. destruct H as [k [body [Hk [Hf [Hd [Hp Hr]]]]]].
    exists (S k), body. split; [lia |]. split; [| split; [| split]].
    + intros n Hr'. destruct (Z.eq_dec n attempt) as [-> | Hne].
      * left. rewrite Hn. discriminate.
      * apply Hf. lia.
    + rewrite <- Hd. f_equal. lia.
    + exact Hp.
    + rewrite Hr, requests_app. cbn. lia.
  - intros H. apply IH in H. destruct H as [k [body [Hk [Hf [Hd [Hp Hr]]]]]].
    exists (S k), body. split; [lia |]. split; [| split; [| split]].
    + intros n Hr'. destruct (Z.eq_dec n attempt) as [-> | Hne].
      * left. rewrite Hn. discriminate.
      * apply Hf. lia.
    + rewrite <- Hd. f_equal. lia.
    + exact Hp.
    + rewrite Hr, requests_app. cbn. lia.
  - destruct (rir.ParseDelegatedExtended unicodeUpper fuel body)
      as [[recs' [err |]] |] eqn:Hparse; [| | discriminate].
    + intros H. apply IH in H. destruct H as [k [body' [Hk [Hf [Hd [Hp Hr]]]]]].
      exists (S k), body'. split; [lia |]. split; [| split; [| split]].
      * intros n Hr'. destruct (Z.eq_dec n attempt) as [-> | Hne].
        -- right. exists body, recs', err. split; [exact Hn | exact Hparse].
        -- apply Hf. lia.
      * rewrite <- Hd. f_equal. lia.
      * exact Hp.
      * rewrite Hr, !requests_app. cbn. lia.
    + intros [= <- <-]. exists O, body. split; [lia |]. split; [| split; [| split]].
      * intros n Hr'. lia.
      * rewrite Z.add_0_r. exact Hn.
      * exact Hparse.
      * rewrite !requests_app. cbn. lia.
Qed.

Lemma fetchLoop_Panic (left : nat) :
  forall attempt lastErr tr tr' msg,
    fetchLoop left attempt lastErr tr = Some (tr', Panic msg) ->
    (exists (k : nat),
        (k < left)%nat
        /\ (forall n, attempt <= n < attempt + Z.of_nat k -> failedAt n)
        /\ net url (attempt + Z.of_nat k) = main.BadRequest msg
        /\ requests tr' = (requests tr + k)%nat)
    \/ ((forall n, attempt <= n < attempt + Z.of_nat left -> failedAt n)
        /\ msg = "failed to fetch " +:+ name +:+ " after 5 attempts: "
                   +:+ main.errText
                         (match left with
                          | O => lastErr
                          | S _ => Some (errorOf unicodeUpper fuel
                                           (net url (attempt + Z.of_nat left - 1)))
                          end)
        /\ requests tr' = (requests tr + left)%nat).
Proof.
  induction left as [| left IH]; intros attempt lastErr tr tr' msg; cbn [main.fetchLoop].
  - intros [= <- <-]. right. split; [intros n Hn; lia |]. split; [reflexivity | lia].
  - assert (Hstep :
      forall err tr1,
        failedAt attempt -> errorOf unicodeUpper fuel (net url attempt) = err ->
        requests tr1 = (requests tr + 1)%nat ->
        fetchLoop left (attempt + 1) (Some err) tr1 = Some (tr', Panic msg) ->
        (exists (k : nat),
            (k < S left)%nat
            /\ (forall n, attempt <= n < attempt + Z.of_nat k -> failedAt n)
            /\ net url (attempt + Z.of_nat k) = main.BadRequest msg
            /\ requests tr' = (requests tr + k)%nat)
        \/ ((forall n, attempt <= n < attempt + Z.of_nat (S left) -> failedAt n)
            /\ msg = "failed to fetch " +:+ name +:+ " after 5 attempts: "
                       +:+ main.errText
                             (Some (errorOf unicodeUpper fuel
                                      (net url (attempt + Z.of_nat (S left) - 1))))
            /\ requests tr' = (requests tr + S left)%nat)).
    { intros err tr1 Hfail Herr Hreq H. apply IH in H.
      destruct H as [[k [Hk [Hf [Hb Hr]]]] | [Hf [Hm Hr]]].
      - left. exists (S k). split; [lia |]. split; [| split].
        + intros n Hn. destruct (Z.eq_dec n attempt) as [-> | Hne]; [exact Hfail |].
          apply Hf. lia.
        + rewrite <- Hb. f_equal. lia.
        + rewrite Hr, Hreq. lia.
      - right. split; [| split].
        + intros n Hn. destruct (Z.eq_dec n attempt) as [-> | Hne]; [exact Hfail |].
          apply Hf. lia.
        + rewrite Hm. destruct left as [| left'].
          * rewrite <- Herr.
            replace (attempt + Z.of_nat 1 - 1) with attempt by lia. reflexivity.
          * replace (attempt + 1 + Z.of_nat (S left') - 1)
              with (attempt + Z.of_nat (S (S left')) - 1) by lia. reflexivity.
        + rewrite Hr, Hreq. lia. }
    destruct (net url attempt) as [e | e | e | body] eqn:Hn.
    + intros [= <- <-]. left. exists O. split; [lia |]. split; [| split].
      * intros n Hr. lia.
      * rewrite Z.add_0_r. exact Hn.
      * lia.
    + apply Hstep; [left; try rewrite Hn; cbn; discriminate | try rewrite Hn; reflexivity |].
      rewrite requests_app. cbn. lia.
    + apply Hstep; [left; try rewrite Hn; cbn; discriminate | try rewrite Hn; reflexivity |].
      rewrite requests_app. cbn. lia.
    + destruct (rir.ParseDelegatedExtended unicodeUpper fuel body)
        as [[recs' [err |]] |] eqn:Hparse; [| discriminate | discriminate].
      apply Hstep.
      * right. exists body, recs', err. split; [try rewrite Hn; reflexivity | exact Hparse].
      * try rewrite Hn. cbn [errorOf]. rewrite Hparse. reflexivity.
      * rewrite !requests_app. cbn. lia.
Qed.
End FetchOutcomes.

(** X14: records come from a body only: when [fetchWithRetry] returns
    records, they are the parse, without error, of the body that attempt
    [n] downloaded, for some [n] from 1 to 5; every attempt before it
    failed, and the fetch made exactly [n] requests (none after the
    success). *)
Theorem X14_fetch_returns_parsed_body (unicodeUpper : string -> string) (fuel : nat) (net : main.Network)
        (name url : string) (tr : list main.Event) (recs : list rir.record) :
  main.fetchWithRetry unicodeUpper fuel net name url = Some (tr, Ok recs) ->
  exists n body,
    1 <= n <= 5
    /\ (forall m, 1 <= m < n -> attemptFailed unicodeUpper fuel (net url m))
    /\ net url n = main.Downloaded body
    /\ rir.ParseDelegatedExtended unicodeUpper fuel body = Some (recs, None)
    /\ Z.of_nat (requests tr) = n.
Proof.
  intros H. unfold main.fetchWithRetry in H. apply fetchLoop_Ok in H.
  destruct H as [k [body [Hk [Hf [Hd [Hp Hr]]]]]].
  change (Z.to_nat main.maxRetries) with 5%nat in Hk.
  exists (1 + Z.of_nat k), body. split; [lia |]. split; [| split; [| split]].
  - intros m Hm. apply Hf. lia.
  - exact Hd.
  - exact Hp.
  - rewrite Hr. cbn. lia.
Qed.

(** Two failures of transport, then a body. *)
Lemma X14_fetch_returns_parsed_body_witness :
  exists tr recs,
    main.fetchWithRetry noUnicode 5 flakyNet "apnic" "https://example.org/apnic"
    = Some (tr, Ok recs)
    /\ exists n body,
        1 <= n <= 5
        /\ (forall m, 1 <= m < n ->
                      attemptFailed noUnicode 5 (flakyNet "https://example.org/apnic" m))
        /\ flakyNet "https://example.org/apnic" n = main.Downloaded body
        /\ rir.ParseDelegatedExtended noUnicode 5 body = Some (recs, None)
        /\ Z.of_nat (requests tr) = n.
Proof.
  eexists. eexists. split; [vm_compute; reflexivity |].
  apply (X14_fetch_returns_parsed_body noUnicode 5 flakyNet "apnic"
           "https://example.org/apnic").
  vm_compute. reflexivity.
Defined.

(** X15: [fetchWithRetry] panics in two cases only: the request could not
    be built at attempt [n] (the message is that error, and no request is
    made at that attempt nor after it), or all five attempts failed (the
    message names the source, the five attempts and the error of the
    fifth, be it of transport or of parsing). *)
Theorem X15_fetch_panics (unicodeUpper : string -> string) (fuel : nat) (net : main.Network)
        (name url : string) (tr : list main.Event) (msg : string) :
  main.fetchWithRetry unicodeUpper fuel net name url = Some (tr, Panic msg) ->
  (exists n,
      1 <= n <= 5
      /\ (forall m, 1 <= m < n -> attemptFailed unicodeUpper fuel (net url m))
      /\ net url n = main.BadRequest msg
      /\ Z.of_nat (requests tr) = n - 1)
  \/ ((forall m, 1 <= m <= 5 -> attemptFailed unicodeUpper fuel (net url m))
      /\ msg = "failed to fetch " +:+ name +:+ " after 5 attempts: "
                 +:+ errorOf unicodeUpper fuel (net url 5)
      /\ requests tr = 5%nat).
Proof.
  intros H. unfold main.fetchWithRetry in H. apply fetchLoop_Panic in H.
  change (Z.to_nat main.maxRetries) with 5%nat in H.
  destruct H as [[k [Hk [Hf [Hb Hr]]]] | [Hf [Hm Hr]]].
  - left. exists (1 + Z.of_nat k). split; [lia |]. split; [| split].
    + intros m Hrange. apply Hf. lia.
    + exact Hb.
    + rewrite Hr. cbn. lia.
  - right. split; [| split].
    + intros m Hrange. apply Hf. lia.
    + exact Hm.
    + rewrite Hr. reflexivity.
Qed.

(** A network that is down. *)
Lemma X15_fetch_panics_witness :
  exists tr msg,
    main.fetchWithRetry noUnicode 5 downNet "arin" "https://example.org/arin"
    = Some (tr, Panic msg)
    /\ msg = "failed to fetch arin after 5 attempts: connection refused"
    /\ requests tr = 5%nat.
Proof.
  eexists. eexists. split; [vm_compute; reflexivity |].
  edestruct (X15_fetch_panics noUnicode 5 downNet "arin" "https://example.org/arin")
    as [[n [_ [_ [Hbad _]]]] | [_ [Hmsg Hreq]]]; [vm_compute; reflexivity | |].
  - discriminate.
  - split; [exact Hmsg | exact Hreq].
Defined.

(** X16: whatever the network does, one call of [fetchWithRetry] sleeps at
    most 150 seconds in all (10 + 20 + 30 + 40 + 50). *)
Theorem X16_fetch_sleeps_at_most_150_seconds (unicodeUpper : string -> string) (fuel : nat) (net : main.Network)
        (name url : string) (tr : list main.Event) (res : outcome (list rir.record)) :
  main.fetchWithRetry unicodeUpper fuel net name url = Some (tr, res) ->
  0 <= sleptSeconds tr <= 150.
Proof.
  intros H. unfold main.fetchWithRetry in H. apply fetchLoop_slept in H; [| lia].
  change (sleepBudget (Z.to_nat main.maxRetries) 1) with 150 in H.
  cbn [sleptSeconds fold_right] in H. lia.
Qed.

(** The network that is down: the whole 150 seconds. *)
Lemma X16_fetch_sleeps_at_most_150_seconds_witness :
  exists tr res,
    main.fetchWithRetry noUnicode 5 downNet "arin" "https://example.org/arin"
    = Some (tr, res)
    /\ sleptSeconds tr = 150
    /\ 0 <= sleptSeconds tr <= 150.
Proof.
  eexists. eexists. split; [vm_compute; reflexivity |].
  split; [vm_compute; reflexivity |].
  eapply (X16_fetch_sleeps_at_most_150_seconds noUnicode 5 downNet "arin"
            "https://example.org/arin").
  vm_compute. reflexivity.
Defined.

(** *** The outcomes of the build *)

Section BuildOutcomes.
Variable unicodeUpper : string -> string.
Variable fuel : nat.
Variable net : main.Network.

Local Abbreviation fetchedFrom := (fetched unicodeUpper fuel net).
Local Abbreviation fetchOkFrom := (fetchOk unicodeUpper fuel net).

Lemma fetchLoop_requested (name url : string) (left : nat) :
  forall attempt lastErr tr tr' res u,
    main.fetchLoop unicodeUpper fuel net name url left attempt lastErr tr = Some (tr', res) ->
    requested tr' u -> requested tr u \/ u = url.
Proof.
  unfold requested.
  induction left as [| left IH]; intros attempt lastErr tr tr' res u; cbn [main.fetchLoop].
  - intros [= <- _] H. left. exact H.
  - assert (Hin : forall evs, main.Request u ∈ tr ++ main.Request url :: evs ->
                    Forall (fun e => isRequest e = false) evs ->
                    main.Request u ∈ tr \/ u = url).
    { intros evs H Hev. apply elem_of_app in H. destruct H as [H | H]; [left; exact H |].
      apply elem_of_cons in H. destruct H as [[= ->] | H]; [right; reflexivity |].
      rewrite Forall_forall in Hev. apply Hev in H. discriminate. }
    destruct (net url attempt) as [e | e | e | body].
    + intros [= <- _] H. left. exact H.
    + intros Hrun H. destruct (IH _ _ _ _ _ _ Hrun H) as [H' | H']; [| right; exact H'].
      apply (Hin _ H'). repeat constructor.
    + intros Hrun H. destruct (IH _ _ _ _ _ _ Hrun H) as [H' | H']; [| right; exact H'].
      apply (Hin _ H'). repeat constructor.
    + destruct (rir.ParseDelegatedExtended unicodeUpper fuel body)
        as [[recs [err |]] |]; [| | discriminate].
      * intros Hrun H. destruct (IH _ _ _ _ _ _ Hrun H) as [H' | H']; [| right; exact H'].
        rewrite <- app_assoc in H'. apply (Hin _ H'). repeat constructor.
      * intros [= <- _] H. rewrite <- app_assoc in H. apply (Hin _ H). repeat constructor.
Qed.

Lemma fetchWithRetry_requested (name url : string) tr res u :
  main.fetchWithRetry unicodeUpper fuel net name url = Some (tr, res) ->
  requested tr u -> u = url.
Proof.
  intros Hrun H. destruct (fetchLoop_requested _ _ _ _ _ _ _ _ _ Hrun H) as [H' | H'].
  - unfold requested in H'. in_nil.
  - exact H'.
Qed.

Lemma fetchAll_requested (sources : list (string * string)) :
  forall all src tr tr' res u,
    main.fetchAll unicodeUpper fuel net sources all src tr = Some (tr', res) ->
    requested tr' u -> requested tr u \/ u ∈ map snd sources.
Proof.
  induction sources as [| [name url] sources IH]; intros all src tr tr' res u;
    cbn [main.fetchAll].
  - intros [= <- _] H. left. exact H.
  - destruct (main.fetchWithRetry unicodeUpper fuel net name url)
      as [[trf [recs | msg]] |] eqn:Hf; [| | discriminate].
    + intros Hrun H. destruct (IH _ _ _ _ _ _ Hrun H) as [H' | H'].
      * unfold requested in H'. apply elem_of_app in H'. destruct H' as [H' | H'];
          [left; exact H' |].
        apply elem_of_cons in H'. destruct H' as [H' | H']; [discriminate |].
        right. cbn [map snd]. apply elem_of_cons. left. eapply fetchWithRetry_requested; [exact Hf | exact H'].
      * right. cbn [map]. right. exact H'.
    + intros [= <- _] H. unfold requested in H.
      apply elem_of_app in H. destruct H as [H | H]; [left; exact H |].
      apply elem_of_cons in H. destruct H as [H | H]; [discriminate |].
      right. cbn [map snd]. apply elem_of_cons. left. eapply fetchWithRetry_requested; [exact Hf | exact H].
Qed.

Lemma fetchAll_Panic (sources : list (string * string)) :
  forall all src tr tr' msg,
    main.fetchAll unicodeUpper fuel net sources all src tr = Some (tr', Panic msg) ->
    exists pre s post trf,
      sources = pre ++ s :: post
      /\ Forall fetchOkFrom pre
      /\ main.fetchWithRetry unicodeUpper fuel net (fst s) (snd s) = Some (trf, Panic msg)
      /\ forall u, requested tr' u -> requested tr u \/ u ∈ map snd (pre ++ [s]).
Proof.
  induction sources as [| [name url] sources IH]; intros all src tr tr' msg;
    cbn [main.fetchAll]; [discriminate |].
  destruct (main.fetchWithRetry unicodeUpper fuel net name url)
    as [[trf [recs | msg']] |] eqn:Hf; [| | discriminate].
  - intros Hrun. apply IH in Hrun.
    destruct Hrun as [pre [s [post [trf' [-> [Hok [Hs Hreq]]]]]]].
    exists ((name, url) :: pre), s, post, trf'. split; [reflexivity |].
    split; [| split; [exact Hs |]].
    + constructor; [| exact Hok]. exists trf, recs. exact Hf.
    + intros u Hu. apply Hreq in Hu. destruct Hu as [Hu | Hu].
      * unfold requested in Hu. apply elem_of_app in Hu. destruct Hu as [Hu | Hu];
          [left; exact Hu |].
        apply elem_of_cons in Hu. destruct Hu as [Hu | Hu]; [discriminate |].
        right. cbn [app map snd]. apply elem_of_cons. left.
        eapply fetchWithRetry_requested; [exact Hf | exact Hu].
      * right. cbn [app map]. right. exact Hu.
  - intros [= <- <-]. exists [], (name, url), sources, trf.
    split; [reflexivity |]. split; [constructor |]. split; [exact Hf |].
    intros u Hu. unfold requested in Hu.
    apply elem_of_app in Hu. destruct Hu as [Hu | Hu]; [left; exact Hu |].
    apply elem_of_cons in Hu. destruct Hu as [Hu | Hu]; [discriminate |].
    right. cbn [app map snd]. apply elem_of_cons. left. eapply fetchWithRetry_requested; [exact Hf | exact Hu].
Qed.

Lemma fetched_countries (s : string * string) :
  Forall (fun r => validCountry (rir.Country r)) (fetchedFrom s).
Proof.
  unfold fetched.
  destruct (main.fetchWithRetry unicodeUpper fuel net (fst s) (snd s))
    as [[tr [recs | msg]] |] eqn:Hf; try constructor.
  apply fetchLoop_Ok in Hf. destruct Hf as [k [body [_ [_ [_ [Hp _]]]]]].
  unfold rir.ParseDelegatedExtended in Hp.
  destruct (scanLines rir.maxTokenSize body) as [lines e].
  destruct (rir.parseLines unicodeUpper fuel lines []) as [out |] eqn:H; [| discriminate].
  injection Hp as <- _. eapply parseLines_countries; [constructor | exact H].
Qed.

Lemma build_Ok (order : list (string * string)) tr out srcs :
  main.build unicodeUpper fuel net order = Some (tr, Ok (out, srcs)) ->
  Forall fetchOkFrom order
  /\ out = firstOccurrences [] (flat_map fetchedFrom order)
  /\ conflictFree (flat_map fetchedFrom order)
  /\ srcs = Strings (map tagOf order).
Proof.
  unfold main.build.
  destruct (main.fetchAll unicodeUpper fuel net order [] [] [])
    as [[tr0 [[all src] | msg]] |] eqn:Hf; [| discriminate | discriminate].
  apply fetchAll_Ok in Hf. destruct Hf as [Hok [-> ->]]. cbn [app].
  destruct (main.merge (flat_map fetchedFrom order)) as [out' | msg] eqn:Hm; [| discriminate].
  intros [= _ <- <-].
  pose proof (merge_Ok_conflictFree _ _ Hm) as Hcf.
  rewrite (merge_conflictFree _ Hcf) in Hm. injection Hm as <-.
  split; [exact Hok |]. split; [reflexivity |]. split; [exact Hcf | reflexivity].
Qed.
End BuildOutcomes.

(** X17: when [build] returns, no prefix occurs twice in its records,
    every country code is two letters in [A]-[Z] other than [ZZ], the
    records are those that the fetches of the sources returned (none is
    lost but as a duplicate, none is invented), and the source list names
    each source once. *)
Theorem X17_build_records (unicodeUpper : string -> string) (fuel : nat) (net : main.Network)
        (order : list (string * string)) (tr : list main.Event)
        (out : list rir.record) (srcs : list string) :
  main.build unicodeUpper fuel net order = Some (tr, Ok (out, srcs)) ->
  NoDup (map rir.Prefix out)
  /\ Forall (fun r => validCountry (rir.Country r)) out
  /\ (forall r, r ∈ out <->
                exists s, s ∈ order /\ r ∈ fetched unicodeUpper fuel net s)
  /\ Permutation (map tagOf order) srcs.
Proof.
  intros H. apply build_Ok in H. destruct H as [Hok [-> [Hcf ->]]].
  assert (Hel : forall r, r ∈ flat_map (fetched unicodeUpper fuel net) order <->
                          exists s, s ∈ order /\ r ∈ fetched unicodeUpper fuel net s).
  { intros r. rewrite list_elem_of_In, in_flat_map. split.
    - intros [s [Hs Hr]]. exists s. rewrite !list_elem_of_In. split; assumption.
    - intros [s [Hs Hr]]. exists s. rewrite <- !list_elem_of_In. split; assumption. }
  split; [apply firstOccurrences_NoDup |]. split; [| split].
  - apply Forall_forall. intros r Hr.
    apply (firstOccurrences_same_elems _ _ Hcf) in Hr.
    apply Hel in Hr. destruct Hr as [s [_ Hr]].
    pose proof (fetched_countries unicodeUpper fuel net s) as Hc.
    rewrite Forall_forall in Hc. apply Hc. exact Hr.
  - intros r. rewrite firstOccurrences_same_elems by exact Hcf. apply Hel.
  - apply Strings_sorts.
Qed.

(** The run of the example. *)
Lemma X17_build_records_witness :
  exists out srcs,
    main.build noUnicode 10 exampleNet exampleOrder = Some (exampleTrace, Ok (out, srcs))
    /\ NoDup (map rir.Prefix out)
    /\ Forall (fun r => validCountry (rir.Country r)) out
    /\ (forall r, r ∈ out <->
                  exists s, s ∈ exampleOrder /\ r ∈ fetched noUnicode 10 exampleNet s)
    /\ Permutation (map tagOf exampleOrder) srcs.
Proof.
  eexists. eexists. split; [vm_compute; reflexivity |].
  apply (X17_build_records noUnicode 10 exampleNet exampleOrder exampleTrace).
  vm_compute. reflexivity.
Defined.

(** X18: in whatever order [range] yields the five sources, the source
    list of a build that returns is [afrinic-delegated], [apnic-delegated],
    [arin-delegated], [lacnic-delegated], [ripe-delegated], in this
    order. *)
Theorem X18_build_sources (unicodeUpper : string -> string) (fuel : nat) (net : main.Network)
        (order : list (string * string)) (tr : list main.Event)
        (out : list rir.record) (srcs : list string) :
  Permutation order (map_to_list rir.Sources) ->
  main.build unicodeUpper fuel net order = Some (tr, Ok (out, srcs)) ->
  srcs = releaseSources.
Proof.
  intros Hp H. apply build_Ok in H. destruct H as [_ [_ [_ ->]]].
  apply (sorted_strings_unique (map tagOf order) (map tagOf (map_to_list rir.Sources))).
  - apply Permutation_map. exact Hp.
  - apply Strings_sorts.
  - assert (E : releaseSources = Strings (map tagOf (map_to_list rir.Sources)))
      by (vm_compute; reflexivity).
    rewrite E. apply Strings_sorts.
Qed.

(** The sources in reverse order. *)
Lemma X18_build_sources_witness :
  exists tr out srcs,
    main.build noUnicode 10 exampleNet (rev exampleOrder) = Some (tr, Ok (out, srcs))
    /\ srcs = releaseSources.
Proof.
  eexists. eexists. eexists. split; [vm_compute; reflexivity |].
  eapply (X18_build_sources noUnicode 10 exampleNet (rev exampleOrder)).
  - symmetry. apply Permutation_rev.
  - vm_compute. reflexivity.
Defined.

(** X19: [build] panics in two cases only. Either the fetch of a source
    panicked, with that message, all sources before it having been
    fetched, and then no request went to a source after it: the first
    source that fails ends the run. Or all sources were fetched and their
    records are in conflict, the message naming the prefix of one of
    them. *)
Theorem X19_build_panics (unicodeUpper : string -> string) (fuel : nat) (net : main.Network)
        (order : list (string * string)) (tr : list main.Event) (msg : string) :
  main.build unicodeUpper fuel net order = Some (tr, Panic msg) ->
  (exists pre s post trf,
      order = pre ++ s :: post
      /\ Forall (fetchOk unicodeUpper fuel net) pre
      /\ main.fetchWithRetry unicodeUpper fuel net (fst s) (snd s) = Some (trf, Panic msg)
      /\ forall u, requested tr u -> u ∈ map snd (pre ++ [s]))
  \/ (Forall (fetchOk unicodeUpper fuel net) order
      /\ ~ conflictFree (flat_map (fetched unicodeUpper fuel net) order)
      /\ exists r, r ∈ flat_map (fetched unicodeUpper fuel net) order
                   /\ msg = "country conflict for prefix " +:+ rir.Prefix r).
Proof.
  unfold main.build.
  destruct (main.fetchAll unicodeUpper fuel net order [] [] [])
    as [[tr0 [[all src] | msg0]] |] eqn:Hf; [| | discriminate].
  - apply fetchAll_Ok in Hf. destruct Hf as [Hok [-> _]]. cbn [app].
    destruct (main.merge (flat_map (fetched unicodeUpper fuel net) order))
      as [out' | msg'] eqn:Hm; [discriminate |].
    intros [= _ <-]. right. split; [exact Hok |]. split.
    + intros Hcf. rewrite (merge_conflictFree _ Hcf) in Hm. discriminate.
    + unfold main.merge in Hm.
      destruct (mergeLoop_Panic _ _ _ _ Hm) as [r [Hr [-> _]]].
      exists r. split; [exact Hr | reflexivity].
  - intros [= <- <-]. left. apply fetchAll_Panic in Hf.
    destruct Hf as [pre [s [post [trf [-> [Hok [Hs Hreq]]]]]]].
    exists pre, s, post, trf. split; [reflexivity |]. split; [exact Hok |].
    split; [exact Hs |]. intros u Hu. apply Hreq in Hu.
    destruct Hu as [Hu | Hu]; [unfold requested in Hu; in_nil | exact Hu].
Qed.

(** The network that is down: the first source ends the run. *)
Lemma X19_build_panics_witness :
  exists tr msg,
    main.build noUnicode 10 downNet exampleOrder = Some (tr, Panic msg)
    /\ requests tr = 5%nat
    /\ ((exists pre s post trf,
            exampleOrder = pre ++ s :: post
            /\ Forall (fetchOk noUnicode 10 downNet) pre
            /\ main.fetchWithRetry noUnicode 10 downNet (fst s) (snd s)
               = Some (trf, Panic msg)
            /\ forall u, requested tr u -> u ∈ map snd (pre ++ [s]))
        \/ (Forall (fetchOk noUnicode 10 downNet) exampleOrder
            /\ ~ conflictFree (flat_map (fetched noUnicode 10 downNet) exampleOrder)
            /\ exists r, r ∈ flat_map (fetched noUnicode 10 downNet) exampleOrder
                         /\ msg = "country conflict for prefix " +:+ rir.Prefix r)).
Proof.
  eexists. eexists. split; [vm_compute; reflexivity |].
  split; [vm_compute; reflexivity |].
  apply (X19_build_panics noUnicode 10 downNet exampleOrder). vm_compute. reflexivity.
Defined.


